(** * DGM: the three-layer perceptron demo ([Demo ICR.cpp]) and the
      random-number facility ([Random.h])

    The C++ [float] and [double] values of the network are idealised as real
    numbers: the development follows the data flow of the code (which
    activations and weights are combined, in which order, and where the
    result is stored).  Rounding is studied separately, for the sigmoid
    function only, in the module [IEEE] on the IEEE-754 formats themselves.

    Neurons are heap objects shared through [std::shared_ptr]; a layer is a
    vector of such pointers.  The heap is therefore explicit, and two layers
    may alias. *)

From Stdlib Require Import Reals Lra Lia ZArith Floats.SpecFloat.
From Stdlib Require Import Ascii DecimalString DecimalNat.
From stdpp Require Import base list gmap strings.

(** ** Faults: the undefined behaviours of the C++ code made explicit *)

Inductive buffer_id :=
  | BufResultErrorRate
  | BufAllPredictions
  | BufDeltaWjk
  | BufDeltaWik
  | BufDeltaJ
  | BufPixels.

Inductive fault :=
  | InvalidPointer
  | WeightIndex
  | OutOfBounds (b : buffer_id)
  | Uninitialised (b : buffer_id)
  | UninitialisedNumber.

Inductive result (A : Type) :=
  | Ok (a : A)
  | Fault (f : fault).
Arguments Ok {A} a.
Arguments Fault {A} f.

Definition bind {A B : Type} (r : result A) (k : A → result B) : result B :=
  match r with
  | Ok a => k a
  | Fault f => Fault f
  end.

Notation "'let*' x ':=' e 'in' k" := (bind e (fun x => k))
  (at level 10, x name, e at level 100, k at level 200,
   format "'[v' 'let*'  x  :=  e  'in' '/' k ']'").

(** [for (size_t i = 0; i < n; i++) body] on a state of type [S]. *)
Fixpoint for_loop {S : Type} (n : nat) (body : nat → S → result S) (s : S)
  : result S :=
  match n with
  | O => Ok s
  | S m => let* s' := for_loop m body s in body m s'
  end.

(** [for (const auto& a : v) body]. *)
Fixpoint for_each {T S : Type} (v : list T) (body : T → S → result S) (s : S)
  : result S :=
  match v with
  | [] => Ok s
  | a :: v' => let* s' := body a s in for_each v' body s'
  end.

(** ** Neurons and layers *)

(** Modelled from the spec: the class [CNeuron] of [DNN.h], which is not part
    of the sources.  Section 4.2: a neuron holds one activation value and a
    row of outgoing weights whose length is fixed at construction. *)
Record CNeuron := mkNeuron {
  m_value : R;
  m_weights : list R
}.

(** [ptr_neuron_t] is [std::shared_ptr<CNeuron>]: an address in the heap. *)
Abbreviation ptr_neuron_t := nat (only parsing).

Abbreviation heap := (gmap nat CNeuron).
Abbreviation layer := (list nat).

(** Modelled from the spec: the methods of [CNeuron] ([DNN.h] is not part of
    the sources), section 4.2.  [getNodeValue] and [setNodeValue] read and
    write the activation; [getWeight(j)] and [setWeight(j, w)] index the
    weight row, and an index outside the row is a contract violation.
    Dereferencing an address that holds no neuron is a fault as well. *)
Definition deref (h : heap) (p : ptr_neuron_t) : result CNeuron :=
  match h !! p with
  | Some n => Ok n
  | None => Fault InvalidPointer
  end.

Definition getNodeValue (h : heap) (p : ptr_neuron_t) : result R :=
  let* n := deref h p in Ok (m_value n).

Definition setNodeValue (p : ptr_neuron_t) (v : R) (h : heap) : result heap :=
  let* n := deref h p in Ok (<[p := mkNeuron v (m_weights n)]> h).

Definition getWeight (h : heap) (p : ptr_neuron_t) (j : nat) : result R :=
  let* n := deref h p in
  match m_weights n !! j with
  | Some w => Ok w
  | None => Fault WeightIndex
  end.

Definition setWeight (p : ptr_neuron_t) (j : nat) (w : R) (h : heap)
  : result heap :=
  let* n := deref h p in
  if decide (j < length (m_weights n))
  then Ok (<[p := mkNeuron (m_value n) (<[j := w]> (m_weights n))]> h)
  else Fault WeightIndex.

(** [v[i]] for [i] below [v.size()]. *)
Definition at_index (v : layer) (i : nat) : result ptr_neuron_t :=
  match v !! i with
  | Some p => Ok p
  | None => Fault InvalidPointer
  end.

(** ** Raw arrays ([new T[n]]): a size and the cells written so far

    The cells of a fresh array are indeterminate; the buffer name given to a
    read or a write only labels the fault. *)

Record array1 := mkArray1 {
  a1_size : nat;
  a1_cells : gmap nat R
}.

Record array2 := mkArray2 {
  a2_rows : nat;
  a2_cols : nat;
  a2_cells : gmap (nat * nat) R
}.

Definition new1 (n : nat) : array1 := mkArray1 n ∅.
Definition new2 (r c : nat) : array2 := mkArray2 r c ∅.

Definition read1 (b : buffer_id) (a : array1) (i : nat) : result R :=
  if decide (i < a1_size a)
  then match a1_cells a !! i with
       | Some x => Ok x
       | None => Fault (Uninitialised b)
       end
  else Fault (OutOfBounds b).

Definition write1 (b : buffer_id) (a : array1) (i : nat) (x : R)
  : result array1 :=
  if decide (i < a1_size a)
  then Ok (mkArray1 (a1_size a) (<[i := x]> (a1_cells a)))
  else Fault (OutOfBounds b).

Definition read2 (b : buffer_id) (a : array2) (i j : nat) : result R :=
  if decide (i < a2_rows a ∧ j < a2_cols a)
  then match a2_cells a !! (i, j) with
       | Some x => Ok x
       | None => Fault (Uninitialised b)
       end
  else Fault (OutOfBounds b).

Definition write2 (b : buffer_id) (a : array2) (i j : nat) (x : R)
  : result array2 :=
  if decide (i < a2_rows a ∧ j < a2_cols a)
  then Ok (mkArray2 (a2_rows a) (a2_cols a) (<[(i, j) := x]> (a2_cells a)))
  else Fault (OutOfBounds b).

(** ** [Demo ICR.cpp] *)

Section Demo.
Local Open Scope R_scope.

Definition applySigmoidFunction (val : R) : R :=
  let sigmoid := 1 / (1 + exp (- val)) in
  sigmoid.

Definition dotProd (vpLayerA vpLayerB : layer) (h : heap) : result heap :=
  for_loop (length vpLayerB) (fun i h =>
    let* value := for_each vpLayerA (fun a value =>
                    let* w := getWeight h a i in
                    let* x := getNodeValue h a in
                    Ok (value + w * x)) 0 in
    let* b := at_index vpLayerB i in
    setNodeValue b (applySigmoidFunction value) h) h.

(** The scratch buffers of [backPropagate]. *)
Record scratch := mkScratch {
  DeltaWjk : array2;
  DeltaWik : array2;
  DeltaJ : array1
}.

Definition numNeuronsInputLayer : nat := 784.
Definition numNeuronsHiddenLayer : nat := 60.
Definition numNeuronsOutputLayer : nat := 10.
Definition learningRate : R := 0.1.

(** First loop of [backPropagate] (lines 205-213): the gradients of the
    hidden-to-output weights and the hidden deltas.  It only reads neurons. *)
Definition bp_gradients (h : heap) (vpLayerB vpLayerC : layer)
    (resultErrorRate : array1) (sc : scratch) : result scratch :=
  for_loop (length vpLayerB) (fun i sc =>
    let* b := at_index vpLayerB i in
    let* acc := for_loop (length vpLayerC) (fun j '(nodeVal, dWjk) =>
                  let* w := getWeight h b j in
                  let* e := read1 BufResultErrorRate resultErrorRate j in
                  let nodeVal := nodeVal + w * e in
                  let* x := getNodeValue h b in
                  let* dWjk := write2 BufDeltaWjk dWjk i j (learningRate * e * x) in
                  Ok (nodeVal, dWjk)) (0, DeltaWjk sc) in
    let '(nodeVal, dWjk) := acc in
    let* x := getNodeValue h b in
    let sigmoid := applySigmoidFunction x in
    let* dJ := write1 BufDeltaJ (DeltaJ sc) i
                 (nodeVal * sigmoid * (1 - sigmoid)) in
    Ok (mkScratch dWjk (DeltaWik sc) dJ)) sc.

(** Second loop (lines 215-221): the input-to-hidden weights. *)
Definition bp_updateInput (vpLayerA vpLayerB : layer) (st : heap * scratch)
  : result (heap * scratch) :=
  for_loop (length vpLayerA) (fun i st =>
    for_loop (length vpLayerB) (fun j '(h, sc) =>
      let* a := at_index vpLayerA i in
      let* dj := read1 BufDeltaJ (DeltaJ sc) j in
      let* x := getNodeValue h a in
      let* dWik := write2 BufDeltaWik (DeltaWik sc) i j
                   (learningRate * dj * x) in
      let* oldWeight := getWeight h a j in
      let* d := read2 BufDeltaWik dWik i j in
      let* h := setWeight a j (oldWeight + d) h in
      Ok (h, mkScratch (DeltaWjk sc) dWik (DeltaJ sc))) st) st.

(** Third loop (lines 223-228): the hidden-to-output weights. *)
Definition bp_updateHidden (vpLayerB vpLayerC : layer) (sc : scratch)
    (h : heap) : result heap :=
  for_loop (length vpLayerB) (fun i h =>
    for_loop (length vpLayerC) (fun j h =>
      let* b := at_index vpLayerB i in
      let* oldWeight := getWeight h b j in
      let* d := read2 BufDeltaWjk (DeltaWjk sc) i j in
      setWeight b j (oldWeight + d) h) h) h.

Definition new_scratch : scratch :=
  mkScratch (new2 numNeuronsHiddenLayer numNeuronsOutputLayer)
            (new2 numNeuronsInputLayer numNeuronsHiddenLayer)
            (new1 numNeuronsHiddenLayer).

Definition backPropagate (vpLayerA vpLayerB vpLayerC : layer)
    (resultErrorRate : array1) (h : heap) : result heap :=
  let* sc := bp_gradients h vpLayerB vpLayerC resultErrorRate new_scratch in
  let* st := bp_updateInput vpLayerA vpLayerB (h, sc) in
  bp_updateHidden vpLayerB vpLayerC (snd st) (fst st).

(** *** The per-sample steps of [main] *)

(** Lines 115-118: the pixels of one image, scaled to [0, 1]. *)
Definition setInputs (vpInputLayer : layer) (pixels : list Z) (h : heap)
  : result heap :=
  for_loop (length vpInputLayer) (fun i h =>
    let* px := match pixels !! i with
               | Some px => Ok px
               | None => Fault (OutOfBounds BufPixels)
               end in
    let val := IZR px / 255 in
    let* a := at_index vpInputLayer i in
    setNodeValue a val h) h.

(** Lines 123-127: the error vector handed to [backPropagate]. *)
Definition computeResultErrorRate (vpOutputLayer : layer) (digit : nat)
    (h : heap) : result array1 :=
  for_loop (length vpOutputLayer) (fun i resultErrorRate =>
    let* resultErrorRate :=
      write1 BufResultErrorRate resultErrorRate i
             (if decide (digit = i) then 1 else 0) in
    let* c := at_index vpOutputLayer i in
    let* x := getNodeValue h c in
    let* e := read1 BufResultErrorRate resultErrorRate i in
    write1 BufResultErrorRate resultErrorRate i (e - x))
    (new1 numNeuronsOutputLayer).

Definition forwardPass (vpInputLayer vpHiddenLayer vpOutputLayer : layer)
    (pixels : list Z) (h : heap) : result heap :=
  let* h := setInputs vpInputLayer pixels h in
  let* h := dotProd vpInputLayer vpHiddenLayer h in
  dotProd vpHiddenLayer vpOutputLayer h.

(** Lines 114-131: one iteration of the training loop. *)
Definition trainSample (vpInputLayer vpHiddenLayer vpOutputLayer : layer)
    (pixels : list Z) (digit : nat) (h : heap) : result heap :=
  let* h := forwardPass vpInputLayer vpHiddenLayer vpOutputLayer pixels h in
  let* resultErrorRate := computeResultErrorRate vpOutputLayer digit h in
  backPropagate vpInputLayer vpHiddenLayer vpOutputLayer resultErrorRate h.

(** Lines 156-168: the predicted digit.  [number] is declared without an
    initial value, hence the [option]. *)
Definition predictedNumber (vpOutputLayer : layer) (h : heap) : result nat :=
  let* allPredictionsforDigits :=
    for_loop (length vpOutputLayer) (fun i preds =>
      let* c := at_index vpOutputLayer i in
      let* x := getNodeValue h c in
      write1 BufAllPredictions preds i x) (new1 numNeuronsOutputLayer) in
  let* best :=
    for_loop (length vpOutputLayer) (fun i '(maxAccuracy, number) =>
      let* p := read1 BufAllPredictions allPredictionsforDigits i in
      if Rge_dec p maxAccuracy
      then let* m := read1 BufAllPredictions allPredictionsforDigits i in
           Ok (m, Some i)
      else Ok (maxAccuracy, number)) (0, None) in
  match snd best with
  | Some number => Ok number
  | None => Fault UninitialisedNumber
  end.

(** *** Total readers used in the statements *)

Definition value (h : heap) (p : ptr_neuron_t) : R :=
  match h !! p with
  | Some n => m_value n
  | None => 0
  end.

Definition weight (h : heap) (p : ptr_neuron_t) (j : nat) : R :=
  match h !! p with
  | Some n => nth j (m_weights n) 0
  | None => 0
  end.

(** The sum of a list of reals. *)
Definition Rsum (l : list R) : R := foldr Rplus 0 l.

(** The weighted input of the downstream neuron of index [j]: the sum over
    the upstream neurons of [weight(j) * value]. *)
Definition weightedInput (h : heap) (upstream : layer) (j : nat) : R :=
  Rsum (map (λ a, weight h a j * value h a) upstream).

Definition errorAt (resultErrorRate : array1) (k : nat) : R :=
  default 0 (a1_cells resultErrorRate !! k).

(** The output error pulled back to the hidden neuron [b] through its
    weights to the [n] output neurons. *)
Definition backpropagatedError (h : heap) (b : ptr_neuron_t) (n : nat)
    (resultErrorRate : array1) : R :=
  Rsum (map (λ k, weight h b k * errorAt resultErrorRate k) (seq 0 n)).

(** The delta of the hidden neuron [b]; the sigmoid is applied to the stored
    activation. *)
Definition hiddenDelta (h : heap) (b : ptr_neuron_t) (n : nat)
    (resultErrorRate : array1) : R :=
  let s := applySigmoidFunction (value h b) in
  backpropagatedError h b n resultErrorRate * s * (1 - s).

End Demo.

(** ** Well-formedness of a network and the shape of results *)

(** [returns r P Q]: the run [r] ends normally in a state satisfying [P], or
    stops on a fault satisfying [Q]. *)
Definition returns {A : Type} (r : result A) (P : A → Prop) (Q : fault → Prop)
  : Prop :=
  match r with
  | Ok a => P a
  | Fault f => Q f
  end.

Definition no_fault : fault → Prop := λ _, False.

(** The neuron at [p] exists and its weight row has at least [fanout]
    entries. *)
Definition neuron_ok (h : heap) (fanout : nat) (p : ptr_neuron_t) : Prop :=
  match h !! p with
  | Some n => fanout ≤ length (m_weights n)
  | None => False
  end.

Definition layer_ok (h : heap) (fanout : nat) (v : layer) : Prop :=
  Forall (neuron_ok h fanout) v.

#[global] Instance neuron_ok_dec h fanout p : Decision (neuron_ok h fanout p).
Proof. unfold neuron_ok. destruct (h !! p); apply _. Defined.

#[global] Instance layer_ok_dec h fanout v : Decision (layer_ok h fanout v).
Proof. unfold layer_ok. apply _. Defined.

(** A small network for examples: one input neuron (address 0), one hidden
    neuron (address 1) and one output neuron (address 2). *)
Definition tiny_heap (x w1 y w2 z : R) : heap :=
  <[0 := mkNeuron x [w1]]> (<[1 := mkNeuron y [w2]]> (<[2 := mkNeuron z []]> ∅)).

(** Four output neurons (addresses 0 to 3) with the activations
    0.5, 0.9, 0.9 and 0.1. *)
Definition example_outputs : heap :=
  <[0 := mkNeuron 0.5 []]> (<[1 := mkNeuron 0.9 []]>
    (<[2 := mkNeuron 0.9 []]> (<[3 := mkNeuron 0.1 []]> ∅))).

(** A network without hidden neurons and with eleven output neurons
    (addresses 0 to 10), and an error vector of eleven written cells. *)
Definition wide_heap : heap :=
  list_to_map ((λ p, (p, mkNeuron 0 [])) <$> seq 0 11).

Definition wide_error : array1 :=
  mkArray1 11 (list_to_map ((λ k, (k, 0%R)) <$> seq 0 11)).

(** An error vector of [numNeuronsOutputLayer] cells whose first cell holds
    [e]. *)
Definition tiny_error (e : R) : array1 :=
  mkArray1 numNeuronsOutputLayer (<[0 := e]> ∅).

(** Two heaps with the same neurons, the same activations and weight rows of
    the same lengths. *)
Definition same_values (h h' : heap) : Prop :=
  ∀ p, m_value <$> (h' !! p) = m_value <$> (h !! p).

Definition same_shape (h h' : heap) : Prop :=
  ∀ p, (length ∘ m_weights) <$> (h' !! p) = (length ∘ m_weights) <$> (h !! p).

Definition same_weights (h h' : heap) : Prop :=
  ∀ p, m_weights <$> (h' !! p) = m_weights <$> (h !! p).

(** The faults that are accesses outside a scratch buffer of
    [backPropagate]. *)
Definition scratch_oob (f : fault) : Prop :=
  match f with
  | OutOfBounds BufDeltaWjk | OutOfBounds BufDeltaWik | OutOfBounds BufDeltaJ =>
      True
  | _ => False
  end.

(** The first [n] cells of the error vector exist and were written. *)
Definition error_ok (resultErrorRate : array1) (n : nat) : Prop :=
  Forall (λ k, k < a1_size resultErrorRate
               ∧ is_Some (a1_cells resultErrorRate !! k)) (seq 0 n).

#[global] Instance error_ok_dec e n : Decision (error_ok e n).
Proof. unfold error_ok. apply _. Defined.

(** The scratch buffers have the sizes given at their allocation. *)
Definition scratch_dims (sc : scratch) : Prop :=
  a2_rows (DeltaWjk sc) = numNeuronsHiddenLayer ∧
  a2_cols (DeltaWjk sc) = numNeuronsOutputLayer ∧
  a2_rows (DeltaWik sc) = numNeuronsInputLayer ∧
  a2_cols (DeltaWik sc) = numNeuronsHiddenLayer ∧
  a1_size (DeltaJ sc) = numNeuronsHiddenLayer.

(** The inputs of [backPropagate] fit its scratch buffers. *)
Definition fits (vpLayerA vpLayerB vpLayerC : layer) : Prop :=
  length vpLayerA ≤ numNeuronsInputLayer ∧
  length vpLayerB ≤ numNeuronsHiddenLayer ∧
  length vpLayerC ≤ numNeuronsOutputLayer.

(** *** Loop invariants of [dotProd] and [backPropagate] *)

Section Invariants.
Local Open Scope R_scope.

(** The state of [dotProd] after [i] downstream neurons. *)
Definition dotProd_inv (h : heap) (vpLayerA vpLayerB : layer) (i : nat)
    (hi : heap) : Prop :=
  (∀ p, p ∉ take i vpLayerB → hi !! p = h !! p) ∧
  (∀ j b, (j < i)%nat → vpLayerB !! j = Some b →
     value hi b = applySigmoidFunction (weightedInput h vpLayerA j)) ∧
  same_weights h hi.

(** Inner loop of the first loop, for the hidden neuron [b] of index [i],
    after [j] output neurons. *)
Definition gradients_inner (h : heap) (resultErrorRate : array1)
    (sc : scratch) (i : nat) (b : ptr_neuron_t) (j : nat) (st : R * array2)
  : Prop :=
  a2_rows (snd st) = numNeuronsHiddenLayer ∧
  a2_cols (snd st) = numNeuronsOutputLayer ∧
  ((0 < j)%nat →
     (i < numNeuronsHiddenLayer)%nat ∧ (j ≤ numNeuronsOutputLayer)%nat) ∧
  fst st = backpropagatedError h b j resultErrorRate ∧
  (∀ k, (k < j)%nat →
     a2_cells (snd st) !! (i, k)
     = Some (learningRate * errorAt resultErrorRate k * value h b)) ∧
  (∀ i' k, i' ≠ i →
     a2_cells (snd st) !! (i', k) = a2_cells (DeltaWjk sc) !! (i', k)).

(** First loop, after [i] hidden neurons. *)
Definition gradients_post (h : heap) (vpLayerB vpLayerC : layer)
    (resultErrorRate : array1) (sc0 : scratch) (i : nat) (sc : scratch)
  : Prop :=
  scratch_dims sc ∧
  DeltaWik sc = DeltaWik sc0 ∧
  ((0 < i)%nat →
     (i ≤ numNeuronsHiddenLayer)%nat
     ∧ (length vpLayerC ≤ numNeuronsOutputLayer)%nat) ∧
  (∀ i' b, (i' < i)%nat → vpLayerB !! i' = Some b →
     a1_cells (DeltaJ sc) !! i'
     = Some (hiddenDelta h b (length vpLayerC) resultErrorRate)) ∧
  (∀ i' b k, (i' < i)%nat → vpLayerB !! i' = Some b →
     (k < length vpLayerC)%nat →
     a2_cells (DeltaWjk sc) !! (i', k)
     = Some (learningRate * errorAt resultErrorRate k * value h b)).

(** The weight row of the neuron [p] after [j] steps of an update loop that
    adds [d k] to the weight of index [k]; [h0] is the heap before the loop. *)
Definition row_updated (h0 : heap) (p : ptr_neuron_t) (d : nat → R) (j : nat)
    (h : heap) : Prop :=
  same_values h0 h ∧ same_shape h0 h ∧
  (∀ q, q ≠ p → h !! q = h0 !! q) ∧
  (∀ k, weight h p k
        = if decide (k < j)%nat then weight h0 p k + d k else weight h0 p k).

(** The same for the first [i] neurons of a layer, each row over [m]
    weights. *)
Definition rows_updated (h0 : heap) (v : layer) (m : nat)
    (d : ptr_neuron_t → nat → R) (i : nat) (h : heap) : Prop :=
  same_values h0 h ∧ same_shape h0 h ∧
  (∀ p, p ∉ take i v → h !! p = h0 !! p) ∧
  (∀ i' p k, (i' < i)%nat → v !! i' = Some p →
     weight h p k
     = if decide (k < m)%nat then weight h0 p k + d p k else weight h0 p k).

(** The cell of [DeltaJ] for the hidden neuron of index [j]. *)
Definition deltaAt (h : heap) (vpLayerB vpLayerC : layer)
    (resultErrorRate : array1) (j : nat) : R :=
  match vpLayerB !! j with
  | Some b => hiddenDelta h b (length vpLayerC) resultErrorRate
  | None => 0
  end.

(** The increments of the two weight matrices. *)
Definition inputIncrement (h : heap) (vpLayerB vpLayerC : layer)
    (resultErrorRate : array1) (a : ptr_neuron_t) (j : nat) : R :=
  learningRate * deltaAt h vpLayerB vpLayerC resultErrorRate j * value h a.

Definition hiddenIncrement (h : heap) (resultErrorRate : array1)
    (b : ptr_neuron_t) (k : nat) : R :=
  learningRate * errorAt resultErrorRate k * value h b.

(** Second loop, after [i] input neurons, and its inner loop for the input
    neuron [a] after [j] hidden neurons; [st0] is the state before the
    loop. *)
Definition updateInput_inner (st0 : heap * scratch) (i : nat)
    (a : ptr_neuron_t) (d : nat → R) (j : nat) (st : heap * scratch) : Prop :=
  DeltaJ (snd st) = DeltaJ (snd st0) ∧
  DeltaWjk (snd st) = DeltaWjk (snd st0) ∧
  a2_rows (DeltaWik (snd st)) = numNeuronsInputLayer ∧
  a2_cols (DeltaWik (snd st)) = numNeuronsHiddenLayer ∧
  ((0 < j)%nat → (i < numNeuronsInputLayer)%nat) ∧
  row_updated (fst st0) a d j (fst st).

Definition updateInput_post (st0 : heap * scratch) (vpLayerA vpLayerB : layer)
    (d : ptr_neuron_t → nat → R) (i : nat) (st : heap * scratch) : Prop :=
  DeltaJ (snd st) = DeltaJ (snd st0) ∧
  DeltaWjk (snd st) = DeltaWjk (snd st0) ∧
  a2_rows (DeltaWik (snd st)) = numNeuronsInputLayer ∧
  a2_cols (DeltaWik (snd st)) = numNeuronsHiddenLayer ∧
  ((0 < i)%nat → (0 < length vpLayerB)%nat → (i ≤ numNeuronsInputLayer)%nat) ∧
  rows_updated (fst st0) vpLayerA (length vpLayerB) d i (fst st).

(** The precondition of [backPropagate]: the input and hidden neurons are
    distinct valid objects, their weight rows reach the next layer, and the
    error vector has a written cell for every output neuron. *)
Definition network_ok (h : heap) (vpLayerA vpLayerB vpLayerC : layer)
    (resultErrorRate : array1) : Prop :=
  layer_ok h (length vpLayerB) vpLayerA ∧
  layer_ok h (length vpLayerC) vpLayerB ∧
  NoDup (vpLayerA ++ vpLayerB) ∧
  error_ok resultErrorRate (length vpLayerC).

(** What one normal run of [backPropagate] does to the heap. *)
Definition backPropagate_post (h : heap) (vpLayerA vpLayerB vpLayerC : layer)
    (resultErrorRate : array1) (h' : heap) : Prop :=
  same_values h h' ∧ same_shape h h' ∧
  (∀ p, p ∉ vpLayerA ++ vpLayerB → h' !! p = h !! p) ∧
  (∀ i a j, vpLayerA !! i = Some a →
     weight h' a j
     = if decide (j < length vpLayerB)%nat
       then weight h a j
            + inputIncrement h vpLayerB vpLayerC resultErrorRate a j
       else weight h a j) ∧
  (∀ i b k, vpLayerB !! i = Some b →
     weight h' b k
     = if decide (k < length vpLayerC)%nat
       then weight h b k + hiddenIncrement h resultErrorRate b k
       else weight h b k).

End Invariants.

#[global] Instance network_ok_dec h A B C e : Decision (network_ok h A B C e).
Proof. unfold network_ok. apply _. Defined.

#[global] Instance fits_dec A B C : Decision (fits A B C).
Proof. unfold fits. apply _. Defined.

(** ** The sigmoid function in IEEE-754 arithmetic

    [applySigmoidFunction] again, this time on the formats of the C++ types:
    [float] is binary32, [double] is binary64, and the operations are those
    of [SpecFloat] with rounding to nearest even. *)

Module IEEE.
Local Open Scope Z_scope.

Definition double_of_Z (z : Z) : spec_float :=
  binary_normalize 53 1024 z 0 false.

Definition float_of_Z (z : Z) : spec_float :=
  binary_normalize 24 128 z 0 false.

(** The conversions between the two formats; [float] to [double] is exact. *)
Definition to_float (x : spec_float) : spec_float :=
  match x with
  | S754_finite s m e => binary_normalize 24 128 (cond_Zopp s (Zpos m)) e s
  | _ => x
  end.

Definition to_double (x : spec_float) : spec_float :=
  match x with
  | S754_finite s m e => binary_normalize 53 1024 (cond_Zopp s (Zpos m)) e s
  | _ => x
  end.

Definition is_finite (x : spec_float) : bool :=
  match x with
  | S754_zero _ | S754_finite _ _ _ => true
  | _ => false
  end.

(** A finite number of the format [float], and one of the format
    [double]: a zero, or a mantissa and an exponent that the format has. *)
Definition binary32 (x : spec_float) : bool :=
  valid_binary 24 128 x && is_finite x.

Definition binary64 (x : spec_float) : bool :=
  valid_binary 53 1024 x && is_finite x.

(** A finite [float] between 0 and 1, both included. *)
Definition unit_float (x : spec_float) : bool :=
  binary32 x && SFleb (float_of_Z 0) x && SFleb x (float_of_Z 1).

(** A zero, a positive number or +infinity. *)
Definition not_negative (x : spec_float) : bool :=
  match x with
  | S754_zero _ => true
  | S754_finite s _ _ | S754_infinity s => negb s
  | S754_nan => false
  end.

(** What the rounding of [SpecFloat] returns for the sign [sx], the
    mantissa [m] and the exponent [e] it has arrived at (the last step of
    [binary_round_aux]). *)
Definition round_result (prec emax : Z) (sx : bool) (m e : Z) : spec_float :=
  match m with
  | Z0 => S754_zero sx
  | Zpos m =>
      if e <=? emax - prec then S754_finite sx m e else S754_infinity sx
  | Zneg _ => S754_nan
  end.

(** The argument is so large that the mathematical value of [exp] exceeds
    every finite [double] (the largest one is below [exp 710]). *)
Definition exp_overflows (x : spec_float) : bool :=
  SFleb (double_of_Z 710) x.

(** [exp] of the C library, which is not part of the sources.  Only the
    results that ISO C fixes are modelled: [exp(±0)] is 1, [exp(-inf)] is +0,
    [exp(+inf)] is +inf (Annex F), and a result that overflows is [HUGE_VAL],
    that is +inf (7.12.1).  Elsewhere the result depends on the accuracy of
    the library and the model gives [None]. *)
Definition c_exp (x : spec_float) : option spec_float :=
  match x with
  | S754_nan => Some S754_nan
  | S754_zero _ => Some (double_of_Z 1)
  | S754_infinity true => Some (S754_zero false)
  | S754_infinity false => Some (S754_infinity false)
  | S754_finite _ _ _ =>
      if exp_overflows x then Some (S754_infinity false) else None
  end.

(** [float sigmoid = 1 / (1 + exp(-val))]: the negation is a [float]
    operation, [exp] takes and returns a [double], the sum and the quotient
    are [double] operations and the result is rounded to [float].  (With the
    [float] overload of [exp] the sum and the quotient would be [float]
    operations; on the arguments where [c_exp] is defined the result is the
    same.) *)
Definition applySigmoidFunction (val : spec_float) : option spec_float :=
  match c_exp (to_double (SFopp val)) with
  | Some e =>
      Some (to_float (SFdiv 53 1024 (double_of_Z 1)
                        (SFadd 53 1024 (double_of_Z 1) e)))
  | None => None
  end.

End IEEE.

(** ** The network in the arithmetic of the code

    The embedding of [Demo ICR.cpp] once more, with the numbers the C++
    program computes: a [float] is a binary32 value and a [double] a binary64
    value of [SpecFloat], every operation is rounded to nearest even in the
    format C++ gives it (an operation on two [float]s is a [float] operation,
    an operation with a [double] operand is a [double] operation on the
    operands converted exactly, and storing into a [float] rounds), without
    contraction of a product and a sum into one operation.  Loops, indices,
    buffers and faults are those of the embedding above. *)

Module FP.

Definition fadd : spec_float → spec_float → spec_float := SFadd 24 128.
Definition fsub : spec_float → spec_float → spec_float := SFsub 24 128.
Definition fmul : spec_float → spec_float → spec_float := SFmul 24 128.
Definition fdiv : spec_float → spec_float → spec_float := SFdiv 24 128.
Definition dadd : spec_float → spec_float → spec_float := SFadd 53 1024.
Definition dsub : spec_float → spec_float → spec_float := SFsub 53 1024.
Definition dmul : spec_float → spec_float → spec_float := SFmul 53 1024.
Definition ddiv : spec_float → spec_float → spec_float := SFdiv 53 1024.

(** Modelled from the spec: the class [CNeuron] of [DNN.h], which is not part
    of the sources.  Section 4.2: a neuron holds one activation value and a
    row of outgoing weights whose length is fixed at construction.  Both are
    taken to be [float]s, the type of the variables of [Demo ICR.cpp] that
    receive them ([float oldWeight = ...->getWeight(j)]) and of the values it
    stores ([float value], [float val]). *)
Record CNeuron := mkNeuron {
  m_value : spec_float;
  m_weights : list spec_float
}.

Abbreviation heap := (gmap nat CNeuron).

(** Modelled from the spec: the methods of [CNeuron] ([DNN.h] is not part of
    the sources), section 4.2, as in the embedding above. *)
Definition deref (h : heap) (p : ptr_neuron_t) : result CNeuron :=
  match h !! p with
  | Some n => Ok n
  | None => Fault InvalidPointer
  end.

Definition getNodeValue (h : heap) (p : ptr_neuron_t) : result spec_float :=
  let* n := deref h p in Ok (m_value n).

Definition setNodeValue (p : ptr_neuron_t) (v : spec_float) (h : heap)
  : result heap :=
  let* n := deref h p in Ok (<[p := mkNeuron v (m_weights n)]> h).

Definition getWeight (h : heap) (p : ptr_neuron_t) (j : nat)
  : result spec_float :=
  let* n := deref h p in
  match m_weights n !! j with
  | Some w => Ok w
  | None => Fault WeightIndex
  end.

Definition setWeight (p : ptr_neuron_t) (j : nat) (w : spec_float) (h : heap)
  : result heap :=
  let* n := deref h p in
  if decide (j < length (m_weights n))
  then Ok (<[p := mkNeuron (m_value n) (<[j := w]> (m_weights n))]> h)
  else Fault WeightIndex.

(** Raw arrays of [float]s or [double]s: a size and the cells written so
    far. *)
Record array1 := mkArray1 {
  a1_size : nat;
  a1_cells : gmap nat spec_float
}.

Record array2 := mkArray2 {
  a2_rows : nat;
  a2_cols : nat;
  a2_cells : gmap (nat * nat) spec_float
}.

Definition new1 (n : nat) : array1 := mkArray1 n ∅.
Definition new2 (r c : nat) : array2 := mkArray2 r c ∅.

Definition read1 (b : buffer_id) (a : array1) (i : nat) : result spec_float :=
  if decide (i < a1_size a)
  then match a1_cells a !! i with
       | Some x => Ok x
       | None => Fault (Uninitialised b)
       end
  else Fault (OutOfBounds b).

Definition write1 (b : buffer_id) (a : array1) (i : nat) (x : spec_float)
  : result array1 :=
  if decide (i < a1_size a)
  then Ok (mkArray1 (a1_size a) (<[i := x]> (a1_cells a)))
  else Fault (OutOfBounds b).

Definition read2 (b : buffer_id) (a : array2) (i j : nat)
  : result spec_float :=
  if decide (i < a2_rows a ∧ j < a2_cols a)
  then match a2_cells a !! (i, j) with
       | Some x => Ok x
       | None => Fault (Uninitialised b)
       end
  else Fault (OutOfBounds b).

Definition write2 (b : buffer_id) (a : array2) (i j : nat) (x : spec_float)
  : result array2 :=
  if decide (i < a2_rows a ∧ j < a2_cols a)
  then Ok (mkArray2 (a2_rows a) (a2_cols a) (<[(i, j) := x]> (a2_cells a)))
  else Fault (OutOfBounds b).

Record scratch := mkScratch {
  DeltaWjk : array2;
  DeltaWik : array2;
  DeltaJ : array1
}.

(** [float learningRate = 0.1;]: the [double] nearest to 1/10, rounded to
    [float]. *)
Definition learningRate : spec_float :=
  IEEE.to_float (ddiv (IEEE.double_of_Z 1) (IEEE.double_of_Z 10)).

Section Demo.

(** [exp] of the C library on [double]s, which is not part of the sources:
    a parameter. *)
Variable exp : spec_float → spec_float.

(** Lines 19-23, [float sigmoid = 1 / (1 + exp(-val))], read as in
    [IEEE.applySigmoidFunction]: the negation is a [float] operation, [exp]
    is the function of the C library on [double]s (the one that the name
    denotes in the global namespace), so the sum and the quotient are
    [double] operations, and the result is rounded to [float]. *)
Definition applySigmoidFunction (val : spec_float) : spec_float :=
  let sigmoid :=
    IEEE.to_float
      (ddiv (IEEE.double_of_Z 1)
         (dadd (IEEE.double_of_Z 1) (exp (IEEE.to_double (SFopp val))))) in
  sigmoid.

(** Lines 179-188.  [float value = 0; value += a->getWeight(i) *
    a->getNodeValue();]: a [float] product and a [float] sum per upstream
    neuron. *)
Definition dotProd (vpLayerA vpLayerB : layer) (h : heap) : result heap :=
  for_loop (length vpLayerB) (fun i h =>
    let* value := for_each vpLayerA (fun a value =>
                    let* w := getWeight h a i in
                    let* x := getNodeValue h a in
                    Ok (fadd value (fmul w x))) (IEEE.float_of_Z 0) in
    let* b := at_index vpLayerB i in
    setNodeValue b (applySigmoidFunction value) h) h.

(** Lines 205-213.  [nodeVal] and [resultErrorRate] are [double]s, so the
    products of lines 208 and 209 and the products of line 212 are [double]
    operations; [1 - sigmoid] is a [float] operation; [DeltaWjk] and
    [DeltaJ] hold [float]s. *)
Definition bp_gradients (h : heap) (vpLayerB vpLayerC : layer)
    (resultErrorRate : array1) (sc : scratch) : result scratch :=
  for_loop (length vpLayerB) (fun i sc =>
    let* b := at_index vpLayerB i in
    let* acc := for_loop (length vpLayerC) (fun j '(nodeVal, dWjk) =>
                  let* w := getWeight h b j in
                  let* e := read1 BufResultErrorRate resultErrorRate j in
                  let nodeVal := dadd nodeVal (dmul (IEEE.to_double w) e) in
                  let* x := getNodeValue h b in
                  let* dWjk :=
                    write2 BufDeltaWjk dWjk i j
                      (IEEE.to_float
                         (dmul (dmul (IEEE.to_double learningRate) e)
                               (IEEE.to_double x))) in
                  Ok (nodeVal, dWjk)) (IEEE.double_of_Z 0, DeltaWjk sc) in
    let '(nodeVal, dWjk) := acc in
    let* x := getNodeValue h b in
    let sigmoid := applySigmoidFunction x in
    let* dJ := write1 BufDeltaJ (DeltaJ sc) i
                 (IEEE.to_float
                    (dmul (dmul nodeVal (IEEE.to_double sigmoid))
                          (IEEE.to_double
                             (fsub (IEEE.float_of_Z 1) sigmoid)))) in
    Ok (mkScratch dWjk (DeltaWik sc) dJ)) sc.

(** Lines 215-221: [float] operations only. *)
Definition bp_updateInput (vpLayerA vpLayerB : layer) (st : heap * scratch)
  : result (heap * scratch) :=
  for_loop (length vpLayerA) (fun i st =>
    for_loop (length vpLayerB) (fun j '(h, sc) =>
      let* a := at_index vpLayerA i in
      let* dj := read1 BufDeltaJ (DeltaJ sc) j in
      let* x := getNodeValue h a in
      let* dWik := write2 BufDeltaWik (DeltaWik sc) i j
                   (fmul (fmul learningRate dj) x) in
      let* oldWeight := getWeight h a j in
      let* d := read2 BufDeltaWik dWik i j in
      let* h := setWeight a j (fadd oldWeight d) h in
      Ok (h, mkScratch (DeltaWjk sc) dWik (DeltaJ sc))) st) st.

(** Lines 223-228. *)
Definition bp_updateHidden (vpLayerB vpLayerC : layer) (sc : scratch)
    (h : heap) : result heap :=
  for_loop (length vpLayerB) (fun i h =>
    for_loop (length vpLayerC) (fun j h =>
      let* b := at_index vpLayerB i in
      let* oldWeight := getWeight h b j in
      let* d := read2 BufDeltaWjk (DeltaWjk sc) i j in
      setWeight b j (fadd oldWeight d) h) h) h.

Definition new_scratch : scratch :=
  mkScratch (new2 numNeuronsHiddenLayer numNeuronsOutputLayer)
            (new2 numNeuronsInputLayer numNeuronsHiddenLayer)
            (new1 numNeuronsHiddenLayer).

Definition backPropagate (vpLayerA vpLayerB vpLayerC : layer)
    (resultErrorRate : array1) (h : heap) : result heap :=
  let* sc := bp_gradients h vpLayerB vpLayerC resultErrorRate new_scratch in
  let* st := bp_updateInput vpLayerA vpLayerB (h, sc) in
  bp_updateHidden vpLayerB vpLayerC (snd st) (fst st).

(** Lines 115-118, [float val = (float)trainDataBin[k][i]/255;]: the pixel
    is converted to [float] and divided by the [float] 255. *)
Definition setInputs (vpInputLayer : layer) (pixels : list Z) (h : heap)
  : result heap :=
  for_loop (length vpInputLayer) (fun i h =>
    let* px := match pixels !! i with
               | Some px => Ok px
               | None => Fault (OutOfBounds BufPixels)
               end in
    let val := fdiv (IEEE.float_of_Z px) (IEEE.float_of_Z 255) in
    let* a := at_index vpInputLayer i in
    setNodeValue a val h) h.

(** Lines 123-127: [resultErrorRate] is an array of [double]s, and the
    subtraction of line 126 a [double] operation. *)
Definition computeResultErrorRate (vpOutputLayer : layer) (digit : nat)
    (h : heap) : result array1 :=
  for_loop (length vpOutputLayer) (fun i resultErrorRate =>
    let* resultErrorRate :=
      write1 BufResultErrorRate resultErrorRate i
             (IEEE.double_of_Z (if decide (digit = i) then 1 else 0)) in
    let* c := at_index vpOutputLayer i in
    let* x := getNodeValue h c in
    let* e := read1 BufResultErrorRate resultErrorRate i in
    write1 BufResultErrorRate resultErrorRate i (dsub e (IEEE.to_double x)))
    (new1 numNeuronsOutputLayer).

Definition forwardPass (vpInputLayer vpHiddenLayer vpOutputLayer : layer)
    (pixels : list Z) (h : heap) : result heap :=
  let* h := setInputs vpInputLayer pixels h in
  let* h := dotProd vpInputLayer vpHiddenLayer h in
  dotProd vpHiddenLayer vpOutputLayer h.

(** Lines 114-131: one iteration of the training loop. *)
Definition trainSample (vpInputLayer vpHiddenLayer vpOutputLayer : layer)
    (pixels : list Z) (digit : nat) (h : heap) : result heap :=
  let* h := forwardPass vpInputLayer vpHiddenLayer vpOutputLayer pixels h in
  let* resultErrorRate := computeResultErrorRate vpOutputLayer digit h in
  backPropagate vpInputLayer vpHiddenLayer vpOutputLayer resultErrorRate h.

End Demo.

(** *** Total readers used in the statements *)

Definition value (h : heap) (p : ptr_neuron_t) : spec_float :=
  match h !! p with
  | Some n => m_value n
  | None => S754_zero false
  end.

Definition weight (h : heap) (p : ptr_neuron_t) (j : nat) : spec_float :=
  match h !! p with
  | Some n => nth j (m_weights n) (S754_zero false)
  | None => S754_zero false
  end.

(** The weighted input of the downstream neuron of index [j] as the code
    accumulates it: from 0, one rounded product and one rounded sum per
    upstream neuron, in the order of the layer. *)
Definition weightedInput (h : heap) (upstream : layer) (j : nat)
  : spec_float :=
  foldl (λ acc a, fadd acc (fmul (weight h a j) (value h a)))
        (IEEE.float_of_Z 0) upstream.

Definition errorAt (resultErrorRate : array1) (k : nat) : spec_float :=
  default (S754_zero false) (a1_cells resultErrorRate !! k).

(** The output error pulled back to the hidden neuron [b], accumulated in a
    [double] over the output neurons [0 .. n-1] in this order. *)
Definition backpropagatedError (h : heap) (b : ptr_neuron_t) (n : nat)
    (resultErrorRate : array1) : spec_float :=
  foldl (λ acc k, dadd acc (dmul (IEEE.to_double (weight h b k))
                                 (errorAt resultErrorRate k)))
        (IEEE.double_of_Z 0) (seq 0 n).

(** The delta of the hidden neuron [b] as line 212 computes and stores
    it. *)
Definition hiddenDelta (exp : spec_float → spec_float) (h : heap)
    (b : ptr_neuron_t) (n : nat) (resultErrorRate : array1) : spec_float :=
  let s := applySigmoidFunction exp (value h b) in
  IEEE.to_float
    (dmul (dmul (backpropagatedError h b n resultErrorRate)
                (IEEE.to_double s))
          (IEEE.to_double (fsub (IEEE.float_of_Z 1) s))).

(** The increment of a hidden-to-output weight as line 209 computes and
    stores it. *)
Definition hiddenIncrement (h : heap) (resultErrorRate : array1)
    (b : ptr_neuron_t) (k : nat) : spec_float :=
  IEEE.to_float
    (dmul (dmul (IEEE.to_double learningRate) (errorAt resultErrorRate k))
          (IEEE.to_double (value h b))).

(** The cell of [DeltaJ] for the hidden neuron of index [j], and the
    increment of an input-to-hidden weight as line 217 computes it. *)
Definition deltaAt (exp : spec_float → spec_float) (h : heap)
    (vpLayerB vpLayerC : layer) (resultErrorRate : array1) (j : nat)
  : spec_float :=
  match vpLayerB !! j with
  | Some b => hiddenDelta exp h b (length vpLayerC) resultErrorRate
  | None => S754_zero false
  end.

Definition inputIncrement (exp : spec_float → spec_float) (h : heap)
    (vpLayerB vpLayerC : layer) (resultErrorRate : array1)
    (a : ptr_neuron_t) (j : nat) : spec_float :=
  fmul (fmul learningRate (deltaAt exp h vpLayerB vpLayerC resultErrorRate j))
       (value h a).

(** *** Well-formedness *)

Definition neuron_ok (h : heap) (fanout : nat) (p : ptr_neuron_t) : Prop :=
  match h !! p with
  | Some n => fanout ≤ length (m_weights n)
  | None => False
  end.

Definition layer_ok (h : heap) (fanout : nat) (v : layer) : Prop :=
  Forall (neuron_ok h fanout) v.

#[global] Instance neuron_ok_dec h fanout p : Decision (neuron_ok h fanout p).
Proof. unfold neuron_ok. destruct (h !! p); apply _. Defined.

#[global] Instance layer_ok_dec h fanout v : Decision (layer_ok h fanout v).
Proof. unfold layer_ok. apply _. Defined.

Definition same_values (h h' : heap) : Prop :=
  ∀ p, m_value <$> (h' !! p) = m_value <$> (h !! p).

Definition same_shape (h h' : heap) : Prop :=
  ∀ p, (length ∘ m_weights) <$> (h' !! p) = (length ∘ m_weights) <$> (h !! p).

Definition same_weights (h h' : heap) : Prop :=
  ∀ p, m_weights <$> (h' !! p) = m_weights <$> (h !! p).

(** The first [n] cells of the error vector exist and were written. *)
Definition error_ok (resultErrorRate : array1) (n : nat) : Prop :=
  Forall (λ k, k < a1_size resultErrorRate
               ∧ is_Some (a1_cells resultErrorRate !! k)) (seq 0 n).

#[global] Instance error_ok_dec e n : Decision (error_ok e n).
Proof. unfold error_ok. apply _. Defined.

Definition scratch_dims (sc : scratch) : Prop :=
  a2_rows (DeltaWjk sc) = numNeuronsHiddenLayer ∧
  a2_cols (DeltaWjk sc) = numNeuronsOutputLayer ∧
  a2_rows (DeltaWik sc) = numNeuronsInputLayer ∧
  a2_cols (DeltaWik sc) = numNeuronsHiddenLayer ∧
  a1_size (DeltaJ sc) = numNeuronsHiddenLayer.

(** The precondition of [backPropagate], as above. *)
Definition network_ok (h : heap) (vpLayerA vpLayerB vpLayerC : layer)
    (resultErrorRate : array1) : Prop :=
  layer_ok h (length vpLayerB) vpLayerA ∧
  layer_ok h (length vpLayerC) vpLayerB ∧
  NoDup (vpLayerA ++ vpLayerB) ∧
  error_ok resultErrorRate (length vpLayerC).

#[global] Instance network_ok_dec h A B C e : Decision (network_ok h A B C e).
Proof. unfold network_ok. apply _. Defined.

(** *** What the loops of [backPropagate] leave *)

(** The weight row of the neuron [p] after [j] steps of an update loop that
    adds [d k] to the weight of index [k] in a [float] sum; [h0] is the heap
    before the loop. *)
Definition row_updated (h0 : heap) (p : ptr_neuron_t) (d : nat → spec_float)
    (j : nat) (h : heap) : Prop :=
  same_values h0 h ∧ same_shape h0 h ∧
  (∀ q, q ≠ p → h !! q = h0 !! q) ∧
  (∀ k, weight h p k
        = if decide (k < j) then fadd (weight h0 p k) (d k)
          else weight h0 p k).

(** The same for the first [i] neurons of a layer, each row over [m]
    weights. *)
Definition rows_updated (h0 : heap) (v : layer) (m : nat)
    (d : ptr_neuron_t → nat → spec_float) (i : nat) (h : heap) : Prop :=
  same_values h0 h ∧ same_shape h0 h ∧
  (∀ p, p ∉ take i v → h !! p = h0 !! p) ∧
  (∀ i' p k, i' < i → v !! i' = Some p →
     weight h p k
     = if decide (k < m) then fadd (weight h0 p k) (d p k)
       else weight h0 p k).

(** The first loop, after [i] hidden neurons. *)
Definition gradients_post (exp : spec_float → spec_float) (h : heap)
    (vpLayerB vpLayerC : layer) (resultErrorRate : array1) (sc0 : scratch)
    (i : nat) (sc : scratch) : Prop :=
  scratch_dims sc ∧
  DeltaWik sc = DeltaWik sc0 ∧
  (∀ i' b, i' < i → vpLayerB !! i' = Some b →
     a1_cells (DeltaJ sc) !! i'
     = Some (hiddenDelta exp h b (length vpLayerC) resultErrorRate)) ∧
  (∀ i' b k, i' < i → vpLayerB !! i' = Some b → k < length vpLayerC →
     a2_cells (DeltaWjk sc) !! (i', k)
     = Some (hiddenIncrement h resultErrorRate b k)).

(** What one normal run of [backPropagate] does to the heap. *)
Definition backPropagate_post (exp : spec_float → spec_float) (h : heap)
    (vpLayerA vpLayerB vpLayerC : layer) (resultErrorRate : array1)
    (h' : heap) : Prop :=
  same_values h h' ∧ same_shape h h' ∧
  (∀ p, p ∉ vpLayerA ++ vpLayerB → h' !! p = h !! p) ∧
  (∀ i a j, vpLayerA !! i = Some a →
     weight h' a j
     = if decide (j < length vpLayerB)
       then fadd (weight h a j)
                 (inputIncrement exp h vpLayerB vpLayerC resultErrorRate a j)
       else weight h a j) ∧
  (∀ i b k, vpLayerB !! i = Some b →
     weight h' b k
     = if decide (k < length vpLayerC)
       then fadd (weight h b k) (hiddenIncrement h resultErrorRate b k)
       else weight h b k).

(** *** The numbers behind the formats *)

(** The real number that a finite value denotes (0 for the others). *)
Definition SF2R (x : spec_float) : R :=
  match x with
  | S754_finite s m e =>
      ((if s then - IZR (Zpos m) else IZR (Zpos m))
       * (if (0 <=? e)%Z then IZR (2 ^ e) else / IZR (2 ^ (- e))))%R
  | _ => 0%R
  end.

(** [exp] returns what ISO C fixes (see [IEEE.c_exp]). *)
Definition iso_exp (exp : spec_float → spec_float) : Prop :=
  ∀ x y, IEEE.c_exp x = Some y → exp x = y.

(** An [exp] for examples: the results that ISO C fixes, and NaN where the
    result is left to the library. *)
Definition exp_example (x : spec_float) : spec_float :=
  default S754_nan (IEEE.c_exp x).

(** *** Networks for examples *)

(** One input neuron (address 0), one hidden neuron (address 1) and one
    output neuron (address 2). *)
Definition tiny_heap (x w1 y w2 z : spec_float) : heap :=
  <[0 := mkNeuron x [w1]]> (<[1 := mkNeuron y [w2]]> (<[2 := mkNeuron z []]> ∅)).

(** Three upstream neurons (addresses 0 to 2) with the activation 1 and the
    weights 10^8, 1 and -10^8 to the one downstream neuron (address 3). *)
Definition cancel_heap : heap :=
  <[0 := mkNeuron (IEEE.float_of_Z 1) [IEEE.float_of_Z 100000000]]>
  (<[1 := mkNeuron (IEEE.float_of_Z 1) [IEEE.float_of_Z 1]]>
  (<[2 := mkNeuron (IEEE.float_of_Z 1) [IEEE.float_of_Z (-100000000)]]>
  (<[3 := mkNeuron (IEEE.float_of_Z 0) []]> ∅))).

(** An error vector of [numNeuronsOutputLayer] cells whose first cells hold
    the numbers of [l]. *)
Definition error_vector (l : list spec_float) : array1 :=
  mkArray1 numNeuronsOutputLayer (map_seq 0 l).

(** One hidden neuron (address 0) with the activation 0 and the weights
    2^60, 1 and -2^60 to three output neurons (addresses 1 to 3). *)
Definition delta_heap : heap :=
  <[0 := mkNeuron (IEEE.float_of_Z 0)
           [IEEE.float_of_Z (2 ^ 60); IEEE.float_of_Z 1;
            IEEE.float_of_Z (- 2 ^ 60)]]>
  (<[1 := mkNeuron (IEEE.float_of_Z 0) []]>
  (<[2 := mkNeuron (IEEE.float_of_Z 0) []]>
  (<[3 := mkNeuron (IEEE.float_of_Z 0) []]> ∅))).

(** The [float] 1/2. *)
Definition half : spec_float := fdiv (IEEE.float_of_Z 1) (IEEE.float_of_Z 2).

(** The small network with the input activation 1, the hidden activation
    1/2, the output activation 0 and the weights 2 and 3; the same with the
    hidden-to-output weight 2^24; and the error vector whose first cell
    holds 1. *)
Definition small_heap : heap :=
  tiny_heap (IEEE.float_of_Z 1) (IEEE.float_of_Z 2) half (IEEE.float_of_Z 3)
            (IEEE.float_of_Z 0).

Definition heavy_heap : heap :=
  tiny_heap (IEEE.float_of_Z 1) (IEEE.float_of_Z 2) half
            (IEEE.float_of_Z (2 ^ 24)) (IEEE.float_of_Z 0).

Definition small_error : array1 := error_vector [IEEE.double_of_Z 1].

(** The small network with the hidden activation 0. *)
Definition still_heap : heap :=
  tiny_heap (IEEE.float_of_Z 1) (IEEE.float_of_Z 2) (IEEE.float_of_Z 0)
            (IEEE.float_of_Z 3) (IEEE.float_of_Z 0).

(** The small network with the input-to-hidden weight 0 and the
    hidden-to-output weight -84: whatever the pixel, the hidden activation
    becomes [sigmoid(0)], that is 1/2, and the output activation
    [sigmoid(-42)]. *)
Definition faint_heap : heap :=
  tiny_heap (IEEE.float_of_Z 0) (IEEE.float_of_Z 0) (IEEE.float_of_Z 0)
            (IEEE.float_of_Z (-84)) (IEEE.float_of_Z 0).

(** The [double] nearest to e^42 = 1739274941520501047.39..., which is
    6794042740314457 * 2^8 = 1739274941520500992 (the next [double]s are
    256 away): the result of [exp(42.0)]. *)
Definition exp_42 : spec_float := S754_finite false 6794042740314457 8.

End FP.

(** ** [Random.h] *)

Module Random.
Section Generator.

(** [std::mt19937] and [std::uniform_int_distribution] belong to the C++
    standard library, not to the sources: the generator state, its
    construction from a seed and the distribution are parameters.
    [uniform_int_distribution a b g] is [distribution(generator)] for a
    distribution constructed with [(a, b)]: the number drawn and the next
    state of the generator. *)
Variable mt19937 : Type.
Variable mt19937_seed : Z → mt19937.
Variable uniform_int_distribution : Z → Z → mt19937 → Z * mt19937.

(** [random::u<T>(min, max)].  The generator is [static thread_local]: it is
    absent before the first call of the thread, which constructs it from
    [static_cast<unsigned int>(clock() + hash(thread id))]; [seed] is that
    sum. *)
Definition u (seed : Z) (min max : Z) (generator : option mt19937)
  : Z * option mt19937 :=
  let generator :=
    match generator with
    | Some g => g
    | None => mt19937_seed (seed mod 2 ^ 32)
    end in
  let distribution := uniform_int_distribution min max in
  let '(r, g) := distribution generator in
  (r, Some g).

End Generator.

(** A small generator for examples: a linear congruential state and a
    distribution by remainder. *)
Definition lcg_seed (s : Z) : Z := s.

Definition lcg_distribution (a b : Z) (g : Z) : Z * Z :=
  ((a + g mod (b - a + 1))%Z, ((1103515245 * g + 12345) mod 2 ^ 31)%Z).

Section RealGenerators.
Local Open Scope R_scope.

(** [std::uniform_real_distribution] and [std::normal_distribution] belong
    to the C++ standard library as well: [distribution(generator)] for a
    distribution constructed with the two parameters is the number drawn and
    the next state of the generator. *)
Variable mt19937 : Type.
Variable mt19937_seed : Z → mt19937.
Variable uniform_real_distribution : R → R → mt19937 → R * mt19937.
Variable normal_distribution : R → R → mt19937 → R * mt19937.

(** [random::U<T>(min, max)], with a [static thread_local] generator of its
    own, seeded at the first call as in [u]. *)
Definition U (seed : Z) (min max : R) (generator : option mt19937)
  : R * option mt19937 :=
  let generator :=
    match generator with
    | Some g => g
    | None => mt19937_seed (seed mod 2 ^ 32)
    end in
  let distribution := uniform_real_distribution min max in
  let '(r, g) := distribution generator in
  (r, Some g).

(** [random::N<T>(mu, sigma)]. *)
Definition N (seed : Z) (mu sigma : R) (generator : option mt19937)
  : R * option mt19937 :=
  let generator :=
    match generator with
    | Some g => g
    | None => mt19937_seed (seed mod 2 ^ 32)
    end in
  let distribution := normal_distribution mu sigma in
  let '(r, g) := distribution generator in
  (r, Some g).

(** [CvSize], with fields that are not negative. *)
Record CvSize := mkSize {
  width : nat;
  height : nat
}.

(** [res.ptr<float>(y)[x] = v] on a matrix of type [CV_32FC1], which is
    modelled as its dimensions with the cells written so far; a row or a
    column outside the matrix is an invalid pointer. *)
Definition ptr_write (res : array2) (y x : nat) (v : R) : result array2 :=
  if decide (y < a2_rows res ∧ x < a2_cols res)%nat
  then Ok (mkArray2 (a2_rows res) (a2_cols res) (<[(y, x) := v]> (a2_cells res)))
  else Fault InvalidPointer.

(** [random::U(size, min, max)]: [Mat res(size, CV_32FC1)] is filled row by
    row with calls of [U<float>]; [generator] is the generator of
    [U<float>], and [seed] is read only by the call that finds none. *)
Definition U_Mat (seed : Z) (size : CvSize) (min max : R)
    (generator : option mt19937) : result (array2 * option mt19937) :=
  let res := new2 (height size) (width size) in
  for_loop (height size) (fun y st =>
    for_loop (width size) (fun x '(res, generator) =>
      let '(v, generator) := U seed min max generator in
      let* res := ptr_write res y x v in
      Ok (res, generator)) st) (res, generator).

(** [random::N(size, mu, sigma)]. *)
Definition N_Mat (seed : Z) (size : CvSize) (mu sigma : R)
    (generator : option mt19937) : result (array2 * option mt19937) :=
  let res := new2 (height size) (width size) in
  for_loop (height size) (fun y st =>
    for_loop (width size) (fun x '(res, generator) =>
      let '(v, generator) := N seed mu sigma generator in
      let* res := ptr_write res y x v in
      Ok (res, generator)) st) (res, generator).

End RealGenerators.

(** The state of a generator after [n] draws, and the number that draw [n]
    (counted from 0) delivers. *)
Definition after_draws {S : Type} (draw : S → R * S) (n : nat) (s : S) : S :=
  Nat.iter n (λ s, snd (draw s)) s.

Definition draw_at {S : Type} (draw : S → R * S) (n : nat) (s : S) : R :=
  fst (draw (after_draws draw n s)).

(** The generator that a call uses: the stored one, or the one seeded at the
    first call. *)
Definition current {mt19937 : Type} (mt19937_seed : Z → mt19937) (seed : Z)
    (generator : option mt19937) : mt19937 :=
  match generator with
  | Some g => g
  | None => mt19937_seed (seed mod 2 ^ 32)%Z
  end.

(** A small real distribution for examples: the state counts the draws, and
    every draw delivers the middle of the interval. *)
Definition mid_distribution (a b : R) (g : Z) : R * Z :=
  (((a + b) / 2)%R, (g + 1)%Z).

End Random.

(** ** The loops of [main] *)

Section MainLoops.
Local Open Scope R_scope.


(** The data of a run: sample [k] is the pair of [trainDataBin[k]] (or
    [testDataBin[k]]) and the label [trainDataDigit[k]] (or
    [testDataDigit[k]]).  An index outside the data is reported as an access
    outside the pixel buffer. *)
Definition sample_at (samples : list (list Z * nat)) (k : nat)
  : result (list Z * nat) :=
  match samples !! k with
  | Some s => Ok s
  | None => Fault (OutOfBounds BufPixels)
  end.

(** Lines 114-131: the training loop. *)
Definition trainingLoop (vpInputLayer vpHiddenLayer vpOutputLayer : layer)
    (samples : list (list Z * nat)) (dataSize : nat) (h : heap)
  : result heap :=
  for_loop dataSize (fun k h =>
    let* s := sample_at samples k in
    trainSample vpInputLayer vpHiddenLayer vpOutputLayer (fst s) (snd s) h) h.



End MainLoops.

(** The data fit the input layer: every sample has a pixel for every input
    neuron. *)
Definition samples_ok (n : nat) (samples : list (list Z * nat)) : Prop :=
  Forall (λ s, n ≤ length (fst s)) samples.

#[global] Instance samples_ok_dec n samples : Decision (samples_ok n samples).
Proof. unfold samples_ok. apply _. Defined.

(** The three layers are made of distinct valid neurons whose weight rows
    reach the next layer. *)
Definition layers_ok (h : heap) (vpLayerA vpLayerB vpLayerC : layer) : Prop :=
  layer_ok h (length vpLayerB) vpLayerA ∧
  layer_ok h (length vpLayerC) vpLayerB ∧
  layer_ok h 0 vpLayerC ∧
  NoDup (vpLayerA ++ vpLayerB ++ vpLayerC).

#[global] Instance layers_ok_dec h A B C : Decision (layers_ok h A B C).
Proof. unfold layers_ok. apply _. Defined.

(** ** The construction of the network in [main] *)

Section Construction.
Local Open Scope R_scope.

(** Modelled from the spec: the constructor of [CNeuron] ([DNN.h] is not part
    of the sources), section 4.2: constructing a neuron with fan-out [k]
    allocates a weight row of length [k].  What the row holds before
    [generateRandomWeights] is not specified: cell [j] holds [junk j].
    [defaultValue] is the activation of a neuron constructed without a
    second argument. *)
Variable junk : nat → R.
Variable defaultValue : R.

Definition newNeuron (fanout : nat) (v : R) : CNeuron :=
  mkNeuron v (map junk (seq 0 fanout)).

(** [std::make_shared<CNeuron>(...)]: the neuron is placed at an address
    that is not in use. *)
Definition make_shared (n : CNeuron) (h : heap) : ptr_neuron_t * heap :=
  let p := fresh (dom h) in
  (p, <[p := n]> h).

(** Lines 94-101: [count] times
    [vp.push_back(std::make_shared<CNeuron>(fanout, v))]. *)
Definition pushNeurons (count fanout : nat) (v : R) (st : heap * layer)
  : result (heap * layer) :=
  for_loop count (fun _ '(h, vp) =>
    let '(p, h) := make_shared (newNeuron fanout v) h in
    Ok (h, vp ++ [p])) st.

(** Modelled from the spec: [CNeuron::generateRandomWeights], section 4.2: it
    fills every entry of the weight row from the uniform-real sampler of the
    random facility.  The sampler, with the range chosen by the
    implementation, and the state [G] of its generator are parameters. *)
Variable G : Type.
Variable sampler : G → R * G.

Definition generateRandomWeights (p : ptr_neuron_t) (st : heap * G)
  : result (heap * G) :=
  let* n := deref (fst st) p in
  for_loop (length (m_weights n)) (fun j '(h, g) =>
    let '(w, g) := sampler g in
    let* h := setWeight p j w h in
    Ok (h, g)) st.

(** Lines 107-111: [vp[i]->generateRandomWeights()] for every neuron of a
    layer. *)
Definition initLayer (vp : layer) (st : heap * G) : result (heap * G) :=
  for_loop (length vp) (fun i st =>
    let* p := at_index vp i in
    generateRandomWeights p st) st.

Record network := mkNetwork {
  vpInputLayer : layer;
  vpHiddenLayer : layer;
  vpOutputLayer : layer
}.

Definition dataSize : nat := 4000.

(** Lines 90-101 and 107-111: the three layers are built, then the weights
    of the hidden layer and of the input layer are drawn. *)
Definition buildNetwork (st : heap * G) : result ((heap * G) * network) :=
  let* a := pushNeurons numNeuronsInputLayer numNeuronsHiddenLayer 0
              (fst st, []) in
  let* b := pushNeurons numNeuronsHiddenLayer numNeuronsOutputLayer
              defaultValue (fst a, []) in
  let* c := pushNeurons numNeuronsOutputLayer 0 defaultValue (fst b, []) in
  let* st := initLayer (snd b) (fst c, snd st) in
  let* st := initLayer (snd a) st in
  Ok (st, mkNetwork (snd a) (snd b) (snd c)).



End Construction.

(** ** [readImgData] *)

Module Images.

(** [new int[n]] and [new int*[n]]: a size and the cells written so far. *)
Record int_array := mkIntArray {
  ia_size : nat;
  ia_cells : gmap nat Z
}.

Record ptr_array := mkPtrArray {
  pa_size : nat;
  pa_rows : gmap nat int_array
}.

Definition new_int (n : nat) : int_array := mkIntArray n ∅.
Definition new_ptrs (n : nat) : ptr_array := mkPtrArray n ∅.

(** [trainDataBin[m] = row]. *)
Definition store_row (t : ptr_array) (m : nat) (row : int_array)
  : result ptr_array :=
  if decide (m < pa_size t)
  then Ok (mkPtrArray (pa_size t) (<[m := row]> (pa_rows t)))
  else Fault (OutOfBounds BufPixels).

(** [trainDataBin[m][l] = value]. *)
Definition store_cell (t : ptr_array) (m l : nat) (value : Z)
  : result ptr_array :=
  if decide (m < pa_size t)
  then match pa_rows t !! m with
       | Some row =>
           if decide (l < ia_size row)
           then Ok (mkPtrArray (pa_size t)
                      (<[m := mkIntArray (ia_size row)
                                (<[l := value]> (ia_cells row))]> (pa_rows t)))
           else Fault (OutOfBounds BufPixels)
       | None => Fault (Uninitialised BufPixels)
       end
  else Fault (OutOfBounds BufPixels).

(** A [cv::Mat] of one channel of [uchar], as [imread(path, 0)] delivers
    it: [at_uchar i j] is [img.at<uchar>(i, j)], read only inside the
    image. *)
Record image := mkImage {
  rows : nat;
  cols : nat;
  at_uchar : nat → nat → Byte.byte
}.

(** [ss << std::setfill(c) << std::setw(w); ss << m;] for an [m] that is not
    negative: the decimal digits of [m], filled on the left up to [w]
    characters. *)
Fixpoint fill (n : nat) (c : Ascii.ascii) (s : string) : string :=
  match n with
  | O => s
  | S n => String c (fill n c s)
  end.

Definition format_number (w : nat) (c : Ascii.ascii) (m : nat) : string :=
  let digits := NilEmpty.string_of_uint (Nat.to_uint m) in
  fill (w - String.length digits) c digits.

(** The [k] numbers that follow each other from the little-endian number [d]
    on are written with at most [w] digits. *)
Fixpoint digits_within (w k : nat) (d : Decimal.uint) : bool :=
  match k with
  | O => true
  | S k =>
      bool_decide
        (String.length (NilEmpty.string_of_uint (Decimal.rev d)) ≤ w)
      && digits_within w k (Decimal.Little.succ d)
  end.

(** The number that a string of decimal digits denotes. *)
Definition parse_number (s : string) : option nat :=
  Nat.of_uint <$> NilEmpty.uint_of_string s.

Definition inputLayer : nat := 784.

Section ReadImgData.

(** The files are part of the environment: [imread path] is the image that
    [imread(samples::findFile(path), 0)] delivers, the empty image for a
    file that cannot be decoded.  A run in which [findFile] finds no file
    ends with an exception of the library and is not described. *)
Variable imread : string → image.

(** Lines 54-81.  [trainDataBin] is the [static] array of the function:
    absent before the first call, which allocates it with the [dataSize] of
    that call; the pointer returned is this array, so the result is also the
    new value of what earlier calls returned. *)
Definition readImgData (file : string) (dataSize : nat)
    (trainDataBin : option ptr_array) : result ptr_array :=
  let trainDataBin :=
    match trainDataBin with
    | Some t => t
    | None => new_ptrs dataSize
    end in
  for_loop dataSize (fun m trainDataBin =>
    let* trainDataBin := store_row trainDataBin m (new_int inputLayer) in
    let number := format_number 4 "0"%char m in
    let path := (file +:+ number +:+ ".png")%string in
    let img := imread path in
    let* st :=
      for_loop (rows img) (fun i st =>
        for_loop (cols img) (fun j '(trainDataBin, l) =>
          let value :=
            Z.abs (Z.of_N (Byte.to_N (at_uchar img i j)) - 255) in
          let* trainDataBin := store_cell trainDataBin m l value in
          Ok (trainDataBin, S l)) st) (trainDataBin, 0%nat) in
    Ok (fst st)) trainDataBin.

(** The image read for sample [m]. *)
Definition image_of (file : string) (m : nat) : image :=
  imread (file +:+ format_number 4 "0"%char m +:+ ".png")%string.

End ReadImgData.

(** Row [row] holds the inverted pixels of [img], row after row, from cell 0
    on; its other cells are those of [row0]. *)
Definition row_holds (img : image) (row0 row : int_array) : Prop :=
  ia_size row = ia_size row0 ∧
  (∀ i j, i < rows img → j < cols img →
     ia_cells row !! (i * cols img + j)
     = Some (255 - Z.of_N (Byte.to_N (at_uchar img i j)))%Z) ∧
  (∀ l, rows img * cols img ≤ l → ia_cells row !! l = ia_cells row0 !! l).

(** The row as [main] reads it, [trainDataBin[k][i]] for every [i] below
    the size of the row: the list of its cells, if all of them have been
    written. *)
Definition row_pixels (row : int_array) : option (list Z) :=
  mapM (λ l, ia_cells row !! l) (seq 0 (ia_size row)).

(** An image for examples: [r] rows and [c] columns of the pixel [b]. *)
Definition plain (r c : nat) (b : Byte.byte) : image :=
  mkImage r c (λ _ _, b).

End Images.

(** Closes a decidable goal on concrete data by evaluation. *)
Ltac by_decision := apply (bool_decide_unpack _); vm_compute; exact I.

(* ===================================================================== *)
(** * Proofs *)

Section Hoare.
Context {A B : Type}.

Lemma returns_bind (r : result A) (k : A → result B) P Q :
  returns r (λ a, returns (k a) P Q) Q → returns (bind r k) P Q.
Proof. destruct r; simpl; auto. Qed.

Lemma returns_mono (r : result A) (P P' : A → Prop) (Q Q' : fault → Prop) :
  (∀ a, P a → P' a) → (∀ f, Q f → Q' f) → returns r P Q → returns r P' Q'.
Proof. destruct r; simpl; auto. Qed.

Lemma returns_ok (r : result A) (P : A → Prop) :
  returns r P no_fault → ∃ a, r = Ok a ∧ P a.
Proof. destruct r; simpl; [eauto | intros []]. Qed.

End Hoare.

Section Loops.
Context {S : Type}.

(** The invariant rule of [for_loop]. *)
Lemma for_loop_returns (I : nat → S → Prop) (Q : fault → Prop) n body s :
  I 0 s →
  (∀ i s, i < n → I i s → returns (body i s) (I (Datatypes.S i)) Q) →
  returns (for_loop n body s) (I n) Q.
Proof.
  intros H0 Hstep. induction n as [|n IH]; simpl; [done|].
  apply returns_bind.
  apply (returns_mono _ (I n) _ Q Q); [|done|].
  - intros s' Hs'. apply Hstep; [lia|done].
  - apply IH. intros i s0 Hi. apply Hstep. lia.
Qed.

End Loops.

(** ** Readers and writers of neurons *)

Section Accessors.
Local Open Scope R_scope.
Implicit Types (h : heap) (p : ptr_neuron_t) (v : layer).

Lemma fmap_length_weights (o o' : option CNeuron) :
  m_weights <$> o = m_weights <$> o' →
  (length ∘ m_weights) <$> o = (length ∘ m_weights) <$> o'.
Proof. destruct o, o'; simpl; intros [=]; congruence. Qed.

Lemma neuron_ok_lookup h k p :
  neuron_ok h k p → ∃ n, h !! p = Some n ∧ (k ≤ length (m_weights n))%nat.
Proof. unfold neuron_ok. destruct (h !! p); [eauto | done]. Qed.

Lemma neuron_ok_le h k k' p :
  (k' ≤ k)%nat → neuron_ok h k p → neuron_ok h k' p.
Proof. unfold neuron_ok. destruct (h !! p); [lia | done]. Qed.

Lemma neuron_ok_ext h h' k p :
  (length ∘ m_weights) <$> (h' !! p) = (length ∘ m_weights) <$> (h !! p) →
  neuron_ok h k p → neuron_ok h' k p.
Proof.
  unfold neuron_ok. destruct (h !! p), (h' !! p); simpl; try done.
  intros [= ->]. done.
Qed.

Lemma layer_ok_elem h k v p : layer_ok h k v → p ∈ v → neuron_ok h k p.
Proof. unfold layer_ok. rewrite Forall_forall. auto. Qed.

Lemma layer_ok_lookup h k v i p :
  layer_ok h k v → v !! i = Some p → neuron_ok h k p.
Proof. intros Hv Hi. eapply layer_ok_elem; [done|]. by eapply list_elem_of_lookup_2. Qed.

Lemma getNodeValue_ok h k p :
  neuron_ok h k p → getNodeValue h p = Ok (value h p).
Proof.
  intros (n & Hn & _)%neuron_ok_lookup.
  unfold getNodeValue, deref, value. by rewrite Hn.
Qed.

Lemma getWeight_ok h k p j :
  neuron_ok h k p → (j < k)%nat → getWeight h p j = Ok (weight h p j).
Proof.
  intros (n & Hn & Hk)%neuron_ok_lookup Hj.
  unfold getWeight, deref, weight. rewrite Hn. simpl.
  destruct (lookup_lt_is_Some_2 (m_weights n) j) as [w Hw]; [lia|].
  rewrite Hw. f_equal. symmetry. by apply nth_lookup_Some with (d := 0).
Qed.

Lemma at_index_ok v i p : v !! i = Some p → at_index v i = Ok p.
Proof. unfold at_index. by intros ->. Qed.

Lemma at_index_lt v i : (i < length v)%nat → ∃ p, v !! i = Some p ∧ at_index v i = Ok p.
Proof.
  intros Hi. destruct (lookup_lt_is_Some_2 v i Hi) as [p Hp].
  exists p. split; [done | by apply at_index_ok].
Qed.

(** The weighted sum accumulated by the inner loop of [dotProd]. *)
Lemma weighted_sum_ok h v j acc :
  layer_ok h (S j) v →
  for_each v (fun a value =>
    let* w := getWeight h a j in
    let* x := getNodeValue h a in
    Ok (value + w * x)) acc
  = Ok (acc + Rsum (map (λ a, weight h a j * value h a) v)).
Proof.
  revert acc. induction v as [|a v IH]; intros acc Hv; simpl.
  - f_equal. lra.
  - apply Forall_cons in Hv as [Ha Hv].
    rewrite (getWeight_ok h (S j) a j Ha) by lia. simpl.
    rewrite (getNodeValue_ok h (S j) a Ha). simpl.
    rewrite IH by done. f_equal. lra.
Qed.

End Accessors.

(** ** Forward propagation *)

Section DotProd.
Local Open Scope R_scope.
Implicit Types (h : heap) (p : ptr_neuron_t).

Lemma value_ext h h' p : h' !! p = h !! p → value h' p = value h p.
Proof. unfold value. by intros ->. Qed.

Lemma weight_ext h h' p j : h' !! p = h !! p → weight h' p j = weight h p j.
Proof. unfold weight. by intros ->. Qed.

Lemma weightedInput_ext h h' (v : layer) j :
  (∀ a, a ∈ v → h' !! a = h !! a) → weightedInput h' v j = weightedInput h v j.
Proof.
  intros Hv. unfold weightedInput. f_equal.
  apply map_ext_in. intros a Ha%list_elem_of_In.
  by rewrite (weight_ext h h'), (value_ext h h') by auto.
Qed.

Lemma layer_ok_ext h h' k (v : layer) :
  (∀ a, a ∈ v → h' !! a = h !! a) → layer_ok h k v → layer_ok h' k v.
Proof.
  unfold layer_ok. rewrite !Forall_forall. intros Hv Hok a Ha.
  apply (neuron_ok_ext h); [|auto]. by rewrite Hv.
Qed.

Lemma setNodeValue_ok h k p x :
  neuron_ok h k p →
  ∃ n, h !! p = Some n ∧
       setNodeValue p x h = Ok (<[p := mkNeuron x (m_weights n)]> h).
Proof.
  intros (n & Hn & _)%neuron_ok_lookup. exists n. split; [done|].
  unfold setNodeValue, deref. by rewrite Hn.
Qed.

Lemma dotProd_returns h (vpLayerA vpLayerB : layer) :
  layer_ok h (length vpLayerB) vpLayerA →
  layer_ok h 0 vpLayerB →
  NoDup vpLayerB →
  (∀ p, p ∈ vpLayerA → p ∉ vpLayerB) →
  returns (dotProd vpLayerA vpLayerB h)
    (dotProd_inv h vpLayerA vpLayerB (length vpLayerB)) no_fault.
Proof.
  intros HA HB Hnd Hdisj. unfold dotProd.
  apply for_loop_returns.
  - split; [done|]. split; [intros; lia | done].
  - intros i hi Hi (Hout & Hdone & Hw).
    assert (HAi : ∀ a, a ∈ vpLayerA → hi !! a = h !! a).
    { intros a Ha. apply Hout. intros Hin%elem_of_take.
      destruct Hin as (k & Hk & _). apply (Hdisj a Ha).
      by eapply list_elem_of_lookup_2. }
    rewrite weighted_sum_ok.
    2:{ apply (layer_ok_ext h); [done|].
        unfold layer_ok in *. eapply Forall_impl; [exact HA|].
        intros a. apply neuron_ok_le. lia. }
    simpl. destruct (at_index_lt vpLayerB i Hi) as (b & Hb & ->). simpl.
    assert (Hbok : neuron_ok hi 0 b).
    { apply (neuron_ok_ext h).
      - apply fmap_length_weights, Hw.
      - by eapply layer_ok_lookup. }
    destruct (setNodeValue_ok hi 0 b
                (applySigmoidFunction
                   (0 + Rsum (map (λ a, weight hi a i * value hi a) vpLayerA)))
                Hbok) as (n & Hn & ->).
    simpl. split; [|split].
    + intros p Hp. rewrite (take_S_r _ _ b) in Hp by done.
      apply not_elem_of_app in Hp as [Hp1 Hp2].
      rewrite lookup_insert_ne; [by apply Hout|].
      intros ->. apply Hp2. by apply list_elem_of_singleton.
    + intros j b' Hj Hb'. destruct (decide (j = i)) as [->|Hne].
      * rewrite Hb in Hb'. injection Hb' as <-.
        unfold value at 1. rewrite lookup_insert_eq. simpl.
        f_equal. rewrite Rplus_0_l.
        by apply (weightedInput_ext h hi).
      * assert (b' ≠ b).
        { intros ->. apply Hne. by eapply NoDup_lookup. }
        unfold value at 1. rewrite lookup_insert_ne by done.
        apply Hdone; [lia|done].
    + intros p. destruct (decide (p = b)) as [->|Hne].
      * rewrite lookup_insert_eq. simpl. rewrite <- Hw, Hn. done.
      * rewrite lookup_insert_ne by done. apply Hw.
Qed.

End DotProd.

Section DotProdSpec.
Local Open Scope R_scope.

(** A run on the small network: the hidden neuron receives the sigmoid of
    the weighted input [0 + 2 * 1]. *)
Example dotProd_tiny :
  dotProd [0%nat] [1%nat] (tiny_heap 1 2 0 3 0)
  = Ok (tiny_heap 1 2 (applySigmoidFunction (0 + 2 * 1)) 3 0).
Proof. reflexivity. Qed.

End DotProdSpec.

(** ** Backpropagation: the gradients and the hidden deltas *)

Section Arrays.
Local Open Scope R_scope.

Lemma Rsum_snoc (l : list R) (x : R) : Rsum (l ++ [x]) = Rsum l + x.
Proof. induction l as [|y l IH]; simpl; [lra|]. rewrite IH. lra. Qed.

Lemma error_ok_read e n k :
  error_ok e n → (k < n)%nat →
  read1 BufResultErrorRate e k = Ok (errorAt e k).
Proof.
  unfold error_ok. rewrite Forall_forall. intros He Hk.
  destruct (He k) as [Hsz [x Hx]].
  { apply elem_of_seq. lia. }
  unfold read1, errorAt. rewrite decide_True by done. by rewrite Hx.
Qed.

Lemma read1_ok b a i x :
  (i < a1_size a)%nat → a1_cells a !! i = Some x → read1 b a i = Ok x.
Proof. intros Hi Hx. unfold read1. rewrite decide_True by done. by rewrite Hx. Qed.

Lemma read2_ok b a i j x :
  (i < a2_rows a)%nat → (j < a2_cols a)%nat →
  a2_cells a !! (i, j) = Some x → read2 b a i j = Ok x.
Proof.
  intros Hi Hj Hx. unfold read2. rewrite decide_True by done. by rewrite Hx.
Qed.

Lemma backpropagatedError_S h b n e :
  backpropagatedError h b (S n) e
  = backpropagatedError h b n e + weight h b n * errorAt e n.
Proof.
  unfold backpropagatedError. rewrite seq_S, map_app. simpl.
  by rewrite Rsum_snoc.
Qed.

End Arrays.

Section Gradients.
Local Open Scope R_scope.
Variables (h : heap) (vpLayerB vpLayerC : layer) (resultErrorRate : array1).
Hypothesis HB : layer_ok h (length vpLayerC) vpLayerB.
Hypothesis Herr : error_ok resultErrorRate (length vpLayerC).

Lemma gradients_inner_returns sc i b :
  vpLayerB !! i = Some b →
  a2_rows (DeltaWjk sc) = numNeuronsHiddenLayer →
  a2_cols (DeltaWjk sc) = numNeuronsOutputLayer →
  returns
    (for_loop (length vpLayerC) (fun j '(nodeVal, dWjk) =>
       let* w := getWeight h b j in
       let* e := read1 BufResultErrorRate resultErrorRate j in
       let nodeVal := nodeVal + w * e in
       let* x := getNodeValue h b in
       let* dWjk := write2 BufDeltaWjk dWjk i j (learningRate * e * x) in
       Ok (nodeVal, dWjk)) (0, DeltaWjk sc))
    (gradients_inner h resultErrorRate sc i b (length vpLayerC))
    (λ f, scratch_oob f ∧
          ¬ ((i < numNeuronsHiddenLayer)%nat
             ∧ (length vpLayerC ≤ numNeuronsOutputLayer)%nat)).
Proof.
  intros Hb Hrows Hcols.
  pose proof (layer_ok_lookup _ _ _ _ _ HB Hb) as Hbok.
  apply for_loop_returns.
  - unfold gradients_inner; simpl.
    split; [done|]. split; [done|]. split; [lia|]. split; [done|].
    split; [intros; lia | done].
  - intros j [nodeVal dW] Hj (Hr & Hc & Hfit & Hnv & Hrow & Hother).
    simpl in *.
    rewrite (getWeight_ok h _ b j Hbok Hj). simpl.
    rewrite (error_ok_read _ _ j Herr Hj). simpl.
    rewrite (getNodeValue_ok h _ b Hbok). simpl.
    unfold write2. case_decide as Hin; simpl.
    + unfold gradients_inner; simpl.
      split; [done|]. split; [done|]. split; [lia|]. split.
      { rewrite backpropagatedError_S. by rewrite Hnv. }
      split.
      * intros k Hk. destruct (decide (k = j)) as [->|Hne].
        -- by rewrite lookup_insert_eq.
        -- rewrite lookup_insert_ne by congruence. apply Hrow. lia.
      * intros i' k Hi'. rewrite lookup_insert_ne by congruence. by apply Hother.
    + split; [done|]. lia.
Qed.

Lemma bp_gradients_returns sc0 :
  scratch_dims sc0 →
  returns (bp_gradients h vpLayerB vpLayerC resultErrorRate sc0)
    (gradients_post h vpLayerB vpLayerC resultErrorRate sc0 (length vpLayerB))
    (λ f, scratch_oob f ∧ (0 < length vpLayerB)%nat ∧
          ¬ ((length vpLayerB ≤ numNeuronsHiddenLayer)%nat
             ∧ (length vpLayerC ≤ numNeuronsOutputLayer)%nat)).
Proof.
  intros Hdims. unfold bp_gradients.
  apply for_loop_returns.
  - split; [done|]. split; [done|]. split; [lia|].
    split; intros; lia.
  - intros i sc Hi (Hd & Hik & Hfit & HJ & HW).
    destruct (at_index_lt vpLayerB i Hi) as (b & Hb & ->). simpl.
    pose proof (layer_ok_lookup _ _ _ _ _ HB Hb) as Hbok.
    destruct Hd as (Hd1 & Hd2 & Hd3 & Hd4 & Hd5).
    apply returns_bind.
    eapply returns_mono;
      [| |apply (gradients_inner_returns sc i b Hb Hd1 Hd2)].
    2:{ simpl. intros f [Hf Hn]. split; [done|]. lia. }
    intros [nodeVal dW] (Hr & Hc & Hfit' & Hnv & Hrow & Hother).
    simpl in Hr, Hc, Hfit', Hnv, Hrow, Hother. simpl.
    rewrite (getNodeValue_ok h _ b Hbok). simpl.
    unfold write1. case_decide as Hin; simpl.
    + split; [done|]. split; [done|]. split.
      { intros _. split; [lia|].
        destruct (decide (0 < length vpLayerC)%nat); [|lia].
        by apply Hfit'. }
      split.
      * intros i' b' Hi' Hb'. simpl. destruct (decide (i' = i)) as [->|Hne].
        -- rewrite Hb in Hb'. injection Hb' as <-.
           rewrite lookup_insert_eq. unfold hiddenDelta. by rewrite Hnv.
        -- rewrite lookup_insert_ne by done. apply HJ; [lia|done].
      * intros i' b' k Hi' Hb' Hk. simpl.
        destruct (decide (i' = i)) as [->|Hne].
        -- rewrite Hb in Hb'. injection Hb' as <-. by apply Hrow.
        -- rewrite Hother by done. apply HW; [lia|done|done].
    + split; [done|]. lia.
Qed.

End Gradients.

(** ** Backpropagation: the weight updates *)

Section RowUpdate.
Local Open Scope R_scope.
Implicit Types (h : heap) (p q : ptr_neuron_t).

Lemma same_values_refl h : same_values h h.
Proof. by intros p. Qed.

Lemma same_shape_refl h : same_shape h h.
Proof. by intros p. Qed.

Lemma same_values_trans h1 h2 h3 :
  same_values h1 h2 → same_values h2 h3 → same_values h1 h3.
Proof. intros H12 H23 p. by rewrite H23. Qed.

Lemma same_shape_trans h1 h2 h3 :
  same_shape h1 h2 → same_shape h2 h3 → same_shape h1 h3.
Proof. intros H12 H23 p. by rewrite H23. Qed.

Lemma same_values_value h h' p : same_values h h' → value h' p = value h p.
Proof.
  intros Hv. specialize (Hv p). unfold value.
  destruct (h' !! p), (h !! p); simpl in Hv; congruence.
Qed.

Lemma same_shape_neuron_ok h h' k p :
  same_shape h h' → neuron_ok h k p → neuron_ok h' k p.
Proof. intros Hs. apply neuron_ok_ext, Hs. Qed.

Lemma same_shape_layer_ok h h' k (v : layer) :
  same_shape h h' → layer_ok h k v → layer_ok h' k v.
Proof.
  intros Hs Hv. unfold layer_ok. eapply Forall_impl; [exact Hv|].
  intros p. by apply same_shape_neuron_ok.
Qed.

Lemma nth_insert (l : list R) (j k : nat) (w : R) :
  (j < length l)%nat →
  nth k (<[j := w]> l) 0 = if decide (k = j) then w else nth k l 0.
Proof.
  intros Hj. rewrite !nth_lookup. case_decide as Hk.
  - subst. by rewrite list_lookup_insert_eq.
  - by rewrite list_lookup_insert_ne.
Qed.

(** One [setWeight] on a valid index, in terms of the readers. *)
Lemma setWeight_ok h k p j w :
  neuron_ok h k p → (j < k)%nat →
  ∃ h', setWeight p j w h = Ok h' ∧
    same_values h h' ∧ same_shape h h' ∧
    (∀ q, q ≠ p → h' !! q = h !! q) ∧
    (∀ i, weight h' p i = if decide (i = j) then w else weight h p i).
Proof.
  intros (n & Hn & Hk)%neuron_ok_lookup Hj.
  unfold setWeight, deref. rewrite Hn. simpl.
  rewrite decide_True by lia.
  eexists. split; [done|]. split; [|split; [|split]].
  - intros q. destruct (decide (q = p)) as [->|Hne].
    + by rewrite lookup_insert_eq, Hn.
    + by rewrite lookup_insert_ne.
  - intros q. destruct (decide (q = p)) as [->|Hne].
    + rewrite lookup_insert_eq, Hn. simpl. by rewrite length_insert.
    + by rewrite lookup_insert_ne.
  - intros q Hq. by rewrite lookup_insert_ne.
  - intros i. unfold weight. rewrite lookup_insert_eq, Hn. simpl.
    apply nth_insert. lia.
Qed.

Lemma row_updated_0 h p d : row_updated h p d 0 h.
Proof.
  split; [apply same_values_refl|]. split; [apply same_shape_refl|].
  split; [done|]. intros k. by rewrite decide_False by lia.
Qed.

(** The step shared by the two update loops:
    [setWeight(j, getWeight(j) + d j)]. *)
Lemma row_updated_step h0 h p d j k x :
  neuron_ok h0 k p → (j < k)%nat →
  row_updated h0 p d j h →
  x = d j →
  getWeight h p j = Ok (weight h0 p j) ∧
  ∃ h', setWeight p j (weight h0 p j + x) h = Ok h' ∧
        row_updated h0 p d (S j) h'.
Proof.
  intros Hok Hj (Hv & Hs & Hfr & Hw) ->.
  pose proof (same_shape_neuron_ok _ _ _ _ Hs Hok) as Hok'.
  split.
  - rewrite (getWeight_ok h k p j Hok' Hj). f_equal.
    rewrite Hw. by rewrite decide_False by lia.
  - destruct (setWeight_ok h k p j (weight h0 p j + d j) Hok' Hj)
      as (h' & -> & Hv' & Hs' & Hfr' & Hw').
    exists h'. split; [done|].
    split; [by eapply same_values_trans|].
    split; [by eapply same_shape_trans|].
    split.
    + intros q Hq. rewrite Hfr' by done. by apply Hfr.
    + intros i. rewrite Hw'. case_decide as Hi.
      * subst. by rewrite decide_True by lia.
      * rewrite Hw. repeat case_decide; try lia; done.
Qed.

Lemma rows_updated_0 h (v : layer) m d : rows_updated h v m d 0 h.
Proof.
  split; [apply same_values_refl|]. split; [apply same_shape_refl|].
  split; [done|]. intros; lia.
Qed.

(** A finished row extends the updated part of the layer by one neuron. *)
Lemma rows_updated_step h0 (v : layer) m d d' i p hi h' :
  NoDup v → v !! i = Some p →
  rows_updated h0 v m d i hi →
  row_updated hi p d' m h' →
  (∀ k, (k < m)%nat → d' k = d p k) →
  rows_updated h0 v m d (S i) h'.
Proof.
  intros Hnd Hp (Hv & Hs & Hfr & Hw) (Hv' & Hs' & Hfr' & Hw') Hd.
  assert (Hpi : p ∉ take i v).
  { intros (k & Hk & Hlt)%elem_of_take.
    assert (k = i) by (by eapply NoDup_lookup). lia. }
  split; [by eapply same_values_trans|].
  split; [by eapply same_shape_trans|].
  split.
  - intros q Hq. rewrite (take_S_r _ _ p) in Hq by done.
    apply not_elem_of_app in Hq as [Hq1 Hq2].
    rewrite Hfr'; [by apply Hfr|].
    intros ->. apply Hq2. by apply list_elem_of_singleton.
  - intros i' q k Hi' Hq. destruct (decide (i' = i)) as [->|Hne].
    + rewrite Hp in Hq. injection Hq as <-.
      rewrite Hw'. rewrite (weight_ext h0 hi p k (Hfr p Hpi)).
      case_decide; [|done]. by rewrite Hd.
    + assert (q ≠ p).
      { intros ->. apply Hne. by eapply NoDup_lookup. }
      rewrite (weight_ext hi h' q k) by auto.
      apply (Hw i'); [lia|done].
Qed.

End RowUpdate.

Section UpdateInput.
Local Open Scope R_scope.
Variables (vpLayerA vpLayerB : layer) (st0 : heap * scratch) (dJ : nat → R).
Hypothesis HA : layer_ok (fst st0) (length vpLayerB) vpLayerA.
Hypothesis HndA : NoDup vpLayerA.
Hypothesis Hdims : scratch_dims (snd st0).
Hypothesis HfitB :
  (0 < length vpLayerB)%nat → (length vpLayerB ≤ numNeuronsHiddenLayer)%nat.
Hypothesis HJ :
  ∀ j, (j < length vpLayerB)%nat → a1_cells (DeltaJ (snd st0)) !! j = Some (dJ j).

Lemma updateInput_inner_returns i a st :
  vpLayerA !! i = Some a →
  neuron_ok (fst st) (length vpLayerB) a →
  DeltaJ (snd st) = DeltaJ (snd st0) →
  a2_rows (DeltaWik (snd st)) = numNeuronsInputLayer →
  a2_cols (DeltaWik (snd st)) = numNeuronsHiddenLayer →
  returns
    (for_loop (length vpLayerB) (fun j '(h, sc) =>
       let* a := at_index vpLayerA i in
       let* dj := read1 BufDeltaJ (DeltaJ sc) j in
       let* x := getNodeValue h a in
       let* dWik := write2 BufDeltaWik (DeltaWik sc) i j
                      (learningRate * dj * x) in
       let* oldWeight := getWeight h a j in
       let* d := read2 BufDeltaWik dWik i j in
       let* h := setWeight a j (oldWeight + d) h in
       Ok (h, mkScratch (DeltaWjk sc) dWik (DeltaJ sc))) st)
    (updateInput_inner st i a
       (λ k, learningRate * dJ k * value (fst st) a) (length vpLayerB))
    (λ f, scratch_oob f ∧ (0 < length vpLayerB)%nat ∧
          ¬ (i < numNeuronsInputLayer)%nat).
Proof.
  intros Ha Hok HJst Hrows Hcols.
  destruct Hdims as (_ & _ & _ & _ & HszJ).
  assert (HltB : ∀ j, (j < length vpLayerB)%nat → (j < numNeuronsHiddenLayer)%nat).
  { intros j Hj. assert (0 < length vpLayerB)%nat as HB%HfitB by lia. lia. }
  apply for_loop_returns.
  - unfold updateInput_inner.
    split; [done|]. split; [done|]. split; [done|]. split; [done|].
    split; [lia|]. apply row_updated_0.
  - intros j [h sc] Hj (HJeq & HWeq & Hr & Hc & Hfit & Hrow). simpl in *.
    rewrite (at_index_ok _ _ _ Ha). simpl.
    rewrite (read1_ok _ _ j (dJ j)).
    2:{ rewrite HJeq, HJst, HszJ. by apply HltB. }
    2:{ rewrite HJeq, HJst. by apply HJ. }
    simpl.
    pose proof Hrow as (Hv & Hs & _ & _).
    rewrite (getNodeValue_ok h _ a (same_shape_neuron_ok _ _ _ _ Hs Hok)).
    simpl. rewrite (same_values_value _ _ a Hv).
    unfold write2. case_decide as Hin; simpl.
    + destruct (row_updated_step (fst st) h a
                  (λ k, learningRate * dJ k * value (fst st) a) j
                  (length vpLayerB)
                  (learningRate * dJ j * value (fst st) a) Hok Hj Hrow eq_refl)
        as (-> & h' & Hset & Hrow').
      simpl. unfold read2; simpl. rewrite decide_True by done.
      rewrite lookup_insert_eq. simpl. rewrite Hset. simpl.
      unfold updateInput_inner; simpl.
      split; [done|]. split; [done|]. split; [done|]. split; [done|].
      split; [lia | done].
    + split; [done|]. apply HltB in Hj as ?. lia.
Qed.

Lemma bp_updateInput_returns :
  returns (bp_updateInput vpLayerA vpLayerB st0)
    (updateInput_post st0 vpLayerA vpLayerB
       (λ a k, learningRate * dJ k * value (fst st0) a) (length vpLayerA))
    (λ f, scratch_oob f ∧ (0 < length vpLayerB)%nat ∧
          ¬ (length vpLayerA ≤ numNeuronsInputLayer)%nat).
Proof.
  unfold bp_updateInput. apply for_loop_returns.
  - destruct Hdims as (_ & _ & Hr & Hc & _).
    unfold updateInput_post.
    split; [done|]. split; [done|]. split; [done|]. split; [done|].
    split; [lia|]. apply rows_updated_0.
  - intros i st Hi (HJeq & HWeq & Hr & Hc & Hfit & Hrows).
    destruct (lookup_lt_is_Some_2 vpLayerA i Hi) as [a Ha].
    pose proof Hrows as (Hv & Hs & _ & _).
    assert (Hok : neuron_ok (fst st) (length vpLayerB) a).
    { apply (same_shape_neuron_ok (fst st0)); [done|].
      by eapply layer_ok_lookup. }
    eapply returns_mono;
      [| |apply (updateInput_inner_returns i a st Ha Hok HJeq Hr Hc)].
    2:{ simpl. intros f (Hf & HB & Hn). split; [done|]. lia. }
    intros st' (HJeq' & HWeq' & Hr' & Hc' & Hfit' & Hrow).
    unfold updateInput_post.
    split; [by rewrite HJeq'|]. split; [by rewrite HWeq'|].
    split; [done|]. split; [done|]. split.
    { intros _ HB. specialize (Hfit' HB). lia. }
    eapply rows_updated_step; [done|done|done|exact Hrow|].
    intros k _. simpl. by rewrite (same_values_value _ _ a Hv).
Qed.

End UpdateInput.

Section UpdateHidden.
Local Open Scope R_scope.
Variables (vpLayerB vpLayerC : layer) (sc : scratch) (h0 : heap).
Variable g : ptr_neuron_t → nat → R.
Hypothesis HB : layer_ok h0 (length vpLayerC) vpLayerB.
Hypothesis HndB : NoDup vpLayerB.
Hypothesis Hdims : scratch_dims sc.
Hypothesis Hfit :
  (0 < length vpLayerB)%nat →
  (length vpLayerB ≤ numNeuronsHiddenLayer)%nat
  ∧ (length vpLayerC ≤ numNeuronsOutputLayer)%nat.
Hypothesis HW :
  ∀ i b k, (i < length vpLayerB)%nat → vpLayerB !! i = Some b →
    (k < length vpLayerC)%nat →
    a2_cells (DeltaWjk sc) !! (i, k) = Some (g b k).

Lemma updateHidden_inner_returns i b h :
  vpLayerB !! i = Some b →
  neuron_ok h (length vpLayerC) b →
  returns
    (for_loop (length vpLayerC) (fun j h =>
       let* b := at_index vpLayerB i in
       let* oldWeight := getWeight h b j in
       let* d := read2 BufDeltaWjk (DeltaWjk sc) i j in
       setWeight b j (oldWeight + d) h) h)
    (row_updated h b (g b) (length vpLayerC))
    no_fault.
Proof.
  intros Hb Hok.
  assert (Hi : (i < length vpLayerB)%nat) by (by eapply lookup_lt_Some).
  destruct Hdims as (Hr & Hc & _).
  apply for_loop_returns; [apply row_updated_0|].
  intros j hj Hj Hrow.
  rewrite (at_index_ok _ _ _ Hb). simpl.
  destruct (row_updated_step h hj b (g b) j (length vpLayerC) (g b j)
              Hok Hj Hrow eq_refl) as (-> & h' & Hset & Hrow').
  simpl. rewrite (read2_ok _ _ i j (g b j)).
  - simpl. by rewrite Hset.
  - rewrite Hr. destruct Hfit; lia.
  - rewrite Hc. destruct Hfit; lia.
  - by apply HW.
Qed.

Lemma bp_updateHidden_returns :
  returns (bp_updateHidden vpLayerB vpLayerC sc h0)
    (rows_updated h0 vpLayerB (length vpLayerC) g (length vpLayerB))
    no_fault.
Proof.
  unfold bp_updateHidden. apply for_loop_returns; [apply rows_updated_0|].
  intros i h Hi Hrows.
  destruct (lookup_lt_is_Some_2 vpLayerB i Hi) as [b Hb].
  pose proof Hrows as (_ & Hs & _ & _).
  assert (Hok : neuron_ok h (length vpLayerC) b).
  { apply (same_shape_neuron_ok h0); [done|]. by eapply layer_ok_lookup. }
  eapply returns_mono; [| |apply (updateHidden_inner_returns i b h Hb Hok)].
  2:{ by intros f. }
  intros h' Hrow. simpl.
  eapply rows_updated_step; [done|done|done|exact Hrow|done].
Qed.

End UpdateHidden.

(** ** Backpropagation: the whole function *)

Section BackPropagate.
Local Open Scope R_scope.
Variables (h : heap) (vpLayerA vpLayerB vpLayerC : layer).
Variable resultErrorRate : array1.

Lemma new_scratch_dims : scratch_dims new_scratch.
Proof. by repeat split. Qed.

Lemma not_elem_of_take_all (v : layer) p : p ∉ v → p ∉ take (length v) v.
Proof. by rewrite firstn_all. Qed.

(** On a well-formed network [backPropagate] either ends normally, and then
    its inputs fitted the scratch buffers unless the hidden layer is empty,
    or stops on the first access outside a scratch buffer. *)
Lemma backPropagate_returns :
  network_ok h vpLayerA vpLayerB vpLayerC resultErrorRate →
  returns (backPropagate vpLayerA vpLayerB vpLayerC resultErrorRate h)
    (λ h', ((0 < length vpLayerB)%nat → fits vpLayerA vpLayerB vpLayerC) ∧
           backPropagate_post h vpLayerA vpLayerB vpLayerC resultErrorRate h')
    (λ f, scratch_oob f ∧ (0 < length vpLayerB)%nat ∧
          ¬ fits vpLayerA vpLayerB vpLayerC).
Proof.
  intros (HA & HB & Hnd & Herr).
  apply NoDup_app in Hnd as (HndA & Hdisj & HndB).
  unfold backPropagate. apply returns_bind.
  eapply returns_mono;
    [| |apply (bp_gradients_returns h vpLayerB vpLayerC resultErrorRate
                 HB Herr new_scratch new_scratch_dims)].
  2:{ simpl. intros f (Hf & Hlt & Hn). unfold fits. split; [done|].
      split; [done|]. lia. }
  intros sc (Hd & Hik & Hfit1 & HJ & HW). simpl.
  apply returns_bind.
  eapply returns_mono;
    [| |apply (bp_updateInput_returns vpLayerA vpLayerB (h, sc)
                 (deltaAt h vpLayerB vpLayerC resultErrorRate))]; simpl.
  2:{ intros f (Hf & Hlt & Hn). unfold fits. split; [done|].
      split; [done|]. lia. }
  2: done. 2: done. 2: done.
  2:{ intros Hlt. by apply Hfit1. }
  2:{ intros j Hj. destruct (lookup_lt_is_Some_2 vpLayerB j Hj) as [b Hb].
      unfold deltaAt. rewrite Hb. by apply (HJ j b). }
  intros [h2 sc2] (HJeq & HWeq & Hr & Hc & HfitA & Hrows). simpl in *.
  pose proof Hrows as (Hv2 & Hs2 & Hfr2 & Hw2).
  eapply returns_mono;
    [| |apply (bp_updateHidden_returns vpLayerB vpLayerC sc2 h2
                 (hiddenIncrement h resultErrorRate))]; simpl.
  2:{ intros f []. }
  2:{ by apply (same_shape_layer_ok h). }
  2: done.
  2:{ destruct Hd as (? & ? & ? & ? & ?). unfold scratch_dims.
      by rewrite HWeq, HJeq. }
  2:{ intros Hlt. by apply Hfit1. }
  2:{ intros i b k Hi Hb Hk. rewrite HWeq. by apply (HW i b k). }
  intros h3 (Hv3 & Hs3 & Hfr3 & Hw3). split.
  { intros Hlt. destruct (Hfit1 Hlt). unfold fits.
    split; [|done]. destruct (decide (0 < length vpLayerA)%nat); [|lia].
    by apply HfitA. }
  split; [by eapply same_values_trans|].
  split; [by eapply same_shape_trans|].
  split; [|split].
  - intros p [HpA HpB]%not_elem_of_app.
    rewrite Hfr3 by (by apply not_elem_of_take_all).
    apply Hfr2. by apply not_elem_of_take_all.
  - intros i a j Ha.
    assert (HaB : a ∉ vpLayerB).
    { apply Hdisj. by eapply list_elem_of_lookup_2. }
    rewrite (weight_ext h2 h3 a j)
      by (by apply Hfr3, not_elem_of_take_all).
    apply (Hw2 i a j); [by eapply lookup_lt_Some | done].
  - intros i b k Hb.
    assert (HbA : b ∉ vpLayerA).
    { intros Hin. apply (Hdisj b Hin). by eapply list_elem_of_lookup_2. }
    rewrite (Hw3 i b k) by (by eapply lookup_lt_Some || done).
    by rewrite (weight_ext h h2 b k) by (by apply Hfr2, not_elem_of_take_all).
Qed.

End BackPropagate.

(** ** The claims about [backPropagate] *)

Section BackPropagateSpec.
Local Open Scope R_scope.

Lemma value_tiny_heap x w1 y w2 z :
  value (tiny_heap x w1 y w2 z) 0 = x ∧
  value (tiny_heap x w1 y w2 z) 1 = y ∧
  value (tiny_heap x w1 y w2 z) 2 = z.
Proof.
  unfold value, tiny_heap. split; [|split].
  - by rewrite lookup_insert_eq.
  - rewrite lookup_insert_ne by lia. by rewrite lookup_insert_eq.
  - do 2 (rewrite lookup_insert_ne by lia). by rewrite lookup_insert_eq.
Qed.

Lemma weight_tiny_heap x w1 y w2 z :
  weight (tiny_heap x w1 y w2 z) 0 0 = w1 ∧
  weight (tiny_heap x w1 y w2 z) 1 0 = w2.
Proof.
  unfold weight, tiny_heap. split.
  - by rewrite lookup_insert_eq.
  - rewrite lookup_insert_ne by lia. by rewrite lookup_insert_eq.
Qed.


Lemma tiny_network_ok x w1 y w2 z e :
  network_ok (tiny_heap x w1 y w2 z) [0%nat] [1%nat] [2%nat] (tiny_error e).
Proof. by_decision. Qed.

(** A run on the small network with the error vector [1]: both weights
    receive their increment, the activations stay. *)
Example backPropagate_tiny :
  backPropagate [0%nat] [1%nat] [2%nat] (tiny_error 1) (tiny_heap 1 2 0 3 0)
  = Ok (tiny_heap 1
          (2 + learningRate
               * ((0 + 3 * 1) * applySigmoidFunction 0
                  * (1 - applySigmoidFunction 0)) * 1)
          0 (3 + learningRate * 1 * 0) 0).
Proof. reflexivity. Qed.

(** A normal run on a well-formed network that fits the buffers. *)
Lemma backPropagate_ok (h : heap) (vpLayerA vpLayerB vpLayerC : layer)
    (resultErrorRate : array1) :
  network_ok h vpLayerA vpLayerB vpLayerC resultErrorRate →
  fits vpLayerA vpLayerB vpLayerC →
  ∃ h', backPropagate vpLayerA vpLayerB vpLayerC resultErrorRate h = Ok h' ∧
        backPropagate_post h vpLayerA vpLayerB vpLayerC resultErrorRate h'.
Proof.
  intros Hok Hfit.
  pose proof (backPropagate_returns h vpLayerA vpLayerB vpLayerC
                resultErrorRate Hok) as Hrun.
  destruct (backPropagate vpLayerA vpLayerB vpLayerC resultErrorRate h)
    as [h'|f]; simpl in Hrun.
  - exists h'. by destruct Hrun.
  - by destruct Hrun as (_ & _ & Hn).
Qed.

(** C9. Frame of [backPropagate]: on a well-formed network of distinct
    neurons that fits the buffers, the run ends normally; no activation value
    changes and no weight row changes its length, the neurons of the output
    layer are left exactly as they were, and so is every neuron outside the
    input and hidden layers. *)
Theorem backPropagate_frame (h : heap) (vpLayerA vpLayerB vpLayerC : layer)
    (resultErrorRate : array1) :
  network_ok h vpLayerA vpLayerB vpLayerC resultErrorRate →
  fits vpLayerA vpLayerB vpLayerC →
  NoDup (vpLayerA ++ vpLayerB ++ vpLayerC) →
  ∃ h', backPropagate vpLayerA vpLayerB vpLayerC resultErrorRate h = Ok h' ∧
    (∀ p, m_value <$> (h' !! p) = m_value <$> (h !! p)) ∧
    (∀ p, (length ∘ m_weights) <$> (h' !! p)
          = (length ∘ m_weights) <$> (h !! p)) ∧
    (∀ c, c ∈ vpLayerC → h' !! c = h !! c) ∧
    (∀ p, p ∉ vpLayerA → p ∉ vpLayerB → h' !! p = h !! p).
Proof.
  intros Hok Hfit Hnd.
  destruct (backPropagate_ok h vpLayerA vpLayerB vpLayerC resultErrorRate
              Hok Hfit) as (h' & Hrun & Hv & Hs & Hfr & _ & _).
  exists h'. split; [done|]. split; [done|]. split; [done|]. split.
  - intros c Hc. apply Hfr.
    rewrite app_assoc in Hnd. apply NoDup_app in Hnd as (_ & Hdisj & _).
    intros Hin. by apply (Hdisj c Hin).
  - intros p HpA HpB. apply Hfr. by apply not_elem_of_app.
Qed.

Lemma backPropagate_frame_witness :
  ∃ h', backPropagate [0%nat] [1%nat] [2%nat] (tiny_error 1)
          (tiny_heap 1 2 0 3 0) = Ok h' ∧
    (∀ p, m_value <$> (h' !! p) = m_value <$> (tiny_heap 1 2 0 3 0 !! p)) ∧
    (∀ p, (length ∘ m_weights) <$> (h' !! p)
          = (length ∘ m_weights) <$> (tiny_heap 1 2 0 3 0 !! p)) ∧
    (∀ c, c ∈ [2%nat] → h' !! c = tiny_heap 1 2 0 3 0 !! c) ∧
    (∀ p, p ∉ [0%nat] → p ∉ [1%nat] → h' !! p = tiny_heap 1 2 0 3 0 !! p).
Proof.
  apply (backPropagate_frame (tiny_heap 1 2 0 3 0)
           [0%nat] [1%nat] [2%nat] (tiny_error 1));
    by_decision.
Defined.

(** C10 as stated fails: with an empty hidden layer no scratch buffer is
    accessed at all, so a run on eleven output neurons stays within the
    buffers although the size precondition does not hold. *)
Lemma scratch_bounds_counterexample :
  network_ok wide_heap [] [] (seq 0 11) wide_error ∧
  backPropagate [] [] (seq 0 11) wide_error wide_heap = Ok wide_heap ∧
  (∀ f, backPropagate [] [] (seq 0 11) wide_error wide_heap = Fault f →
        ¬ scratch_oob f) ∧
  ¬ fits [] [] (seq 0 11).
Proof.
  split; [by_decision|].
  split; [reflexivity|]. split; [discriminate|].
  unfold fits, numNeuronsOutputLayer. simpl. lia.
Qed.

(** C10, amended. The scratch buffers have the fixed sizes 60x10, 784x60 and
    60; on a well-formed network, every access to them stays within bounds
    if and only if the hidden layer is empty or the three layers have at most
    784, 60 and 10 neurons. *)
Theorem scratch_bounds (h : heap) (vpLayerA vpLayerB vpLayerC : layer)
    (resultErrorRate : array1) :
  network_ok h vpLayerA vpLayerB vpLayerC resultErrorRate →
  scratch_dims new_scratch ∧
  ((∀ f, backPropagate vpLayerA vpLayerB vpLayerC resultErrorRate h = Fault f →
         ¬ scratch_oob f)
   ↔ (length vpLayerB = 0%nat ∨ fits vpLayerA vpLayerB vpLayerC)).
Proof.
  intros Hok. split; [apply new_scratch_dims|].
  pose proof (backPropagate_returns h vpLayerA vpLayerB vpLayerC
                resultErrorRate Hok) as Hrun.
  destruct (backPropagate vpLayerA vpLayerB vpLayerC resultErrorRate h)
    as [h'|f]; simpl in Hrun.
  - destruct Hrun as [Hfit _]. split; [|discriminate].
    intros _. destruct (decide (length vpLayerB = 0%nat)); [by left|].
    right. apply Hfit. lia.
  - destruct Hrun as (Hf & HB & Hn). split.
    + intros Hall. by destruct (Hall f eq_refl).
    + intros [H0|Hfit]; [lia | done].
Qed.

Lemma scratch_bounds_witness :
  scratch_dims new_scratch ∧
  ((∀ f, backPropagate [0%nat] [1%nat] [2%nat] (tiny_error 1)
           (tiny_heap 1 2 0 3 0) = Fault f → ¬ scratch_oob f)
   ↔ (length [1%nat] = 0%nat ∨ fits [0%nat] [1%nat] [2%nat])).
Proof.
  apply (scratch_bounds (tiny_heap 1 2 0 3 0)
           [0%nat] [1%nat] [2%nat] (tiny_error 1)).
  by_decision.
Defined.

End BackPropagateSpec.

(** ** The training step of [main] *)

Section TrainSample.
Local Open Scope R_scope.
Implicit Types (h : heap) (v : layer).

Lemma same_weights_refl h : same_weights h h.
Proof. by intros p. Qed.

Lemma same_weights_trans h1 h2 h3 :
  same_weights h1 h2 → same_weights h2 h3 → same_weights h1 h3.
Proof. intros H12 H23 p. by rewrite H23. Qed.

Lemma same_weights_layer_ok h h' k v :
  same_weights h h' → layer_ok h k v → layer_ok h' k v.
Proof.
  intros Hw Hv. unfold layer_ok. eapply Forall_impl; [exact Hv|].
  intros p. apply neuron_ok_ext, fmap_length_weights, Hw.
Qed.

Lemma setInputs_returns h v (pixels : list Z) :
  layer_ok h 0 v → (length v ≤ length pixels)%nat →
  returns (setInputs v pixels h) (same_weights h) no_fault.
Proof.
  intros Hv Hlen. unfold setInputs.
  apply (for_loop_returns (λ _, same_weights h)); [apply same_weights_refl|].
  intros i hi Hi Hw.
  destruct (lookup_lt_is_Some_2 pixels i) as [px ->]; [lia|]. simpl.
  destruct (at_index_lt v i Hi) as (a & Ha & ->). simpl.
  destruct (setNodeValue_ok hi 0 a (IZR px / 255)) as (n & Hn & ->).
  { eapply layer_ok_lookup; [|exact Ha]. by apply (same_weights_layer_ok h). }
  simpl. intros p. destruct (decide (p = a)) as [->|Hne].
  - rewrite lookup_insert_eq. simpl. by rewrite <- Hw, Hn.
  - rewrite lookup_insert_ne by done. apply Hw.
Qed.

Lemma forwardPass_ok h (vpInputLayer vpHiddenLayer vpOutputLayer : layer)
    (pixels : list Z) :
  layer_ok h (length vpHiddenLayer) vpInputLayer →
  layer_ok h (length vpOutputLayer) vpHiddenLayer →
  layer_ok h 0 vpOutputLayer →
  NoDup (vpInputLayer ++ vpHiddenLayer ++ vpOutputLayer) →
  (length vpInputLayer ≤ length pixels)%nat →
  ∃ h', forwardPass vpInputLayer vpHiddenLayer vpOutputLayer pixels h = Ok h'
        ∧ same_weights h h'.
Proof.
  intros HA HB HC Hnd Hpx.
  apply NoDup_app in Hnd as (HndA & HdisjA & Hnd).
  apply NoDup_app in Hnd as (HndB & HdisjB & HndC).
  assert (H0 : ∀ g k v, layer_ok g k v → layer_ok g 0 v).
  { intros g k v Hv. unfold layer_ok in *. eapply Forall_impl; [exact Hv|].
    intros p. apply neuron_ok_le. lia. }
  unfold forwardPass.
  destruct (returns_ok _ _ (setInputs_returns h vpInputLayer pixels
                              (H0 _ _ _ HA) Hpx)) as (h1 & -> & Hw1).
  simpl.
  assert (HA1 := same_weights_layer_ok _ _ _ _ Hw1 HA).
  assert (HB1 := same_weights_layer_ok _ _ _ _ Hw1 HB).
  assert (HdisjA' : ∀ p, p ∈ vpInputLayer → p ∉ vpHiddenLayer).
  { intros p Hp Hin. apply (HdisjA p Hp). apply elem_of_app. by left. }
  destruct (returns_ok _ _ (dotProd_returns h1 vpInputLayer vpHiddenLayer
                              HA1 (H0 _ _ _ HB1) HndB HdisjA'))
    as (h2 & -> & _ & _ & Hw2).
  simpl.
  pose proof (same_weights_trans _ _ _ Hw1 Hw2) as Hw12.
  destruct (returns_ok _ _ (dotProd_returns h2 vpHiddenLayer vpOutputLayer
              (same_weights_layer_ok _ _ _ _ Hw12 HB)
              (same_weights_layer_ok _ _ _ _ Hw12 HC)
              HndC HdisjB))
    as (h3 & -> & _ & _ & Hw3).
  exists h3. split; [done|]. by eapply same_weights_trans.
Qed.

Lemma computeResultErrorRate_returns h (vpOutputLayer : layer) (digit : nat) :
  layer_ok h 0 vpOutputLayer →
  (length vpOutputLayer ≤ numNeuronsOutputLayer)%nat →
  returns (computeResultErrorRate vpOutputLayer digit h)
    (λ e, a1_size e = numNeuronsOutputLayer ∧
          ∀ k c, vpOutputLayer !! k = Some c →
            a1_cells e !! k
            = Some ((if decide (digit = k) then 1 else 0) - value h c))
    no_fault.
Proof.
  intros HC Hlen. unfold computeResultErrorRate.
  eapply returns_mono; [| |
    apply (for_loop_returns
             (λ i e, a1_size e = numNeuronsOutputLayer ∧
                     ∀ k c, (k < i)%nat → vpOutputLayer !! k = Some c →
                       a1_cells e !! k
                       = Some ((if decide (digit = k) then 1 else 0)
                               - value h c))
             no_fault (length vpOutputLayer))].
  - simpl. intros e [Hsz Hcells]. split; [done|]. intros k c Hc.
    apply Hcells; [|done]. by eapply lookup_lt_Some.
  - done.
  - split; [done|]. intros; lia.
  - intros i e Hi [Hsz Hcells].
    unfold write1 at 1. rewrite decide_True by lia. simpl.
    destruct (at_index_lt vpOutputLayer i Hi) as (c & Hc & ->). simpl.
    rewrite (getNodeValue_ok h 0 c) by (by eapply layer_ok_lookup). simpl.
    unfold read1; simpl. rewrite decide_True by lia.
    rewrite lookup_insert_eq. simpl.
    unfold write1; simpl. rewrite decide_True by lia. simpl.
    split; [done|]. intros k c' Hk Hc'.
    destruct (decide (k = i)) as [->|Hne].
    + rewrite Hc in Hc'. injection Hc' as <-. by rewrite lookup_insert_eq.
    + do 2 (rewrite lookup_insert_ne by done). apply Hcells; [lia|done].
Qed.

End TrainSample.

(** ** The predicted digit *)

Section Prediction.
Local Open Scope R_scope.
Variables (h : heap) (vpOutputLayer : layer).
Hypothesis HC : layer_ok h 0 vpOutputLayer.
Hypothesis Hlen : (length vpOutputLayer ≤ numNeuronsOutputLayer)%nat.

Lemma allPredictions_returns :
  returns
    (for_loop (length vpOutputLayer) (fun i preds =>
       let* c := at_index vpOutputLayer i in
       let* x := getNodeValue h c in
       write1 BufAllPredictions preds i x) (new1 numNeuronsOutputLayer))
    (λ a, a1_size a = numNeuronsOutputLayer ∧
          ∀ k c, vpOutputLayer !! k = Some c →
            a1_cells a !! k = Some (value h c))
    no_fault.
Proof.
  eapply returns_mono; [| |
    apply (for_loop_returns
             (λ i a, a1_size a = numNeuronsOutputLayer ∧
                     ∀ k c, (k < i)%nat → vpOutputLayer !! k = Some c →
                       a1_cells a !! k = Some (value h c))
             no_fault (length vpOutputLayer))].
  - simpl. intros a [Hsz Hcells]. split; [done|]. intros k c Hc.
    apply Hcells; [|done]. by eapply lookup_lt_Some.
  - done.
  - split; [done|]. intros; lia.
  - intros i a Hi [Hsz Hcells].
    destruct (at_index_lt vpOutputLayer i Hi) as (c & Hc & ->). simpl.
    rewrite (getNodeValue_ok h 0 c) by (by eapply layer_ok_lookup). simpl.
    unfold write1. rewrite decide_True by lia. simpl.
    split; [done|]. intros k c' Hk Hc'.
    destruct (decide (k = i)) as [->|Hne].
    + rewrite Hc in Hc'. injection Hc' as <-. by rewrite lookup_insert_eq.
    + rewrite lookup_insert_ne by done. apply Hcells; [lia|done].
Qed.

(** The scan for the maximum keeps, after [i] output neurons, an upper bound
    [m] of the activations seen and, once assigned, the last index at which
    that bound was met. *)
Lemma scan_returns (preds : array1) :
  a1_size preds = numNeuronsOutputLayer →
  (∀ k c, vpOutputLayer !! k = Some c → a1_cells preds !! k = Some (value h c)) →
  returns
    (for_loop (length vpOutputLayer) (fun i '(maxAccuracy, number) =>
       let* p := read1 BufAllPredictions preds i in
       if Rge_dec p maxAccuracy
       then let* m := read1 BufAllPredictions preds i in Ok (m, Some i)
       else Ok (maxAccuracy, number)) (0, None))
    (λ st,
       0 <= fst st ∧
       (∀ k c, vpOutputLayer !! k = Some c → value h c <= fst st) ∧
       match snd st with
       | None => ∀ k c, vpOutputLayer !! k = Some c → value h c < 0
       | Some n =>
           (∃ c, vpOutputLayer !! n = Some c ∧ value h c = fst st) ∧
           ∀ k c, (n < k)%nat → vpOutputLayer !! k = Some c →
                  value h c < fst st
       end)
    no_fault.
Proof.
  intros Hsz Hcells.
  eapply returns_mono; [| |
    apply (for_loop_returns
      (λ i (st : R * option nat),
         0 <= fst st ∧
         (∀ k c, (k < i)%nat → vpOutputLayer !! k = Some c →
                 value h c <= fst st) ∧
         match snd st with
         | None => fst st = 0 ∧
                   ∀ k c, (k < i)%nat → vpOutputLayer !! k = Some c →
                          value h c < 0
         | Some n =>
             (∃ c, vpOutputLayer !! n = Some c ∧ value h c = fst st) ∧
             ∀ k c, (n < k < i)%nat → vpOutputLayer !! k = Some c →
                    value h c < fst st
         end)
      no_fault (length vpOutputLayer))].
  - simpl. intros [m number] (Hm & Hub & Hnum). simpl in *.
    split; [done|]. split.
    { intros k c Hc. apply (Hub k c); [|done]. by eapply lookup_lt_Some. }
    destruct number as [n|].
    + destruct Hnum as [Hn Hlast]. split; [done|].
      intros k c Hk Hc. apply (Hlast k c); [|done].
      split; [done|]. by eapply lookup_lt_Some.
    + destruct Hnum as [_ Hnum].
      intros k c Hc. apply (Hnum k c); [|done]. by eapply lookup_lt_Some.
  - done.
  - simpl. split; [lra|]. split; [intros; lia|]. split; [done | intros; lia].
  - intros i [m number] Hi (Hm & Hub & Hnum). simpl in *.
    destruct (lookup_lt_is_Some_2 vpOutputLayer i Hi) as [ci Hci].
    rewrite (read1_ok _ preds i (value h ci)) by (lia || auto). simpl.
    destruct (Rge_dec (value h ci) m) as [Hge|Hlt]; simpl.
    + split; [lra|]. split.
      * intros k c Hk Hc. destruct (decide (k = i)) as [->|Hne].
        -- rewrite Hci in Hc. injection Hc as <-. lra.
        -- specialize (Hub k c). assert (k < i)%nat by lia.
           specialize (Hub H Hc). lra.
      * split; [by exists ci|]. intros; lia.
    + split; [done|]. split.
      * intros k c Hk Hc. destruct (decide (k = i)) as [->|Hne].
        -- rewrite Hci in Hc. injection Hc as <-. lra.
        -- apply (Hub k c); [lia|done].
      * destruct number as [n|].
        -- destruct Hnum as [Hn Hlast]. split; [done|].
           intros k c Hk Hc. destruct (decide (k = i)) as [->|Hne].
           ++ rewrite Hci in Hc. injection Hc as <-. lra.
           ++ apply (Hlast k c); [lia|done].
        -- destruct Hnum as [Hm0 Hnum]. split; [done|].
           intros k c Hk Hc. destruct (decide (k = i)) as [->|Hne].
           ++ rewrite Hci in Hc. injection Hc as <-. lra.
           ++ apply (Hnum k c); [lia|done].
Qed.

(** The stored index is the last one at which the maximum is attained;
    [number] is read without ever being assigned exactly when every
    activation is negative. *)
Lemma predictedNumber_returns :
  returns (predictedNumber vpOutputLayer h)
    (λ n, ∃ c, vpOutputLayer !! n = Some c ∧
       (∀ k c', vpOutputLayer !! k = Some c' → value h c' <= value h c) ∧
       (∀ k c', (n < k)%nat → vpOutputLayer !! k = Some c' →
                value h c' < value h c))
    (λ f, f = UninitialisedNumber ∧
          ∀ k c, vpOutputLayer !! k = Some c → value h c < 0).
Proof.
  unfold predictedNumber.
  destruct (returns_ok _ _ allPredictions_returns) as (preds & -> & Hsz & Hcells).
  simpl.
  destruct (returns_ok _ _ (scan_returns preds Hsz Hcells))
    as ([m number] & -> & Hm & Hub & Hnum).
  simpl in *. destruct number as [n|]; simpl.
  - destruct Hnum as [(c & Hc & Hval) Hlast].
    exists c. rewrite Hval. by repeat split.
  - done.
Qed.

End Prediction.

Section PredictionSpec.
Local Open Scope R_scope.

Lemma value_example_outputs :
  value example_outputs 0 = 0.5 ∧ value example_outputs 1 = 0.9 ∧
  value example_outputs 2 = 0.9 ∧ value example_outputs 3 = 0.1.
Proof.
  unfold value, example_outputs. split; [|split; [|split]].
  - by rewrite lookup_insert_eq.
  - rewrite lookup_insert_ne by lia. by rewrite lookup_insert_eq.
  - do 2 (rewrite lookup_insert_ne by lia). by rewrite lookup_insert_eq.
  - do 3 (rewrite lookup_insert_ne by lia). by rewrite lookup_insert_eq.
Qed.

Lemma example_outputs_ok : layer_ok example_outputs 0 [0; 1; 2; 3]%nat.
Proof. by_decision. Qed.

(** C5 as stated fails: for the output activations [0.5, 0.9, 0.9, 0.1] the
    scan with [>=] lets the second 0.9 overwrite the stored index, and the
    predicted class is 2, not 1. *)
Lemma predicted_class_counterexample :
  predictedNumber [0; 1; 2; 3]%nat example_outputs = Ok 2%nat ∧
  predictedNumber [0; 1; 2; 3]%nat example_outputs ≠ Ok 1%nat.
Proof.
  destruct value_example_outputs as (H0 & H1 & H2 & H3).
  assert (Hlen : (length [0; 1; 2; 3]%nat ≤ numNeuronsOutputLayer)%nat)
    by (unfold numNeuronsOutputLayer; simpl; lia).
  pose proof (predictedNumber_returns example_outputs [0; 1; 2; 3]%nat
                example_outputs_ok Hlen) as Hret.
  destruct (predictedNumber [0; 1; 2; 3]%nat example_outputs) as [n|f] eqn:Hrun;
    simpl in Hret.
  2:{ destruct Hret as [_ Hneg]. specialize (Hneg 0%nat 0%nat eq_refl). lra. }
  destruct Hret as (c & Hc & Hmax & Hlast).
  assert (n = 2%nat) as ->.
  { destruct n as [|[|[|[|n]]]]; simpl in Hc; try discriminate;
      injection Hc as <-; [| |done|].
    - specialize (Hmax 1%nat 1%nat eq_refl). lra.
    - specialize (Hlast 2%nat 2%nat). simpl in Hlast.
      assert (1 < 2)%nat as Hlt by lia. specialize (Hlast Hlt eq_refl). lra.
    - specialize (Hmax 1%nat 1%nat eq_refl). lra. }
  split; [done | discriminate].
Qed.

(** C5, amended. The predicted class is an argmax of the output activations
    with ties broken in favour of the highest index: when some activation is
    non-negative, the scan ends with an index [n] whose activation is maximal
    and strictly greater than every later one, so a later value equal to the
    current maximum does overwrite the stored index. *)
Theorem predicted_class_last_max (h : heap) (vpOutputLayer : layer) :
  layer_ok h 0 vpOutputLayer →
  (length vpOutputLayer ≤ numNeuronsOutputLayer)%nat →
  (∃ k c, vpOutputLayer !! k = Some c ∧ 0 <= value h c) →
  ∃ n c, predictedNumber vpOutputLayer h = Ok n ∧
    vpOutputLayer !! n = Some c ∧
    (∀ k c', vpOutputLayer !! k = Some c' → value h c' <= value h c) ∧
    (∀ k c', (n < k)%nat → vpOutputLayer !! k = Some c' →
             value h c' < value h c).
Proof.
  intros HC Hlen (k0 & c0 & Hc0 & Hpos).
  pose proof (predictedNumber_returns h vpOutputLayer HC Hlen) as Hret.
  destruct (predictedNumber vpOutputLayer h) as [n|f]; simpl in Hret.
  - destruct Hret as (c & Hc & Hmax & Hlast). by exists n, c.
  - destruct Hret as [_ Hneg]. specialize (Hneg k0 c0 Hc0). lra.
Qed.

Lemma predicted_class_last_max_witness :
  ∃ n c, predictedNumber [0; 1; 2; 3]%nat example_outputs = Ok n ∧
    [0; 1; 2; 3]%nat !! n = Some c ∧
    (∀ k c', [0; 1; 2; 3]%nat !! k = Some c' →
             value example_outputs c' <= value example_outputs c) ∧
    (∀ k c', (n < k)%nat → [0; 1; 2; 3]%nat !! k = Some c' →
             value example_outputs c' < value example_outputs c).
Proof.
  apply (predicted_class_last_max example_outputs [0; 1; 2; 3]%nat).
  - by_decision.
  - unfold numNeuronsOutputLayer; simpl; lia.
  - exists 0%nat, 0%nat. split; [reflexivity|].
    destruct value_example_outputs as (-> & _). lra.
Defined.

End PredictionSpec.

(** ** The sigmoid function *)

Section Sigmoid.
Local Open Scope R_scope.

Lemma sigmoid_at_0 : applySigmoidFunction 0 = 1 / 2.
Proof. unfold applySigmoidFunction. rewrite Ropp_0, exp_0. lra. Qed.

Lemma sigmoid_range (x : R) : 0 < applySigmoidFunction x < 1.
Proof.
  unfold applySigmoidFunction. pose proof (exp_pos (- x)) as He.
  split.
  - apply Rdiv_lt_0_compat; lra.
  - apply (Rmult_lt_reg_r (1 + exp (- x))); [lra|].
    unfold Rdiv. rewrite Rmult_assoc, Rinv_l by lra. lra.
Qed.

Lemma sigmoid_increasing (x y : R) :
  x < y → applySigmoidFunction x < applySigmoidFunction y.
Proof.
  intros Hxy. unfold applySigmoidFunction.
  pose proof (exp_pos (- x)) as Hx. pose proof (exp_pos (- y)) as Hy.
  assert (Hlt : exp (- y) < exp (- x)) by (apply exp_increasing; lra).
  unfold Rdiv. rewrite !Rmult_1_l.
  apply Rinv_lt_contravar; [|lra].
  apply Rmult_lt_0_compat; lra.
Qed.

End Sigmoid.

Section SigmoidIEEE.
Import IEEE.

Lemma ieee_sigmoid_at_0 :
  IEEE.applySigmoidFunction (float_of_Z 0) = Some (S754_finite false 8388608 (-24)).
Proof. vm_compute. reflexivity. Qed.

(** Where [exp(-val)] overflows the quotient is [1 / inf]. *)
Lemma ieee_sigmoid_saturates (val : spec_float) :
  exp_overflows (to_double (SFopp val)) = true →
  IEEE.applySigmoidFunction val = Some (S754_zero false).
Proof.
  unfold IEEE.applySigmoidFunction. intros Hov.
  destruct (to_double (SFopp val)) as [s|s| |s m e]; simpl.
  - by destruct s.
  - by destruct s.
  - done.
  - by rewrite Hov.
Qed.

End SigmoidIEEE.

Section SigmoidSpec.
Local Open Scope R_scope.

(** C6 as stated fails on the [float] arithmetic of the code: at the finite
    inputs -1000 and -2000, [exp(-val)] overflows to +inf and the result is
    exactly 0, which is not strictly positive, and the two results are equal
    although -2000 < -1000. *)
Lemma sigmoid_float_counterexample :
  IEEE.is_finite (IEEE.float_of_Z (-1000)) = true ∧
  IEEE.is_finite (IEEE.float_of_Z (-2000)) = true ∧
  IEEE.applySigmoidFunction (IEEE.float_of_Z (-1000)) = Some (S754_zero false) ∧
  IEEE.applySigmoidFunction (IEEE.float_of_Z (-2000)) = Some (S754_zero false) ∧
  SFltb (S754_zero false) (S754_zero false) = false ∧
  SFltb (IEEE.float_of_Z (-2000)) (IEEE.float_of_Z (-1000)) = true.
Proof. vm_compute. repeat split. Qed.

(** C6, amended. On real numbers the sigmoid function takes the value 1/2 at
    0, is strictly increasing and lies strictly between 0 and 1.  In the
    [float] arithmetic of the code the value at 0 is exactly 0.5 as well, but
    the result saturates: whenever [exp(-val)] overflows (from [val = -710]
    downwards) the result is exactly 0. *)
Theorem sigmoid_properties :
  applySigmoidFunction 0 = 1 / 2 ∧
  (∀ x y : R, x < y → applySigmoidFunction x < applySigmoidFunction y) ∧
  (∀ x : R, 0 < applySigmoidFunction x < 1) ∧
  IEEE.applySigmoidFunction (IEEE.float_of_Z 0)
  = Some (SFdiv 24 128 (IEEE.float_of_Z 1) (IEEE.float_of_Z 2)) ∧
  (∀ val : spec_float,
     IEEE.exp_overflows (IEEE.to_double (SFopp val)) = true →
     IEEE.applySigmoidFunction val = Some (S754_zero false)).
Proof.
  split; [apply sigmoid_at_0|]. split; [apply sigmoid_increasing|].
  split; [apply sigmoid_range|]. split; [apply ieee_sigmoid_at_0|].
  apply ieee_sigmoid_saturates.
Qed.

Lemma sigmoid_properties_witness :
  applySigmoidFunction 0 < applySigmoidFunction 1 ∧
  IEEE.applySigmoidFunction (IEEE.float_of_Z (-710)) = Some (S754_zero false).
Proof.
  destruct sigmoid_properties as (_ & Hinc & _ & _ & Hsat). split.
  - apply Hinc. lra.
  - apply Hsat. vm_compute. reflexivity.
Defined.

End SigmoidSpec.

(** ** The uniform integer generator *)

Section RandomSpec.
Local Open Scope Z_scope.
Variable mt19937 : Type.
Variable mt19937_seed : Z → mt19937.
Variable uniform_int_distribution : Z → Z → mt19937 → Z * mt19937.

(** The contract of [std::uniform_int_distribution] in the C++ standard: for
    a distribution constructed with [a <= b], each number drawn lies in the
    closed interval from [a] to [b]. *)
Hypothesis distribution_range :
  ∀ a b g, a ≤ b → a ≤ fst (uniform_int_distribution a b g) ≤ b.

(** C8. For [min <= max] and every state of the generator, also before its
    first use, [u min max] returns a number of the closed interval from [min]
    to [max]; in particular [u 5 5] returns 5 on every call. *)
Theorem u_range :
  (∀ seed min max generator, min ≤ max →
     min ≤ fst (Random.u mt19937 mt19937_seed uniform_int_distribution
                  seed min max generator) ≤ max) ∧
  (∀ seed generator,
     fst (Random.u mt19937 mt19937_seed uniform_int_distribution
            seed 5 5 generator) = 5).
Proof.
  assert (Hu : ∀ seed min max generator, min ≤ max →
            min ≤ fst (Random.u mt19937 mt19937_seed uniform_int_distribution
                         seed min max generator) ≤ max).
  { intros seed min max generator Hle. unfold Random.u.
    set (g := match generator with
              | Some g => g
              | None => mt19937_seed (seed mod 2 ^ 32)
              end).
    pose proof (distribution_range min max g Hle) as Hr.
    destruct (uniform_int_distribution min max g) as [r g']. exact Hr. }
  split; [exact Hu|].
  intros seed generator. specialize (Hu seed 5 5 generator). lia.
Qed.

End RandomSpec.

Lemma lcg_distribution_range (a b g : Z) :
  (a ≤ b)%Z → (a ≤ fst (Random.lcg_distribution a b g) ≤ b)%Z.
Proof.
  intros Hab. unfold Random.lcg_distribution. simpl.
  pose proof (Z.mod_pos_bound g (b - a + 1)). lia.
Qed.

Lemma u_range_witness :
  (3 ≤ fst (Random.u Z Random.lcg_seed Random.lcg_distribution
              42 3 9 None) ≤ 9)%Z ∧
  fst (Random.u Z Random.lcg_seed Random.lcg_distribution
         42 5 5 (Some 7%Z)) = 5%Z.
Proof.
  destruct (u_range Z Random.lcg_seed Random.lcg_distribution
              lcg_distribution_range) as [Hrange Hfive].
  split; [apply Hrange; lia | apply Hfive].
Defined.

(* ===================================================================== *)
(** * Further properties of the code *)

(** ** The forward pass as a whole *)

Section ForwardPass.
Local Open Scope R_scope.
Implicit Types (h : heap) (v : layer).

Lemma not_elem_of_take v i p : p ∉ v → p ∉ take i v.
Proof. intros Hp (k & Hk & _)%elem_of_take. apply Hp. by eapply list_elem_of_lookup_2. Qed.

(** [setInputs] stores the scaled pixels and touches nothing else. *)
Lemma setInputs_values h v (pixels : list Z) :
  layer_ok h 0 v → NoDup v → (length v ≤ length pixels)%nat →
  returns (setInputs v pixels h)
    (λ h', same_weights h h' ∧
           (∀ p, p ∉ v → h' !! p = h !! p) ∧
           ∀ i a px, v !! i = Some a → pixels !! i = Some px →
                     value h' a = IZR px / 255)
    no_fault.
Proof.
  intros Hv Hnd Hlen. unfold setInputs.
  eapply returns_mono; [| |
    apply (for_loop_returns
             (λ i h', same_weights h h' ∧
                      (∀ p, p ∉ take i v → h' !! p = h !! p) ∧
                      ∀ k a px, (k < i)%nat → v !! k = Some a →
                                pixels !! k = Some px →
                                value h' a = IZR px / 255)
             no_fault (length v))].
  - simpl. intros h' (Hw & Hfr & Hval). split; [done|]. split.
    + intros p Hp. by apply Hfr, not_elem_of_take.
    + intros i a px Ha Hpx. apply (Hval i a px); [|done|done].
      by eapply lookup_lt_Some.
  - done.
  - split; [apply same_weights_refl|]. split; [done|]. intros; lia.
  - intros i hi Hi (Hw & Hfr & Hval).
    destruct (lookup_lt_is_Some_2 pixels i) as [px Hpx]; [lia|].
    rewrite Hpx. simpl.
    destruct (at_index_lt v i Hi) as (a & Ha & ->). simpl.
    destruct (setNodeValue_ok hi 0 a (IZR px / 255)) as (n & Hn & ->).
    { eapply layer_ok_lookup; [|exact Ha]. by apply (same_weights_layer_ok h). }
    simpl. split; [|split].
    + intros p. destruct (decide (p = a)) as [->|Hne].
      * rewrite lookup_insert_eq. simpl. by rewrite <- Hw, Hn.
      * rewrite lookup_insert_ne by done. apply Hw.
    + intros p Hp. rewrite (take_S_r _ _ a) in Hp by done.
      apply not_elem_of_app in Hp as [Hp1 Hp2].
      rewrite lookup_insert_ne; [by apply Hfr|].
      intros ->. apply Hp2. by apply list_elem_of_singleton.
    + intros k a' px' Hk Ha' Hpx'. destruct (decide (k = i)) as [->|Hne].
      * rewrite Ha in Ha'. injection Ha' as <-.
        rewrite Hpx in Hpx'. injection Hpx' as <-.
        unfold value. by rewrite lookup_insert_eq.
      * assert (a' ≠ a).
        { intros ->. apply Hne. by eapply NoDup_lookup. }
        unfold value at 1. rewrite lookup_insert_ne by done.
        apply (Hval k a' px'); [lia|done|done].
Qed.

(** The three steps of the forward pass, stated on the final heap. *)
Lemma forwardPass_returns h (vpInputLayer vpHiddenLayer vpOutputLayer : layer)
    (pixels : list Z) :
  layer_ok h (length vpHiddenLayer) vpInputLayer →
  layer_ok h (length vpOutputLayer) vpHiddenLayer →
  layer_ok h 0 vpOutputLayer →
  NoDup (vpInputLayer ++ vpHiddenLayer ++ vpOutputLayer) →
  (length vpInputLayer ≤ length pixels)%nat →
  returns (forwardPass vpInputLayer vpHiddenLayer vpOutputLayer pixels h)
    (λ h', same_weights h h' ∧
       (∀ p, p ∉ vpInputLayer → p ∉ vpHiddenLayer → p ∉ vpOutputLayer →
             h' !! p = h !! p) ∧
       (∀ i a px, vpInputLayer !! i = Some a → pixels !! i = Some px →
                  value h' a = IZR px / 255) ∧
       (∀ j b, vpHiddenLayer !! j = Some b →
               value h' b
               = applySigmoidFunction (weightedInput h' vpInputLayer j)) ∧
       (∀ k c, vpOutputLayer !! k = Some c →
               value h' c
               = applySigmoidFunction (weightedInput h' vpHiddenLayer k)))
    no_fault.
Proof.
  intros HA HB HC Hnd Hpx.
  apply NoDup_app in Hnd as (HndA & HdisjA & Hnd).
  apply NoDup_app in Hnd as (HndB & HdisjB & HndC).
  assert (HAB : ∀ p, p ∈ vpInputLayer → p ∉ vpHiddenLayer).
  { intros p Hp Hin. apply (HdisjA p Hp). apply elem_of_app. by left. }
  assert (HAC : ∀ p, p ∈ vpInputLayer → p ∉ vpOutputLayer).
  { intros p Hp Hin. apply (HdisjA p Hp). apply elem_of_app. by right. }
  assert (H0 : ∀ g k v, layer_ok g k v → layer_ok g 0 v).
  { intros g k v Hv. unfold layer_ok in *. eapply Forall_impl; [exact Hv|].
    intros p. apply neuron_ok_le. lia. }
  unfold forwardPass.
  destruct (returns_ok _ _ (setInputs_values h vpInputLayer pixels
                              (H0 _ _ _ HA) HndA Hpx))
    as (h1 & -> & Hw1 & Hfr1 & Hval1).
  simpl.
  assert (HA1 := same_weights_layer_ok _ _ _ _ Hw1 HA).
  assert (HB1 := same_weights_layer_ok _ _ _ _ Hw1 HB).
  destruct (returns_ok _ _ (dotProd_returns h1 vpInputLayer vpHiddenLayer
                              HA1 (H0 _ _ _ HB1) HndB HAB))
    as (h2 & -> & Hfr2 & Hval2 & Hw2).
  simpl.
  pose proof (same_weights_trans _ _ _ Hw1 Hw2) as Hw12.
  destruct (returns_ok _ _ (dotProd_returns h2 vpHiddenLayer vpOutputLayer
              (same_weights_layer_ok _ _ _ _ Hw12 HB)
              (same_weights_layer_ok _ _ _ _ Hw12 HC)
              HndC HdisjB))
    as (h3 & -> & Hfr3 & Hval3 & Hw3).
  simpl.
  assert (E32 : ∀ p, p ∉ vpOutputLayer → h3 !! p = h2 !! p).
  { intros p Hp. by apply Hfr3, not_elem_of_take. }
  assert (E21 : ∀ p, p ∉ vpHiddenLayer → h2 !! p = h1 !! p).
  { intros p Hp. by apply Hfr2, not_elem_of_take. }
  split; [by eapply same_weights_trans|]. split; [|split; [|split]].
  - intros p HpA HpB HpC. rewrite E32, E21 by done. by apply Hfr1.
  - intros i a px Ha Hp.
    assert (a ∈ vpInputLayer) by (by eapply list_elem_of_lookup_2).
    rewrite (value_ext h2 h3), (value_ext h1 h2) by auto.
    by apply (Hval1 i a px).
  - intros j b Hb.
    assert (b ∈ vpHiddenLayer) by (by eapply list_elem_of_lookup_2).
    rewrite (value_ext h2 h3) by auto.
    rewrite (Hval2 j b) by (by eapply lookup_lt_Some || done).
    f_equal. symmetry. apply weightedInput_ext.
    intros a Ha. rewrite E32, E21 by auto. done.
  - intros k c Hc.
    rewrite (Hval3 k c) by (by eapply lookup_lt_Some || done).
    f_equal. symmetry. apply weightedInput_ext.
    intros b Hb. apply E32. by apply HdisjB.
Qed.

End ForwardPass.

(** ** More on [dotProd] *)

Section DotProdMore.
Local Open Scope R_scope.

Lemma neuron_eq (x y : option CNeuron) :
  m_value <$> x = m_value <$> y → m_weights <$> x = m_weights <$> y → x = y.
Proof. destruct x as [[]|], y as [[]|]; simpl; congruence. Qed.

Lemma value_fmap (h h' : heap) (p : nat) :
  is_Some (h !! p) → is_Some (h' !! p) → value h' p = value h p →
  m_value <$> (h' !! p) = m_value <$> (h !! p).
Proof. unfold value. intros [n ->] [n' ->]. simpl. congruence. Qed.

Lemma same_weights_is_Some (h h' : heap) (p : nat) :
  same_weights h h' → is_Some (h !! p) → is_Some (h' !! p).
Proof.
  intros Hw [n Hn]. specialize (Hw p). rewrite Hn in Hw.
  destruct (h' !! p); [eauto | done].
Qed.

Lemma layer_ok_is_Some (h : heap) k (v : layer) p :
  layer_ok h k v → p ∈ v → is_Some (h !! p).
Proof.
  intros Hv Hp. destruct (neuron_ok_lookup h k p) as (n & -> & _); [|eauto].
  by eapply layer_ok_elem.
Qed.

(** X3. [dotProd] is idempotent: as it does not touch the upstream layer, a
    second call on the same two layers recomputes the same activations and
    leaves the heap exactly as the first call left it. *)
Theorem dotProd_idempotent (h : heap) (vpLayerA vpLayerB : layer) :
  layer_ok h (length vpLayerB) vpLayerA →
  layer_ok h 0 vpLayerB →
  NoDup (vpLayerA ++ vpLayerB) →
  ∃ h', dotProd vpLayerA vpLayerB h = Ok h' ∧
        dotProd vpLayerA vpLayerB h' = Ok h'.
Proof.
  intros HA HB (_ & Hdisj & HndB)%NoDup_app.
  destruct (returns_ok _ _ (dotProd_returns h vpLayerA vpLayerB HA HB HndB Hdisj))
    as (h' & Hrun & Hfr & Hval & Hw).
  exists h'. split; [done|].
  assert (HA' := same_weights_layer_ok _ _ _ _ Hw HA).
  assert (HB' := same_weights_layer_ok _ _ _ _ Hw HB).
  destruct (returns_ok _ _ (dotProd_returns h' vpLayerA vpLayerB
                              HA' HB' HndB Hdisj))
    as (h'' & Hrun' & Hfr' & Hval' & Hw').
  rewrite Hrun'. f_equal. apply map_eq. intros p.
  destruct (decide (p ∈ vpLayerB)) as [Hin|Hout].
  - apply neuron_eq; [|apply Hw'].
    assert (Hp' : is_Some (h' !! p)) by (by eapply layer_ok_is_Some).
    apply value_fmap; [done | by eapply same_weights_is_Some|].
    apply list_elem_of_lookup_1 in Hin as [j Hj].
    assert (j < length vpLayerB)%nat by (by eapply lookup_lt_Some).
    rewrite (Hval' j p), (Hval j p) by done.
    f_equal. apply weightedInput_ext. intros a Ha.
    by apply Hfr, not_elem_of_take, Hdisj.
  - by apply Hfr', not_elem_of_take.
Qed.

Lemma dotProd_idempotent_witness :
  ∃ h', dotProd [0%nat] [1%nat] (tiny_heap 1 2 0 3 0) = Ok h' ∧
        dotProd [0%nat] [1%nat] h' = Ok h'.
Proof.
  apply (dotProd_idempotent (tiny_heap 1 2 0 3 0) [0%nat] [1%nat]);
    by_decision.
Defined.

(** X4. [dotProd] from an empty upstream layer: the weighted sum is empty
    and every downstream activation becomes [sigmoid(0)], that is 1/2. *)
Theorem dotProd_empty_upstream (h : heap) (vpLayerB : layer) :
  layer_ok h 0 vpLayerB → NoDup vpLayerB →
  ∃ h', dotProd [] vpLayerB h = Ok h' ∧
        ∀ b, b ∈ vpLayerB → value h' b = 1 / 2.
Proof.
  intros HB Hnd.
  destruct (returns_ok _ _ (dotProd_returns h [] vpLayerB
              (Forall_nil_2 _) HB Hnd (λ p Hp, False_ind _ (not_elem_of_nil p Hp))))
    as (h' & Hrun & _ & Hval & _).
  exists h'. split; [done|].
  intros b (j & Hj)%list_elem_of_lookup_1.
  rewrite (Hval j b) by (by eapply lookup_lt_Some || done).
  unfold weightedInput. simpl. apply sigmoid_at_0.
Qed.

Lemma dotProd_empty_upstream_witness :
  ∃ h', dotProd [] [1%nat] (tiny_heap 1 2 0 3 0) = Ok h' ∧
        ∀ b, b ∈ [1%nat] → value h' b = 1 / 2.
Proof.
  apply (dotProd_empty_upstream (tiny_heap 1 2 0 3 0) [1%nat]); by_decision.
Defined.

End DotProdMore.

(** ** Edge cases of the prediction and of the error vector *)

Section Bounds.
Local Open Scope R_scope.

(** A loop that stopped on a fault stops on it whatever the bound. *)
Lemma for_loop_fault_mono {S : Type} (n m : nat) body (s : S) f :
  (m ≤ n)%nat → for_loop m body s = Fault f → for_loop n body s = Fault f.
Proof.
  intros Hmn Hm. induction n as [|n IH].
  - assert (m = 0%nat) as -> by lia. done.
  - destruct (decide (m = Datatypes.S n)) as [->|Hne]; [done|].
    simpl. rewrite IH by lia. done.
Qed.

Lemma for_loop_S {S : Type} (n : nat) body (s : S) :
  for_loop (Datatypes.S n) body s = bind (for_loop n body s) (body n).
Proof. reflexivity. Qed.

Variables (h : heap) (vpOutputLayer : layer).
Hypothesis HC : layer_ok h 0 vpOutputLayer.

Lemma predictedNumber_returns_nonneg :
  (length vpOutputLayer ≤ numNeuronsOutputLayer)%nat →
  returns (predictedNumber vpOutputLayer h)
    (λ n, ∃ c, vpOutputLayer !! n = Some c ∧ 0 <= value h c)
    (λ f, f = UninitialisedNumber ∧
          ∀ c, c ∈ vpOutputLayer → value h c < 0).
Proof.
  intros Hlen. unfold predictedNumber.
  destruct (returns_ok _ _ (allPredictions_returns h vpOutputLayer HC Hlen))
    as (preds & -> & Hsz & Hcells).
  simpl.
  destruct (returns_ok _ _ (scan_returns h vpOutputLayer Hlen preds Hsz Hcells))
    as ([m number] & -> & Hm & Hub & Hnum).
  simpl in *. destruct number as [n|]; simpl.
  - destruct Hnum as [(c & Hc & Hval) _]. exists c. rewrite Hval. done.
  - split; [done|]. intros c (k & Hk)%list_elem_of_lookup_1. by eapply Hnum.
Qed.

(** The first ten cells of [allPredictionsforDigits] are written, the
    eleventh write is outside the array. *)
Lemma allPredictions_overflow :
  (numNeuronsOutputLayer < length vpOutputLayer)%nat →
  for_loop (length vpOutputLayer) (fun i preds =>
    let* c := at_index vpOutputLayer i in
    let* x := getNodeValue h c in
    write1 BufAllPredictions preds i x) (new1 numNeuronsOutputLayer)
  = Fault (OutOfBounds BufAllPredictions).
Proof.
  intros Hlen.
  match goal with |- for_loop _ ?b _ = _ => set (body := b) end.
  apply (for_loop_fault_mono _ (Datatypes.S numNeuronsOutputLayer)); [lia|].
  rewrite for_loop_S.
  assert (H10 : returns (for_loop numNeuronsOutputLayer body
                           (new1 numNeuronsOutputLayer))
                  (λ a, a1_size a = numNeuronsOutputLayer) no_fault).
  { apply (for_loop_returns (λ _ a, a1_size a = numNeuronsOutputLayer));
      [done|].
    intros i a Hi Hsz. unfold body.
    destruct (at_index_lt vpOutputLayer i) as (c & Hc & ->); [lia|]. simpl.
    rewrite (getNodeValue_ok h 0 c) by (by eapply layer_ok_lookup). simpl.
    unfold write1. rewrite decide_True by lia. done. }
  destruct (returns_ok _ _ H10) as (a & -> & Hsz). simpl. unfold body.
  destruct (at_index_lt vpOutputLayer numNeuronsOutputLayer Hlen)
    as (c & Hc & ->). simpl.
  rewrite (getNodeValue_ok h 0 c) by (by eapply layer_ok_lookup). simpl.
  unfold write1. rewrite decide_False by lia. done.
Qed.

Lemma resultErrorRate_overflow (digit : nat) :
  (numNeuronsOutputLayer < length vpOutputLayer)%nat →
  computeResultErrorRate vpOutputLayer digit h
  = Fault (OutOfBounds BufResultErrorRate).
Proof.
  intros Hlen. unfold computeResultErrorRate.
  match goal with |- for_loop _ ?b _ = _ => set (body := b) end.
  apply (for_loop_fault_mono _ (Datatypes.S numNeuronsOutputLayer)); [lia|].
  rewrite for_loop_S.
  assert (H10 : returns (for_loop numNeuronsOutputLayer body
                           (new1 numNeuronsOutputLayer))
                  (λ a, a1_size a = numNeuronsOutputLayer) no_fault).
  { apply (for_loop_returns (λ _ a, a1_size a = numNeuronsOutputLayer));
      [done|].
    intros i a Hi Hsz. unfold body.
    unfold write1 at 1. rewrite decide_True by lia. simpl.
    destruct (at_index_lt vpOutputLayer i) as (c & Hc & ->); [lia|]. simpl.
    rewrite (getNodeValue_ok h 0 c) by (by eapply layer_ok_lookup). simpl.
    unfold read1; simpl. rewrite decide_True by lia.
    rewrite lookup_insert_eq. simpl.
    unfold write1; simpl. rewrite decide_True by lia. done. }
  destruct (returns_ok _ _ H10) as (a & -> & Hsz). simpl. unfold body.
  unfold write1 at 1. rewrite decide_False by lia. done.
Qed.

End Bounds.

Section BoundsSpec.
Local Open Scope R_scope.



(** X6. The capacity of [allPredictionsforDigits]: on a layer of valid output
    neurons the prediction writes outside that array if and only if the
    layer has more than ten neurons. *)
Theorem predictedNumber_capacity (h : heap) (vpOutputLayer : layer) :
  layer_ok h 0 vpOutputLayer →
  (predictedNumber vpOutputLayer h = Fault (OutOfBounds BufAllPredictions)
   ↔ (numNeuronsOutputLayer < length vpOutputLayer)%nat).
Proof.
  intros HC. split.
  - intros Hrun.
    destruct (decide (numNeuronsOutputLayer < length vpOutputLayer)%nat)
      as [|Hle]; [done|].
    assert (Hlen : (length vpOutputLayer ≤ numNeuronsOutputLayer)%nat) by lia.
    pose proof (predictedNumber_returns_nonneg h vpOutputLayer HC Hlen) as Hret.
    rewrite Hrun in Hret. simpl in Hret. by destruct Hret.
  - intros Hlen. unfold predictedNumber.
    by rewrite (allPredictions_overflow h vpOutputLayer HC Hlen).
Qed.

Lemma predictedNumber_capacity_witness :
  predictedNumber (seq 0 11) wide_heap = Fault (OutOfBounds BufAllPredictions)
  ↔ (numNeuronsOutputLayer < length (seq 0 11))%nat.
Proof.
  apply (predictedNumber_capacity wide_heap (seq 0 11)). by_decision.
Defined.

(** X7. The capacity of [resultErrorRate]: on a layer of valid output
    neurons the error vector is computed normally if and only if the layer
    has at most ten neurons; with more, the eleventh write is outside the
    array. *)
Theorem computeResultErrorRate_capacity (h : heap) (vpOutputLayer : layer)
    (digit : nat) :
  layer_ok h 0 vpOutputLayer →
  ((∃ e, computeResultErrorRate vpOutputLayer digit h = Ok e)
   ↔ (length vpOutputLayer ≤ numNeuronsOutputLayer)%nat) ∧
  ((numNeuronsOutputLayer < length vpOutputLayer)%nat →
   computeResultErrorRate vpOutputLayer digit h
   = Fault (OutOfBounds BufResultErrorRate)).
Proof.
  intros HC. split; [split|].
  - intros [e He].
    destruct (decide (length vpOutputLayer ≤ numNeuronsOutputLayer)%nat)
      as [|Hgt]; [done|].
    rewrite (resultErrorRate_overflow h vpOutputLayer HC digit) in He by lia.
    discriminate.
  - intros Hlen.
    destruct (returns_ok _ _ (computeResultErrorRate_returns h vpOutputLayer
                                digit HC Hlen)) as (e & He & _).
    by exists e.
  - apply resultErrorRate_overflow, HC.
Qed.

Lemma computeResultErrorRate_capacity_witness :
  ((∃ e, computeResultErrorRate (seq 0 11) 3 wide_heap = Ok e)
   ↔ (length (seq 0 11) ≤ numNeuronsOutputLayer)%nat) ∧
  ((numNeuronsOutputLayer < length (seq 0 11))%nat →
   computeResultErrorRate (seq 0 11) 3 wide_heap
   = Fault (OutOfBounds BufResultErrorRate)).
Proof.
  apply (computeResultErrorRate_capacity wide_heap (seq 0 11) 3). by_decision.
Defined.

End BoundsSpec.

(** ** One training step and the training loop *)

Section TrainingStep.
Local Open Scope R_scope.
Implicit Types (h : heap).

Lemma same_weights_shape h h' : same_weights h h' → same_shape h h'.
Proof. intros Hw p. apply fmap_length_weights, Hw. Qed.

Lemma same_weights_weight h h' p j :
  same_weights h h' → weight h' p j = weight h p j.
Proof.
  intros Hw. specialize (Hw p). unfold weight.
  destruct (h' !! p), (h !! p); simpl in Hw; congruence.
Qed.

Lemma layers_ok_shape h h' (vpLayerA vpLayerB vpLayerC : layer) :
  same_shape h h' → layers_ok h vpLayerA vpLayerB vpLayerC →
  layers_ok h' vpLayerA vpLayerB vpLayerC.
Proof.
  intros Hs (HA & HB & HC & Hnd).
  repeat split; try by apply (same_shape_layer_ok h). done.
Qed.

Lemma NoDup_app3_l (vpLayerA vpLayerB vpLayerC : layer) :
  NoDup (vpLayerA ++ vpLayerB ++ vpLayerC) → NoDup (vpLayerA ++ vpLayerB).
Proof. rewrite app_assoc. by intros (? & _)%NoDup_app. Qed.

(** One iteration of the training loop, step by step. *)
Lemma trainSample_ok h (vpLayerA vpLayerB vpLayerC : layer)
    (pixels : list Z) (digit : nat) :
  layers_ok h vpLayerA vpLayerB vpLayerC →
  fits vpLayerA vpLayerB vpLayerC →
  (length vpLayerA ≤ length pixels)%nat →
  ∃ h1 e h',
    forwardPass vpLayerA vpLayerB vpLayerC pixels h = Ok h1 ∧
    computeResultErrorRate vpLayerC digit h1 = Ok e ∧
    trainSample vpLayerA vpLayerB vpLayerC pixels digit h = Ok h' ∧
    same_weights h h1 ∧
    (∀ p, p ∉ vpLayerA → p ∉ vpLayerB → p ∉ vpLayerC → h1 !! p = h !! p) ∧
    (∀ b, b ∈ vpLayerB → 0 < value h1 b < 1) ∧
    (∀ k c, vpLayerC !! k = Some c →
       0 < value h1 c < 1 ∧
       errorAt e k = (if decide (digit = k) then 1 else 0) - value h1 c) ∧
    backPropagate_post h1 vpLayerA vpLayerB vpLayerC e h'.
Proof.
  intros (HA & HB & HC & Hnd) Hfit Hpx.
  destruct (returns_ok _ _ (forwardPass_returns h vpLayerA vpLayerB vpLayerC
              pixels HA HB HC Hnd Hpx))
    as (h1 & Hfw & Hw & Hfr & _ & Hhid & Hout).
  destruct Hfit as (HfA & HfB & HfC).
  destruct (returns_ok _ _ (computeResultErrorRate_returns h1 vpLayerC digit
              (same_weights_layer_ok _ _ _ _ Hw HC) HfC))
    as (e & He & Hsz & Hcells).
  assert (Hok : network_ok h1 vpLayerA vpLayerB vpLayerC e).
  { split; [by apply (same_weights_layer_ok h)|].
    split; [by apply (same_weights_layer_ok h)|].
    split; [by apply NoDup_app3_l in Hnd|].
    unfold error_ok. apply Forall_forall. intros k Hk%elem_of_seq.
    destruct (lookup_lt_is_Some_2 vpLayerC k) as [c Hc]; [lia|].
    rewrite (Hcells k c Hc). split; [lia | eauto]. }
  destruct (backPropagate_ok h1 vpLayerA vpLayerB vpLayerC e Hok)
    as (h' & Hbp & Hpost); [done|].
  exists h1, e, h'. split; [done|]. split; [done|]. split.
  { unfold trainSample. rewrite Hfw. simpl. rewrite He. done. }
  split; [done|]. split; [done|]. split; [|split; [|done]].
  - intros b (j & Hb)%list_elem_of_lookup_1. rewrite (Hhid j b Hb).
    apply sigmoid_range.
  - intros k c Hc. split.
    + rewrite (Hout k c Hc). apply sigmoid_range.
    + unfold errorAt. by rewrite (Hcells k c Hc).
Qed.

End TrainingStep.

Section MainLoopLemmas.
Local Open Scope R_scope.
Variables (vpLayerA vpLayerB vpLayerC : layer).
Variable samples : list (list Z * nat).
Hypothesis Hsamples : samples_ok (length vpLayerA) samples.

Lemma sample_at_ok k :
  (k < length samples)%nat →
  ∃ s, sample_at samples k = Ok s ∧ (length vpLayerA ≤ length (fst s))%nat.
Proof.
  intros Hk. destruct (lookup_lt_is_Some_2 samples k Hk) as [s Hs].
  exists s. unfold sample_at. rewrite Hs. split; [done|].
  unfold samples_ok in Hsamples. rewrite Forall_forall in Hsamples.
  apply Hsamples. by eapply list_elem_of_lookup_2.
Qed.


Lemma trainingLoop_returns h (dataSize : nat) :
  layers_ok h vpLayerA vpLayerB vpLayerC →
  fits vpLayerA vpLayerB vpLayerC →
  (dataSize ≤ length samples)%nat →
  returns (trainingLoop vpLayerA vpLayerB vpLayerC samples dataSize h)
    (λ h', same_shape h h' ∧
           ∀ p, p ∉ vpLayerA → p ∉ vpLayerB → p ∉ vpLayerC →
                h' !! p = h !! p)
    no_fault.
Proof.
  intros Hok Hfit Hsize. unfold trainingLoop.
  apply (for_loop_returns
           (λ _ h', same_shape h h' ∧
                    ∀ p, p ∉ vpLayerA → p ∉ vpLayerB → p ∉ vpLayerC →
                         h' !! p = h !! p)).
  - split; [apply same_shape_refl | done].
  - intros k hk Hk [Hs Hfr].
    destruct (sample_at_ok k) as (s & -> & Hpx); [lia|]. simpl.
    destruct (trainSample_ok hk vpLayerA vpLayerB vpLayerC (fst s) (snd s)
                (layers_ok_shape _ _ _ _ _ Hs Hok) Hfit Hpx)
      as (h1 & e & h' & _ & _ & -> & Hw & Hfr1 & _ & _ & _ & Hs' & Hfr' & _).
    simpl. split.
    + eapply same_shape_trans; [exact Hs|].
      eapply same_shape_trans; [by apply same_weights_shape|done].
    + intros p HpA HpB HpC. rewrite Hfr' by (by apply not_elem_of_app).
      rewrite Hfr1 by done. by apply Hfr.
Qed.


End MainLoopLemmas.

Section LoopsSpec.
Local Open Scope R_scope.



(** X11. The training loop keeps the network well formed: on a well-formed
    network that fits the buffers of [backPropagate], with data that hold
    [dataSize] samples of enough pixels, the loop ends normally; the network
    is well formed again, no weight row has changed its length and no neuron
    outside the three layers has changed. *)
Theorem trainingLoop_safe (h : heap) (vpLayerA vpLayerB vpLayerC : layer)
    (samples : list (list Z * nat)) (dataSize : nat) :
  layers_ok h vpLayerA vpLayerB vpLayerC →
  fits vpLayerA vpLayerB vpLayerC →
  samples_ok (length vpLayerA) samples →
  (dataSize ≤ length samples)%nat →
  ∃ h', trainingLoop vpLayerA vpLayerB vpLayerC samples dataSize h = Ok h' ∧
    layers_ok h' vpLayerA vpLayerB vpLayerC ∧
    (∀ p, (length ∘ m_weights) <$> (h' !! p)
          = (length ∘ m_weights) <$> (h !! p)) ∧
    (∀ p, p ∉ vpLayerA → p ∉ vpLayerB → p ∉ vpLayerC → h' !! p = h !! p).
Proof.
  intros Hok Hfit Hsamples Hsize.
  destruct (returns_ok _ _ (trainingLoop_returns vpLayerA vpLayerB vpLayerC
              samples Hsamples h dataSize Hok Hfit Hsize))
    as (h' & Hrun & Hs & Hfr).
  exists h'. split; [done|]. split; [by apply (layers_ok_shape h)|].
  split; [exact Hs | exact Hfr].
Qed.

Lemma trainingLoop_safe_witness :
  ∃ h', trainingLoop [0%nat] [1%nat] [2%nat] [([255%Z], 0%nat); ([0%Z], 0%nat)]
          2 (tiny_heap 1 2 0 3 0) = Ok h' ∧
    layers_ok h' [0%nat] [1%nat] [2%nat] ∧
    (∀ p, (length ∘ m_weights) <$> (h' !! p)
          = (length ∘ m_weights) <$> (tiny_heap 1 2 0 3 0 !! p)) ∧
    (∀ p, p ∉ [0%nat] → p ∉ [1%nat] → p ∉ [2%nat] →
          h' !! p = tiny_heap 1 2 0 3 0 !! p).
Proof.
  apply (trainingLoop_safe (tiny_heap 1 2 0 3 0) [0%nat] [1%nat] [2%nat]
           [([255%Z], 0%nat); ([0%Z], 0%nat)] 2).
  - by_decision.
  - by_decision.
  - by_decision.
  - simpl; lia.
Defined.



End LoopsSpec.

(** ** More on [backPropagate] *)

Section BackPropagateMore.
Local Open Scope R_scope.





Lemma sigmoid_1_le : applySigmoidFunction 1 <= 3 / 4.
Proof.
  unfold applySigmoidFunction. rewrite exp_Ropp.
  pose proof exp_le_3 as H3. pose proof (exp_pos 1) as Hpos.
  assert (Hinv : / 3 <= / exp 1) by (apply Rinv_le_contravar; lra).
  apply (Rmult_le_reg_r (1 + / exp 1)); [lra|].
  unfold Rdiv. rewrite Rmult_assoc, Rinv_l by lra. lra.
Qed.

End BackPropagateMore.

(** ** The construction of the network *)

Section ConstructionLemmas.
Local Open Scope R_scope.
Variables (junk : nat → R) (defaultValue : R) (G : Type).
Variable sampler : G → R * G.
(** A property of every sample, such as the range of the sampler. *)
Variable Pw : R → Prop.
Hypothesis Hsampler : ∀ g, Pw (fst (sampler g)).

Lemma newNeuron_fanout fanout v :
  length (m_weights (newNeuron junk fanout v)) = fanout.
Proof. unfold newNeuron. simpl. by rewrite length_map, length_seq. Qed.

(** The neurons pushed are new, distinct, and as constructed; the neurons
    that existed are kept. *)
Lemma pushNeurons_returns (count fanout : nat) (v : R) (h0 : heap) :
  returns (pushNeurons junk count fanout v (h0, []))
    (λ st, (∀ p, is_Some (h0 !! p) → fst st !! p = h0 !! p) ∧
           length (snd st) = count ∧ NoDup (snd st) ∧
           ∀ p, p ∈ snd st →
                h0 !! p = None ∧ fst st !! p = Some (newNeuron junk fanout v))
    no_fault.
Proof.
  unfold pushNeurons.
  apply (for_loop_returns
    (λ i (st : heap * layer),
       (∀ p, is_Some (h0 !! p) → fst st !! p = h0 !! p) ∧
       length (snd st) = i ∧ NoDup (snd st) ∧
       ∀ p, p ∈ snd st →
            h0 !! p = None ∧ fst st !! p = Some (newNeuron junk fanout v))).
  - simpl. split; [done|]. split; [done|]. split; [constructor|].
    intros p Hp. by apply not_elem_of_nil in Hp.
  - intros i [h vp] _ (Hold & Hlen & Hnd & Hnew). simpl in *.
    set (p := fresh (dom h)).
    assert (Hp : h !! p = None) by (apply not_elem_of_dom, is_fresh).
    assert (Hp0 : h0 !! p = None).
    { destruct (h0 !! p) eqn:E; [|done].
      rewrite <- (Hold p) in E by (rewrite E; eauto). congruence. }
    split; [|split; [|split]].
    + intros q Hq. rewrite lookup_insert_ne; [by apply Hold|].
      intros <-. rewrite Hp0 in Hq. by destruct Hq.
    + rewrite length_app. simpl. lia.
    + apply NoDup_app. split; [done|]. split; [|apply NoDup_singleton].
      intros q Hq ->%list_elem_of_singleton.
      destruct (Hnew p Hq) as [_ Hsome]. congruence.
    + intros q [Hq | ->%list_elem_of_singleton]%elem_of_app.
      * destruct (Hnew q Hq) as [Hq0 Hqh]. split; [done|].
        rewrite lookup_insert_ne; [done|]. intros <-. congruence.
      * split; [done|]. by rewrite lookup_insert_eq.
Qed.

(** [generateRandomWeights] overwrites the whole row of one neuron with
    samples and touches nothing else. *)
Lemma generateRandomWeights_returns (p : ptr_neuron_t) (h : heap) (g : G) :
  is_Some (h !! p) →
  returns (generateRandomWeights G sampler p (h, g))
    (λ st, same_values h (fst st) ∧ same_shape h (fst st) ∧
           (∀ q, q ≠ p → fst st !! q = h !! q) ∧
           ∀ n j, h !! p = Some n → (j < length (m_weights n))%nat →
                  Pw (weight (fst st) p j))
    no_fault.
Proof.
  intros [n Hn]. unfold generateRandomWeights, deref. simpl. rewrite Hn. simpl.
  assert (Hok : neuron_ok h (length (m_weights n)) p).
  { unfold neuron_ok. by rewrite Hn. }
  eapply returns_mono; [| |
    apply (for_loop_returns
      (λ i (st : heap * G),
         same_values h (fst st) ∧ same_shape h (fst st) ∧
         (∀ q, q ≠ p → fst st !! q = h !! q) ∧
         ∀ j, (j < i)%nat → Pw (weight (fst st) p j))
      no_fault (length (m_weights n)))].
  - simpl. intros st (Hv & Hs & Hfr & Hw). split; [done|]. split; [done|].
    split; [done|]. intros n' j Hn' Hj. apply Hw. congruence.
  - done.
  - split; [apply same_values_refl|]. split; [apply same_shape_refl|].
    split; [done|]. intros; lia.
  - intros i [hi gi] Hi (Hv & Hs & Hfr & Hw). simpl in *.
    pose proof (Hsampler gi) as Hsample.
    destruct (sampler gi) as [w g']. simpl in *.
    destruct (setWeight_ok hi (length (m_weights n)) p i w
                (same_shape_neuron_ok _ _ _ _ Hs Hok) Hi)
      as (h' & -> & Hv' & Hs' & Hfr' & Hw').
    simpl. split; [by eapply same_values_trans|].
    split; [by eapply same_shape_trans|]. split.
    + intros q Hq. rewrite Hfr' by done. by apply Hfr.
    + intros j Hj. rewrite Hw'. case_decide; [done|]. apply Hw. lia.
Qed.

Lemma initLayer_returns (vp : layer) (h : heap) (g : G) :
  (∀ p, p ∈ vp → is_Some (h !! p)) →
  returns (initLayer G sampler vp (h, g))
    (λ st, same_values h (fst st) ∧ same_shape h (fst st) ∧
           (∀ q, q ∉ vp → fst st !! q = h !! q) ∧
           ∀ p n j, p ∈ vp → h !! p = Some n →
                    (j < length (m_weights n))%nat →
                    Pw (weight (fst st) p j))
    no_fault.
Proof.
  intros Hvp. unfold initLayer.
  eapply returns_mono; [| |
    apply (for_loop_returns
      (λ i (st : heap * G),
         same_values h (fst st) ∧ same_shape h (fst st) ∧
         (∀ q, q ∉ vp → fst st !! q = h !! q) ∧
         ∀ k p n j, (k < i)%nat → vp !! k = Some p → h !! p = Some n →
                    (j < length (m_weights n))%nat →
                    Pw (weight (fst st) p j))
      no_fault (length vp))].
  - simpl. intros st (Hv & Hs & Hfr & Hw). split; [done|]. split; [done|].
    split; [done|]. intros p n j (k & Hk)%list_elem_of_lookup_1 Hn Hj.
    apply (Hw k p n j); [by eapply lookup_lt_Some|done|done|done].
  - done.
  - split; [apply same_values_refl|]. split; [apply same_shape_refl|].
    split; [done|]. intros; lia.
  - intros i [hi gi] Hi (Hv & Hs & Hfr & Hw). simpl in *.
    destruct (at_index_lt vp i Hi) as (p & Hp & ->). simpl.
    assert (Hin : p ∈ vp) by (by eapply list_elem_of_lookup_2).
    destruct (Hvp p Hin) as [n Hn].
    assert (Hsome : is_Some (hi !! p)).
    { specialize (Hs p). rewrite Hn in Hs. destruct (hi !! p); [eauto|done]. }
    eapply returns_mono;
      [| |apply (generateRandomWeights_returns p hi gi Hsome)].
    2:{ by intros f. }
    intros [h' g'] (Hv' & Hs' & Hfr' & Hw'). simpl in *.
    split; [by eapply same_values_trans|].
    split; [by eapply same_shape_trans|]. split.
    + intros q Hq. rewrite Hfr'; [by apply Hfr|]. by intros ->.
    + intros k q nq j Hk Hq Hnq Hj. destruct (decide (q = p)) as [->|Hne].
      * destruct Hsome as [n' Hn'].
        apply (Hw' n' j Hn').
        specialize (Hs p). rewrite Hn', Hnq in Hs. simpl in Hs.
        injection Hs as Hs. lia.
      * rewrite (weight_ext hi h' q j) by auto.
        destruct (decide (k = i)) as [->|Hki]; [congruence|].
        apply (Hw k q nq j); [lia|done|done|done].
Qed.

End ConstructionLemmas.

Section BuildNetwork.
Local Open Scope R_scope.
Variables (junk : nat → R) (defaultValue : R) (G : Type).
Variable sampler : G → R * G.
Variable Pw : R → Prop.
Hypothesis Hsampler : ∀ g, Pw (fst (sampler g)).
Local Opaque numNeuronsInputLayer numNeuronsHiddenLayer numNeuronsOutputLayer.

Lemma buildNetwork_returns (h0 : heap) (g0 : G) :
  returns (buildNetwork junk defaultValue G sampler (h0, g0))
    (λ r,
       let h := fst (fst r) in
       let net := snd r in
       length (vpInputLayer net) = numNeuronsInputLayer ∧
       length (vpHiddenLayer net) = numNeuronsHiddenLayer ∧
       length (vpOutputLayer net) = numNeuronsOutputLayer ∧
       layers_ok h (vpInputLayer net) (vpHiddenLayer net) (vpOutputLayer net) ∧
       (∀ p, is_Some (h0 !! p) → h !! p = h0 !! p) ∧
       (∀ p, p ∈ vpInputLayer net ++ vpHiddenLayer net ++ vpOutputLayer net →
             h0 !! p = None) ∧
       (∀ a j, a ∈ vpInputLayer net → (j < numNeuronsHiddenLayer)%nat →
               Pw (weight h a j)) ∧
       (∀ b j, b ∈ vpHiddenLayer net → (j < numNeuronsOutputLayer)%nat →
               Pw (weight h b j)) ∧
       (∀ a, a ∈ vpInputLayer net → value h a = 0))
    no_fault.
Proof.
  unfold buildNetwork. simpl.
  destruct (returns_ok _ _ (pushNeurons_returns junk numNeuronsInputLayer
              numNeuronsHiddenLayer 0 h0))
    as ([hA A] & -> & HoldA & HlenA & HndA & HnewA).
  simpl in *.
  destruct (returns_ok _ _ (pushNeurons_returns junk numNeuronsHiddenLayer
              numNeuronsOutputLayer defaultValue hA))
    as ([hB B] & -> & HoldB & HlenB & HndB & HnewB).
  simpl in *.
  destruct (returns_ok _ _ (pushNeurons_returns junk numNeuronsOutputLayer
              0 defaultValue hB))
    as ([hC C] & -> & HoldC & HlenC & HndC & HnewC).
  simpl in *.
  assert (HA : ∀ a, a ∈ A →
            hC !! a = Some (newNeuron junk numNeuronsHiddenLayer 0)).
  { intros a Ha. destruct (HnewA a Ha) as [_ Ha1].
    assert (EB : hB !! a = hA !! a) by (apply HoldB; rewrite Ha1; eauto).
    rewrite HoldC; rewrite EB, Ha1; eauto. }
  assert (HB : ∀ b, b ∈ B →
            hC !! b = Some (newNeuron junk numNeuronsOutputLayer defaultValue)).
  { intros b Hb. destruct (HnewB b Hb) as [_ Hb1].
    rewrite HoldC; rewrite ?Hb1; eauto. }
  assert (HC : ∀ c, c ∈ C → hC !! c = Some (newNeuron junk 0 defaultValue)).
  { intros c Hc. by destruct (HnewC c Hc). }
  assert (HAB : ∀ p, p ∈ A → p ∉ B).
  { intros p Hp Hq. destruct (HnewA p Hp) as [_ E1].
    destruct (HnewB p Hq) as [E2 _]. congruence. }
  assert (HAC : ∀ p, p ∈ A → p ∉ C).
  { intros p Hp Hq. destruct (HnewC p Hq) as [E2 _].
    destruct (HnewA p Hp) as [_ E1].
    rewrite HoldB in E2 by (rewrite E1; eauto). congruence. }
  assert (HBC : ∀ p, p ∈ B → p ∉ C).
  { intros p Hp Hq. destruct (HnewB p Hp) as [_ E1].
    destruct (HnewC p Hq) as [E2 _]. congruence. }
  destruct (returns_ok _ _ (initLayer_returns G sampler Pw Hsampler B hC g0
              (λ p Hp, ex_intro _ _ (HB p Hp))))
    as ([h1 g1] & -> & Hv1 & Hs1 & Hfr1 & Hw1).
  simpl in *.
  assert (HA1 : ∀ a, a ∈ A → h1 !! a = hC !! a).
  { intros a Ha. by apply Hfr1, HAB. }
  destruct (returns_ok _ _ (initLayer_returns G sampler Pw Hsampler A h1 g1
              (λ p Hp, ex_intro _ _ (eq_trans (HA1 p Hp) (HA p Hp)))))
    as ([h2 g2] & -> & Hv2 & Hs2 & Hfr2 & Hw2).
  simpl in *.
  pose proof (same_shape_trans _ _ _ Hs1 Hs2) as Hs.
  pose proof (same_values_trans _ _ _ Hv1 Hv2) as Hv.
  assert (Hok : ∀ k n v (vp : layer),
            (∀ p, p ∈ vp → hC !! p = Some (newNeuron junk n v)) →
            (k ≤ n)%nat → layer_ok h2 k vp).
  { intros k n v vp Hvp Hk. apply (same_shape_layer_ok hC); [done|].
    apply Forall_forall. intros p Hp. unfold neuron_ok.
    rewrite (Hvp p Hp), newNeuron_fanout. done. }
  assert (Hfresh : ∀ p, p ∈ A ++ B ++ C → h0 !! p = None).
  { intros p Hp. destruct (h0 !! p) as [n|] eqn:E; [|done]. exfalso.
    assert (EA : hA !! p = Some n) by (rewrite HoldA; rewrite E; eauto).
    assert (EB : hB !! p = Some n) by (rewrite HoldB; rewrite EA; eauto).
    apply elem_of_app in Hp as [Hp|Hp];
      [destruct (HnewA p Hp); congruence|].
    apply elem_of_app in Hp as [Hp|Hp];
      [destruct (HnewB p Hp); congruence|destruct (HnewC p Hp); congruence]. }
  split; [done|]. split; [done|]. split; [done|].
  split; [|split; [|split; [exact Hfresh|split; [|split]]]].
  - split; [by eapply Hok; [exact HA|lia]|].
    split; [by eapply Hok; [exact HB|lia]|].
    split; [by eapply Hok; [exact HC|lia]|].
    apply NoDup_app. split; [done|]. split.
    + intros p Hp [Hq|Hq]%elem_of_app; [by apply (HAB p)|by apply (HAC p)].
    + apply NoDup_app. split; [done|]. split; [exact HBC | done].
  - intros p Hp.
    assert (EA : hA !! p = h0 !! p) by (by apply HoldA).
    assert (EB : hB !! p = hA !! p) by (apply HoldB; by rewrite EA).
    assert (EC : hC !! p = hB !! p) by (apply HoldC; by rewrite EB, EA).
    assert (E0 : hC !! p = h0 !! p) by (by rewrite EC, EB).
    assert (HpA : p ∉ A).
    { intros Hin. destruct (HnewA p Hin) as [E _]. rewrite E in Hp.
      by destruct Hp. }
    assert (HpB : p ∉ B).
    { intros Hin. destruct (HnewB p Hin) as [E _].
      rewrite HoldA in E by done. rewrite E in Hp. by destruct Hp. }
    rewrite Hfr2, Hfr1 by done. exact E0.
  - intros a j Ha Hj.
    apply (Hw2 a (newNeuron junk numNeuronsHiddenLayer 0) j Ha).
    + by rewrite HA1, HA.
    + by rewrite newNeuron_fanout.
  - intros b j Hb Hj.
    rewrite (weight_ext h1 h2 b j).
    + apply (Hw1 b (newNeuron junk numNeuronsOutputLayer defaultValue) j Hb).
      * by apply HB.
      * by rewrite newNeuron_fanout.
    + apply Hfr2. intros Hin. by apply (HAB b).
  - intros a Ha. rewrite (same_values_value hC h2 a Hv).
    unfold value. by rewrite (HA a Ha).
Qed.

End BuildNetwork.


Section BuildNetworkSpec.
Local Open Scope R_scope.
Local Opaque numNeuronsInputLayer numNeuronsHiddenLayer numNeuronsOutputLayer.

(** X15. The network built by [main]: whatever the heap, the generator and
    the contents of freshly constructed weight rows, the construction ends
    normally with [numNeuronsInputLayer], [numNeuronsHiddenLayer] and
    [numNeuronsOutputLayer] neurons in the three layers, all distinct and
    freshly allocated, with weight rows that reach the next layer, so the
    network fits the buffers of [backPropagate]; neurons that existed before
    are unchanged; every weight of the input and of the hidden layer is a
    sample of the sampler (it has every property [Pw] that all samples have),
    and every input neuron holds 0. *)
Theorem buildNetwork_layers (junk : nat → R) (defaultValue : R) (G : Type)
    (sampler : G → R * G) (Pw : R → Prop) (h0 : heap) (g0 : G) :
  (∀ g, Pw (fst (sampler g))) →
  ∃ h g net,
    buildNetwork junk defaultValue G sampler (h0, g0) = Ok ((h, g), net) ∧
    length (vpInputLayer net) = numNeuronsInputLayer ∧
    length (vpHiddenLayer net) = numNeuronsHiddenLayer ∧
    length (vpOutputLayer net) = numNeuronsOutputLayer ∧
    layers_ok h (vpInputLayer net) (vpHiddenLayer net) (vpOutputLayer net) ∧
    fits (vpInputLayer net) (vpHiddenLayer net) (vpOutputLayer net) ∧
    (∀ p, p ∈ vpInputLayer net ++ vpHiddenLayer net ++ vpOutputLayer net →
          h0 !! p = None) ∧
    (∀ p, is_Some (h0 !! p) → h !! p = h0 !! p) ∧
    (∀ a j, a ∈ vpInputLayer net → (j < numNeuronsHiddenLayer)%nat →
            Pw (weight h a j)) ∧
    (∀ b j, b ∈ vpHiddenLayer net → (j < numNeuronsOutputLayer)%nat →
            Pw (weight h b j)) ∧
    (∀ a, a ∈ vpInputLayer net → value h a = 0).
Proof.
  intros Hsampler.
  destruct (returns_ok _ _ (buildNetwork_returns junk defaultValue G sampler
              Pw Hsampler h0 g0))
    as ([[h g] net] & Hrun & HlA & HlB & HlC & Hok & Hold & Hfresh & HwA & HwB
        & HvA).
  cbn [fst snd] in *. exists h, g, net.
  split; [exact Hrun|]. split; [exact HlA|]. split; [exact HlB|].
  split; [exact HlC|]. split; [exact Hok|]. split.
  { unfold fits. rewrite HlA, HlB, HlC. lia. }
  split; [exact Hfresh|]. split; [exact Hold|]. split; [exact HwA|].
  split; [exact HwB | exact HvA].
Qed.

Lemma buildNetwork_layers_witness :
  ∃ h g net,
    buildNetwork (λ _, 7) 1 nat (λ g, (1 / 2, S g)) (∅, 0%nat)
    = Ok ((h, g), net) ∧
    length (vpInputLayer net) = numNeuronsInputLayer ∧
    length (vpHiddenLayer net) = numNeuronsHiddenLayer ∧
    length (vpOutputLayer net) = numNeuronsOutputLayer ∧
    layers_ok h (vpInputLayer net) (vpHiddenLayer net) (vpOutputLayer net) ∧
    fits (vpInputLayer net) (vpHiddenLayer net) (vpOutputLayer net) ∧
    (∀ p, p ∈ vpInputLayer net ++ vpHiddenLayer net ++ vpOutputLayer net →
          (∅ : heap) !! p = None) ∧
    (∀ p, is_Some ((∅ : heap) !! p) → h !! p = (∅ : heap) !! p) ∧
    (∀ a j, a ∈ vpInputLayer net → (j < numNeuronsHiddenLayer)%nat →
            -1 <= weight h a j < 1) ∧
    (∀ b j, b ∈ vpHiddenLayer net → (j < numNeuronsOutputLayer)%nat →
            -1 <= weight h b j < 1) ∧
    (∀ a, a ∈ vpInputLayer net → value h a = 0).
Proof.
  apply (buildNetwork_layers (λ _, 7) 1 nat (λ g, (1 / 2, S g))
           (λ w, -1 <= w < 1) ∅ 0%nat).
  intros g. simpl. lra.
Defined.





End BuildNetworkSpec.

(** ** The real samplers and the random matrices of [Random.h] *)

Section MatFill.
Local Open Scope R_scope.
Context {S : Type}.
Variable draw : S → R * S.

Lemma index_inj (w y x y' x' : nat) :
  (x < w)%nat → (x' < w)%nat → (y * w + x = y' * w + x')%nat →
  y = y' ∧ x = x'.
Proof.
  intros Hx Hx' E.
  destruct (Nat.lt_trichotomy y y') as [Hlt | [-> | Hlt]]; [nia | lia | nia].
Qed.

Lemma after_draws_S (n : nat) (s : S) :
  Random.after_draws draw (Datatypes.S n) s
  = snd (draw (Random.after_draws draw n s)).
Proof. done. Qed.

(** The two nested loops write draw number [y * w + x] to cell [(y, x)]. *)
Lemma fill_returns (h w : nat) (s : S) :
  returns
    (for_loop h (fun y st =>
       for_loop w (fun x '(res, g) =>
         let '(v, g) := draw g in
         let* res := Random.ptr_write res y x v in
         Ok (res, g)) st) (new2 h w, s))
    (λ st, a2_rows (fst st) = h ∧ a2_cols (fst st) = w ∧
           (∀ y x, a2_cells (fst st) !! (y, x)
                   = if decide (y < h ∧ x < w)%nat
                     then Some (Random.draw_at draw (y * w + x) s)
                     else None) ∧
           snd st = Random.after_draws draw (h * w) s)
    no_fault.
Proof.
  set (filled := λ (k : nat) (st : array2 * S),
         a2_rows (fst st) = h ∧ a2_cols (fst st) = w ∧
         (∀ y x, a2_cells (fst st) !! (y, x)
                 = if decide (x < w ∧ y * w + x < k)%nat
                   then Some (Random.draw_at draw (y * w + x) s)
                   else None) ∧
         snd st = Random.after_draws draw k s).
  eapply returns_mono; [| |
    apply (for_loop_returns (λ y st, filled (y * w)%nat st) no_fault h)].
  - intros [res g] (Hr & Hc & Hcells & Hg). simpl in *.
    split; [done|]. split; [done|]. split; [|done].
    intros y x. rewrite Hcells.
    destruct (decide (x < w ∧ y * w + x < h * w)%nat) as [[H1 H2]|Hn];
      destruct (decide (y < h ∧ x < w)%nat) as [[H3 H4]|Hm]; try done.
    + exfalso. apply Hm. split; [nia|done].
    + exfalso. apply Hn. split; [done|nia].
  - done.
  - unfold filled. simpl. split; [done|]. split; [done|]. split; [|done].
    intros y x. rewrite lookup_empty. case_decide; [lia|done].
  - intros y st Hy Hst.
    eapply returns_mono; [| |
      apply (for_loop_returns (λ x st, filled (y * w + x)%nat st) no_fault w)].
    + intros st'. by replace (y * w + w)%nat with (Datatypes.S y * w)%nat by lia.
    + done.
    + by replace (y * w + 0)%nat with (y * w)%nat by lia.
    + intros x [res g] Hx (Hr & Hc & Hcells & Hg). simpl in *.
      destruct (draw g) as [v g'] eqn:Hdraw. unfold Random.ptr_write.
      rewrite decide_True by (rewrite Hr, Hc; lia). unfold filled. simpl.
      split; [done|]. split; [done|]. split.
      * intros y' x'. destruct (decide ((y', x') = (y, x))) as [E|Hne].
        -- injection E as -> ->. rewrite lookup_insert_eq.
           rewrite decide_True by lia.
           unfold Random.draw_at. by rewrite <- Hg, Hdraw.
        -- rewrite lookup_insert_ne by done. rewrite Hcells.
           destruct (decide (x' < w ∧ y' * w + x' < y * w + x)%nat)
             as [[H1 H2]|Hn].
           ++ rewrite decide_True by lia. done.
           ++ rewrite decide_False; [done|]. intros [H1 H2].
              assert (E : (y * w + x = y' * w + x')%nat) by lia.
              destruct (index_inj w y x y' x' Hx H1 E) as [-> ->]. done.
      * replace (y * w + Datatypes.S x)%nat with (Datatypes.S (y * w + x))
          by lia.
        by rewrite after_draws_S, <- Hg, Hdraw.
Qed.

End MatFill.

Section StaticGenerator.
Local Open Scope R_scope.
Variable mt19937 : Type.
Variable mt19937_seed : Z → mt19937.
Variable distribution : mt19937 → R * mt19937.
Variable seed : Z.
Variable draw : option mt19937 → R * option mt19937.
Hypothesis draw_current : ∀ generator,
  draw generator
  = (fst (distribution (Random.current mt19937_seed seed generator)),
     Some (snd (distribution (Random.current mt19937_seed seed generator)))).

(** Once seeded, the generator is kept: the draws of the function are the
    draws of the distribution on the generator of the first call. *)
Lemma after_draws_static (n : nat) (generator : option mt19937) :
  Random.after_draws draw (Datatypes.S n) generator
  = Some (Random.after_draws distribution (Datatypes.S n)
            (Random.current mt19937_seed seed generator)).
Proof.
  induction n as [|n IH].
  - unfold Random.after_draws. simpl. by rewrite draw_current.
  - rewrite (after_draws_S draw), IH, draw_current. done.
Qed.

Lemma draw_at_static (n : nat) (generator : option mt19937) :
  Random.draw_at draw n generator
  = Random.draw_at distribution n
      (Random.current mt19937_seed seed generator).
Proof.
  unfold Random.draw_at. destruct n as [|n].
  - unfold Random.after_draws. simpl. by rewrite draw_current.
  - by rewrite after_draws_static, draw_current.
Qed.

End StaticGenerator.

Section RandomMatLemmas.
Local Open Scope R_scope.
Variable mt19937 : Type.
Variable mt19937_seed : Z → mt19937.
Variable distribution : mt19937 → R * mt19937.
Variable seed : Z.
Variable draw : option mt19937 → R * option mt19937.
Hypothesis draw_current : ∀ generator,
  draw generator
  = (fst (distribution (Random.current mt19937_seed seed generator)),
     Some (snd (distribution (Random.current mt19937_seed seed generator)))).

(** A matrix filled by a sampler with a static generator. *)
Lemma fill_static (size : Random.CvSize) (generator : option mt19937) :
  let h := Random.height size in
  let w := Random.width size in
  let g0 := Random.current mt19937_seed seed generator in
  ∃ res generator',
    for_loop h (fun y st =>
      for_loop w (fun x '(res, g) =>
        let '(v, g) := draw g in
        let* res := Random.ptr_write res y x v in
        Ok (res, g)) st) (new2 h w, generator)
    = Ok (res, generator') ∧
    a2_rows res = h ∧ a2_cols res = w ∧
    (∀ y x, a2_cells res !! (y, x)
            = if decide (y < h ∧ x < w)%nat
              then Some (Random.draw_at distribution (y * w + x) g0)
              else None) ∧
    generator' = if decide (h * w = 0)%nat then generator
                 else Some (Random.after_draws distribution (h * w) g0).
Proof.
  intros h w g0.
  destruct (returns_ok _ _ (fill_returns draw h w generator))
    as ([res g'] & Hrun & Hr & Hc & Hcells & Hg).
  simpl in *. exists res, g'. split; [exact Hrun|].
  split; [done|]. split; [done|]. split.
  - intros y x. rewrite Hcells. case_decide; [|done].
    by rewrite (draw_at_static _ mt19937_seed distribution seed).
  - rewrite Hg. destruct (h * w)%nat as [|n] eqn:E.
    + by rewrite decide_True.
    + rewrite decide_False by done.
      by rewrite (after_draws_static _ mt19937_seed distribution seed).
Qed.

End RandomMatLemmas.

Section RandomMatSpec.
Local Open Scope R_scope.
Variable mt19937 : Type.
Variable mt19937_seed : Z → mt19937.
Variable uniform_real_distribution : R → R → mt19937 → R * mt19937.
Variable normal_distribution : R → R → mt19937 → R * mt19937.

Lemma U_current seed min max generator :
  Random.U mt19937 mt19937_seed uniform_real_distribution seed min max
    generator
  = (fst (uniform_real_distribution min max
            (Random.current mt19937_seed seed generator)),
     Some (snd (uniform_real_distribution min max
                  (Random.current mt19937_seed seed generator)))).
Proof.
  unfold Random.U, Random.current.
  by destruct (uniform_real_distribution min max _).
Qed.

Lemma N_current seed mu sigma generator :
  Random.N mt19937 mt19937_seed normal_distribution seed mu sigma generator
  = (fst (normal_distribution mu sigma
            (Random.current mt19937_seed seed generator)),
     Some (snd (normal_distribution mu sigma
                  (Random.current mt19937_seed seed generator)))).
Proof.
  unfold Random.N, Random.current.
  by destruct (normal_distribution mu sigma _).
Qed.

(** X17. The uniform random matrix: [U(size, min, max)] always ends normally
    with a matrix of [size.height] rows and [size.width] columns in which
    every cell is written; cell [(y, x)] holds draw number [y * width + x] of
    the uniform distribution on the generator of [U<float>] (the stored one,
    or the one seeded at this call when there is none), and nothing outside
    the matrix is written.  The generator is left after [height * width]
    draws; an empty matrix leaves it as it was, unseeded if it was so. *)
Theorem U_Mat_cells (seed : Z) (size : Random.CvSize) (min max : R)
    (generator : option mt19937) :
  ∃ res generator',
    Random.U_Mat mt19937 mt19937_seed uniform_real_distribution
      seed size min max generator = Ok (res, generator') ∧
    a2_rows res = Random.height size ∧
    a2_cols res = Random.width size ∧
    (∀ y x, a2_cells res !! (y, x)
            = if decide (y < Random.height size ∧ x < Random.width size)%nat
              then Some (Random.draw_at (uniform_real_distribution min max)
                           (y * Random.width size + x)
                           (Random.current mt19937_seed seed generator))
              else None) ∧
    generator'
    = if decide (Random.height size * Random.width size = 0)%nat
      then generator
      else Some (Random.after_draws (uniform_real_distribution min max)
                   (Random.height size * Random.width size)
                   (Random.current mt19937_seed seed generator)).
Proof.
  apply (fill_static mt19937 mt19937_seed (uniform_real_distribution min max)
           seed
           (Random.U mt19937 mt19937_seed uniform_real_distribution
              seed min max)).
  intros g. apply U_current.
Qed.

(** X18. The normal random matrix: [N(size, mu, sigma)] fills its matrix in
    the same way from the normal distribution and the generator of
    [N<float>]: it always ends normally, cell [(y, x)] holds draw number
    [y * width + x], every cell of the matrix and no other is written, and
    the generator is left after [height * width] draws. *)
Theorem N_Mat_cells (seed : Z) (size : Random.CvSize) (mu sigma : R)
    (generator : option mt19937) :
  ∃ res generator',
    Random.N_Mat mt19937 mt19937_seed normal_distribution
      seed size mu sigma generator = Ok (res, generator') ∧
    a2_rows res = Random.height size ∧
    a2_cols res = Random.width size ∧
    (∀ y x, a2_cells res !! (y, x)
            = if decide (y < Random.height size ∧ x < Random.width size)%nat
              then Some (Random.draw_at (normal_distribution mu sigma)
                           (y * Random.width size + x)
                           (Random.current mt19937_seed seed generator))
              else None) ∧
    generator'
    = if decide (Random.height size * Random.width size = 0)%nat
      then generator
      else Some (Random.after_draws (normal_distribution mu sigma)
                   (Random.height size * Random.width size)
                   (Random.current mt19937_seed seed generator)).
Proof.
  apply (fill_static mt19937 mt19937_seed (normal_distribution mu sigma)
           seed
           (Random.N mt19937 mt19937_seed normal_distribution
              seed mu sigma)).
  intros g. apply N_current.
Qed.

(** X19. The range of the uniform samplers: when the uniform distribution
    of the standard library keeps its contract for [min] and [max] (every
    draw is a number of the half-open interval from [min] to [max]),
    [U min max] returns a number that is at least [min] and below [max], on
    the first call and on every later one, and every cell of
    [U(size, min, max)] holds such a number. *)
Theorem uniform_real_range (seed : Z) (min max : R) (generator : option mt19937) :
  (∀ g, min <= fst (uniform_real_distribution min max g) < max) →
  min <= fst (Random.U mt19937 mt19937_seed uniform_real_distribution
                seed min max generator) < max ∧
  ∀ size, ∃ res generator',
    Random.U_Mat mt19937 mt19937_seed uniform_real_distribution
      seed size min max generator = Ok (res, generator') ∧
    ∀ y x, (y < Random.height size)%nat → (x < Random.width size)%nat →
      ∃ v, a2_cells res !! (y, x) = Some v ∧ min <= v < max.
Proof.
  intros Hrange. split.
  - rewrite U_current. simpl. apply Hrange.
  - intros size.
    destruct (fill_static mt19937 mt19937_seed
                (uniform_real_distribution min max) seed
                (Random.U mt19937 mt19937_seed uniform_real_distribution
                   seed min max)
                (λ g, U_current seed min max g) size generator)
      as (res & g' & Hrun & _ & _ & Hcells & _).
    exists res, g'. split; [exact Hrun|].
    intros y x Hy Hx. rewrite Hcells, decide_True by done.
    eexists. split; [done|]. apply Hrange.
Qed.

End RandomMatSpec.

Section RandomMatExample.
Local Open Scope R_scope.

Lemma uniform_real_range_witness :
  0 <= fst (Random.U Z Random.lcg_seed Random.mid_distribution
              42 0 1 None) < 1 ∧
  ∀ size, ∃ res generator',
    Random.U_Mat Z Random.lcg_seed Random.mid_distribution
      42 size 0 1 None = Ok (res, generator') ∧
    ∀ y x, (y < Random.height size)%nat → (x < Random.width size)%nat →
      ∃ v, a2_cells res !! (y, x) = Some v ∧ 0 <= v < 1.
Proof.
  apply (uniform_real_range Z Random.lcg_seed Random.mid_distribution 42 0 1 None).
  intros g. unfold Random.mid_distribution. simpl. lra.
Defined.

End RandomMatExample.

(** ** Reading the images *)

Section ImageLemmas.
Import Images.
Variable imread : string → image.

Lemma inverted_pixel (b : Byte.byte) :
  (Z.abs (Z.of_N (Byte.to_N b) - 255) = 255 - Z.of_N (Byte.to_N b) ∧
   0 ≤ 255 - Z.of_N (Byte.to_N b) ≤ 255)%Z.
Proof. pose proof (Byte.to_N_bounded b). lia. Qed.

(** The two loops over an image (lines 71-78) write its inverted pixels to
    row [m] from cell 0 on, and leave the row when the image is larger. *)
Lemma image_loop_returns (img : image) (t : ptr_array) (m : nat)
    (row0 : int_array) :
  m < pa_size t → pa_rows t !! m = Some row0 →
  returns
    (for_loop (rows img) (fun i st =>
       for_loop (cols img) (fun j '(trainDataBin, l) =>
         let value := Z.abs (Z.of_N (Byte.to_N (at_uchar img i j)) - 255) in
         let* trainDataBin := store_cell trainDataBin m l value in
         Ok (trainDataBin, S l)) st) (t, 0))
    (λ st, rows img * cols img ≤ ia_size row0 ∧
           pa_size (fst st) = pa_size t ∧
           ∃ row, pa_rows (fst st) = <[m := row]> (pa_rows t) ∧
                  row_holds img row0 row)
    (λ f, f = OutOfBounds BufPixels ∧ ia_size row0 < rows img * cols img).
Proof.
  intros Hm Hrow0.
  set (Q := λ f, f = OutOfBounds BufPixels ∧
                 ia_size row0 < rows img * cols img).
  set (inv := λ (k : nat) (st : ptr_array * nat),
         k ≤ ia_size row0 ∧ snd st = k ∧ pa_size (fst st) = pa_size t ∧
         ∃ row, pa_rows (fst st) = <[m := row]> (pa_rows t) ∧
                ia_size row = ia_size row0 ∧
                (∀ i j, j < cols img → i * cols img + j < k →
                   ia_cells row !! (i * cols img + j)
                   = Some (255 - Z.of_N (Byte.to_N (at_uchar img i j)))%Z) ∧
                (∀ l, k ≤ l → ia_cells row !! l = ia_cells row0 !! l)).
  eapply returns_mono; [| |
    apply (for_loop_returns (λ i st, inv (i * cols img) st) Q (rows img))].
  - intros [t' l] (Hk & Hl & Hsz & row & Hrows & Hsize & Hcells & Hrest).
    simpl in *. split; [done|]. split; [done|]. exists row. split; [done|].
    split; [done|]. split; [|done].
    intros i j Hi Hj. apply Hcells; [done|nia].
  - done.
  - unfold inv. simpl. split; [lia|]. split; [done|]. split; [done|].
    exists row0. split; [by rewrite insert_id|]. split; [done|].
    split; [intros; lia | done].
  - intros i st Hi Hst.
    eapply returns_mono; [| |
      apply (for_loop_returns (λ j st, inv (i * cols img + j) st) Q
               (cols img))].
    + intros st'. by replace (i * cols img + cols img)
                       with (S i * cols img) by lia.
    + done.
    + by replace (i * cols img + 0) with (i * cols img) by lia.
    + intros j [t' l] Hj (Hk & Hl & Hsz & row & Hrows & Hsize & Hcells & Hrest).
      simpl in *. subst l. unfold store_cell.
      rewrite decide_True by lia. rewrite Hrows, lookup_insert_eq.
      destruct (decide (i * cols img + j < ia_size row)) as [Hlt|Hge].
      * unfold inv. simpl. split; [lia|]. split; [lia|]. split; [done|].
        eexists. split; [by rewrite insert_insert_eq|]. simpl.
        split; [done|]. split.
        -- intros i' j' Hj' Hlt'.
           destruct (decide (i' * cols img + j' = i * cols img + j))
             as [E|Hne].
           ++ destruct (index_inj (cols img) i' j' i j Hj' Hj E) as [-> ->].
              rewrite lookup_insert_eq.
              by destruct (inverted_pixel (at_uchar img i j)) as [-> _].
           ++ rewrite lookup_insert_ne by done. apply Hcells; [done|lia].
        -- intros l Hl. rewrite lookup_insert_ne by lia. apply Hrest. lia.
      * simpl. split; [done|]. nia.
Qed.

(** [readImgData] as a whole: it ends normally exactly when the static array
    has a row for every sample and no image has more pixels than a row. *)
Lemma readImgData_returns (file : string) (dataSize : nat)
    (static : option ptr_array) :
  let t0 := match static with Some t => t | None => new_ptrs dataSize end in
  returns (readImgData imread file dataSize static)
    (λ t, dataSize ≤ pa_size t0 ∧
          (∀ m, m < dataSize →
                rows (image_of imread file m) * cols (image_of imread file m)
                ≤ inputLayer) ∧
          pa_size t = pa_size t0 ∧
          (∀ m, m < dataSize →
                ∃ row, pa_rows t !! m = Some row ∧
                       row_holds (image_of imread file m) (new_int inputLayer)
                         row) ∧
          (∀ m, dataSize ≤ m → pa_rows t !! m = pa_rows t0 !! m))
    (λ f, f = OutOfBounds BufPixels ∧
          (pa_size t0 < dataSize ∨
           ∃ m, m < dataSize ∧
                inputLayer < rows (image_of imread file m)
                             * cols (image_of imread file m))).
Proof.
  intros t0. unfold readImgData. fold t0.
  set (Q := λ f, f = OutOfBounds BufPixels ∧
          (pa_size t0 < dataSize ∨
           ∃ m, m < dataSize ∧
                inputLayer < rows (image_of imread file m)
                             * cols (image_of imread file m))).
  apply (for_loop_returns
    (λ k t, k ≤ pa_size t0 ∧
          (∀ m, m < k →
                rows (image_of imread file m) * cols (image_of imread file m)
                ≤ inputLayer) ∧
          pa_size t = pa_size t0 ∧
          (∀ m, m < k →
                ∃ row, pa_rows t !! m = Some row ∧
                       row_holds (image_of imread file m) (new_int inputLayer)
                         row) ∧
          (∀ m, k ≤ m → pa_rows t !! m = pa_rows t0 !! m)) Q).
  - split; [lia|]. split; [intros; lia|]. split; [done|].
    split; [intros; lia | done].
  - intros m t Hm (Hk & Hfit & Hsz & Hdone & Hrest). unfold store_row.
    destruct (decide (m < pa_size t)) as [Hlt|Hge].
    2:{ simpl. split; [done|]. left. lia. }
    simpl. fold (image_of imread file m).
    set (t1 := mkPtrArray (pa_size t) (<[m := new_int inputLayer]> (pa_rows t))).
    pose proof (image_loop_returns (image_of imread file m) t1 m
                  (new_int inputLayer) Hlt (lookup_insert_eq _ _ _)) as Hret.
    match goal with
    | |- returns (bind ?r _) _ _ => destruct r as [[t' l]|f]
    end; simpl in *.
    2:{ destruct Hret as [-> Hbig]. split; [done|]. right. exists m. done. }
    destruct Hret as (Hle & Hsz' & row & Hrows & Hholds).
    rewrite insert_insert_eq in Hrows.
    split; [lia|]. split; [|split; [congruence|split]].
    + intros m' Hm'. destruct (decide (m' = m)) as [->|Hne]; [done|].
      apply Hfit. lia.
    + intros m' Hm'. rewrite Hrows.
      destruct (decide (m' = m)) as [->|Hne].
      * exists row. by rewrite lookup_insert_eq.
      * rewrite lookup_insert_ne by done. apply Hdone. lia.
    + intros m' Hm'. rewrite Hrows, lookup_insert_ne by lia. apply Hrest. lia.
Qed.

End ImageLemmas.

Section ImageSpec.
Import Images.

(** X20. The first call of [readImgData]: when no image of the [dataSize]
    samples has more than [inputLayer] pixels, the call ends normally with
    an array of [dataSize] rows of [inputLayer] cells.  Row [m] holds the
    image of sample [m] row after row: cell [i * cols + j] is 255 minus the
    pixel at [(i, j)], a number from 0 to 255; the cells from [rows * cols]
    on are never written and stay indeterminate. *)
Theorem readImgData_first_call (imread : string → image) (file : string)
    (dataSize : nat) :
  (∀ m, m < dataSize →
        rows (image_of imread file m) * cols (image_of imread file m)
        ≤ inputLayer) →
  ∃ t, readImgData imread file dataSize None = Ok t ∧
       pa_size t = dataSize ∧
       ∀ m, m < dataSize →
         let img := image_of imread file m in
         ∃ row, pa_rows t !! m = Some row ∧ ia_size row = inputLayer ∧
           (∀ i j, i < rows img → j < cols img →
              ∃ v, ia_cells row !! (i * cols img + j) = Some v ∧
                   v = (255 - Z.of_N (Byte.to_N (at_uchar img i j)))%Z ∧
                   (0 ≤ v ≤ 255)%Z) ∧
           (∀ l, rows img * cols img ≤ l → ia_cells row !! l = None).
Proof.
  intros Hfit.
  pose proof (readImgData_returns imread file dataSize None) as Hret.
  destruct (readImgData imread file dataSize None) as [t|f]; simpl in Hret.
  - destruct Hret as (_ & _ & Hsz & Hrows & _).
    exists t. split; [done|]. split; [done|].
    intros m Hm img. destruct (Hrows m Hm) as (row & Hrow & Hs & Hcells & Hrest).
    exists row. split; [done|]. split; [done|]. split.
    + intros i j Hi Hj. eexists. split; [by apply Hcells|]. split; [done|].
      apply inverted_pixel.
    + intros l Hl. by rewrite Hrest.
  - destruct Hret as [_ [Hlt | (m & Hm & Hbig)]]; [lia|].
    specialize (Hfit m Hm). lia.
Qed.

Lemma readImgData_first_call_witness :
  ∃ t, readImgData (λ _, plain 2 3 Byte.x10) "digit_" 2 None = Ok t ∧
       pa_size t = 2 ∧
       ∀ m, m < 2 →
         let img := image_of (λ _, plain 2 3 Byte.x10) "digit_" m in
         ∃ row, pa_rows t !! m = Some row ∧ ia_size row = inputLayer ∧
           (∀ i j, i < rows img → j < cols img →
              ∃ v, ia_cells row !! (i * cols img + j) = Some v ∧
                   v = (255 - Z.of_N (Byte.to_N (at_uchar img i j)))%Z ∧
                   (0 ≤ v ≤ 255)%Z) ∧
           (∀ l, rows img * cols img ≤ l → ia_cells row !! l = None).
Proof.
  apply (readImgData_first_call (λ _, plain 2 3 Byte.x10) "digit_" 2).
  intros m Hm. unfold image_of, inputLayer. simpl. lia.
Defined.

(** X21. An image that is too large: when the image of some sample has more
    than [inputLayer] pixels, [readImgData] does not end normally, on the
    first call and on any later one: it writes outside an array, behind the
    end of the row of that sample unless another such write comes first. *)
Theorem readImgData_overflow (imread : string → image) (file : string)
    (dataSize : nat) (static : option ptr_array) (m : nat) :
  m < dataSize →
  inputLayer < rows (image_of imread file m) * cols (image_of imread file m) →
  readImgData imread file dataSize static = Fault (OutOfBounds BufPixels).
Proof.
  intros Hm Hbig.
  pose proof (readImgData_returns imread file dataSize static) as Hret.
  destruct (readImgData imread file dataSize static) as [t|f]; simpl in Hret.
  - destruct Hret as (_ & Hfit & _). specialize (Hfit m Hm). lia.
  - by destruct Hret as [-> _].
Qed.

Lemma readImgData_overflow_witness :
  readImgData (λ _, plain 28 29 Byte.x00) "digit_" 1 None
  = Fault (OutOfBounds BufPixels).
Proof.
  apply (readImgData_overflow (λ _, plain 28 29 Byte.x00) "digit_" 1 None 0).
  - lia.
  - unfold image_of, inputLayer. simpl. lia.
Defined.

(** X22. The array of [readImgData] is [static]: a later call allocates
    nothing and works on the array [t1] of the first call, which earlier
    results still point to.  Asked for more samples than [t1] has rows, it
    writes outside an array: behind the end of [t1], unless an image that is
    too large comes first.  Otherwise (and with images that fit) it
    ends normally with the same array of the same size, in which the rows
    below [dataSize] now hold the images of this call and the rows from
    [dataSize] on are those of [t1]. *)
Theorem readImgData_second_call (imread : string → image) (file : string)
    (dataSize : nat) (t1 : ptr_array) :
  (pa_size t1 < dataSize →
   readImgData imread file dataSize (Some t1)
   = Fault (OutOfBounds BufPixels)) ∧
  (dataSize ≤ pa_size t1 →
   (∀ m, m < dataSize →
         rows (image_of imread file m) * cols (image_of imread file m)
         ≤ inputLayer) →
   ∃ t2, readImgData imread file dataSize (Some t1) = Ok t2 ∧
         pa_size t2 = pa_size t1 ∧
         (∀ m, dataSize ≤ m → pa_rows t2 !! m = pa_rows t1 !! m) ∧
         (∀ m, m < dataSize →
               ∃ row, pa_rows t2 !! m = Some row ∧
                      row_holds (image_of imread file m)
                        (new_int inputLayer) row)).
Proof.
  pose proof (readImgData_returns imread file dataSize (Some t1)) as Hret.
  destruct (readImgData imread file dataSize (Some t1)) as [t|f];
    simpl in Hret.
  - destruct Hret as (Hle & _ & Hsz & Hrows & Hrest). split; [lia|].
    intros _ _. exists t. done.
  - destruct Hret as [-> Hwhy]. split; [done|].
    intros Hle Hfit. destruct Hwhy as [Hlt | (m & Hm & Hbig)]; [lia|].
    specialize (Hfit m Hm). lia.
Qed.

Lemma readImgData_second_call_witness :
  readImgData (λ _, plain 1 2 Byte.xff) "digit_" 2 (Some (new_ptrs 1))
  = Fault (OutOfBounds BufPixels) ∧
  ∃ t2, readImgData (λ _, plain 1 2 Byte.xff) "digit_" 1 (Some (new_ptrs 2))
        = Ok t2 ∧
        pa_size t2 = pa_size (new_ptrs 2) ∧
        (∀ m, 1 ≤ m → pa_rows t2 !! m = pa_rows (new_ptrs 2) !! m) ∧
        (∀ m, m < 1 →
              ∃ row, pa_rows t2 !! m = Some row ∧
                     row_holds (image_of (λ _, plain 1 2 Byte.xff) "digit_" m)
                       (new_int inputLayer) row).
Proof.
  split.
  - apply (readImgData_second_call (λ _, plain 1 2 Byte.xff) "digit_" 2
             (new_ptrs 1)). simpl. lia.
  - apply (readImgData_second_call (λ _, plain 1 2 Byte.xff) "digit_" 1
             (new_ptrs 2)).
    + simpl. lia.
    + intros m Hm. unfold image_of, inputLayer. simpl. lia.
Defined.

End ImageSpec.

Section FileNames.
Import Images.
Local Set Warnings "-abstract-large-number".

Lemma string_length_app (s t : string) :
  String.length (s +:+ t) = String.length s + String.length t.
Proof. induction s as [|a s IH]; simpl; [done|]. by rewrite IH. Qed.

Lemma string_app_inv_tail (s s' t : string) : s +:+ t = s' +:+ t → s = s'.
Proof.
  revert s'. induction s as [|a s IH]; intros [|a' s'] E; simpl in *.
  - done.
  - apply (f_equal String.length) in E.
    rewrite !string_length_app in E. simpl in E.
    rewrite ?string_length_app in E. lia.
  - apply (f_equal String.length) in E.
    rewrite !string_length_app in E. simpl in E.
    rewrite ?string_length_app in E. lia.
  - injection E as -> E. by rewrite (IH s' E).
Qed.

Lemma length_fill (n : nat) (c : Ascii.ascii) (s : string) :
  String.length (fill n c s) = n + String.length s.
Proof. induction n as [|n IH]; simpl; [done|]. by rewrite IH. Qed.

Lemma parse_fill (n : nat) (s : string) :
  parse_number (fill n "0"%char s) = parse_number s.
Proof.
  induction n as [|n IH]; [done|]. rewrite <- IH. unfold parse_number. simpl.
  by destruct (NilEmpty.uint_of_string (fill n "0"%char s)).
Qed.

Lemma parse_format (w m : nat) :
  parse_number (format_number w "0"%char m) = Some m.
Proof.
  unfold format_number. rewrite parse_fill. unfold parse_number.
  rewrite NilEmpty.usu. simpl. by rewrite Unsigned.of_to.
Qed.

Lemma digits_within_sound (w k : nat) (d : Decimal.uint) (m : nat) :
  digits_within w k d = true → m < k →
  String.length
    (NilEmpty.string_of_uint (Decimal.rev (Nat.to_little_uint m d))) ≤ w.
Proof.
  revert d m. induction k as [|k IH]; intros d m Hall Hm; [lia|].
  simpl in Hall. apply andb_prop in Hall as [Hd Hall].
  destruct m as [|m].
  - simpl. by apply (bool_decide_unpack _), Is_true_true.
  - simpl. apply IH; [done|lia].
Qed.

Lemma digits_short (m : nat) :
  m < 10000 → String.length (NilEmpty.string_of_uint (Nat.to_uint m)) ≤ 4.
Proof.
  apply (digits_within_sound 4 10000 Decimal.zero m).
  vm_compute. reflexivity.
Qed.

(** X23. The file names of [readImgData]: the number of a sample is written
    with at least four characters, exactly four below 10000, and reading it
    back as a decimal number gives the sample index; the paths of different
    samples are therefore different. *)
Theorem format_number_names :
  (∀ w m, parse_number (format_number w "0"%char m) = Some m) ∧
  (∀ w c m, w ≤ String.length (format_number w c m)) ∧
  (∀ c m, m < 10000 → String.length (format_number 4 c m) = 4) ∧
  (∀ file m m',
     file +:+ format_number 4 "0"%char m +:+ ".png"
     = file +:+ format_number 4 "0"%char m' +:+ ".png" → m = m').
Proof.
  split; [exact parse_format|]. split; [|split].
  - intros w c m. unfold format_number. rewrite length_fill. lia.
  - intros c m Hm. unfold format_number. rewrite length_fill.
    pose proof (digits_short m Hm). lia.
  - intros file m m' E. apply String.app_inj, string_app_inv_tail in E.
    assert (E' : Some m = Some m')
      by (by rewrite <- (parse_format 4 m), <- (parse_format 4 m'), E).
    by injection E'.
Qed.

End FileNames.

Section ImagesForMain.
Import Images.

Lemma row_holds_pixels (img : image) (row : int_array) :
  row_holds img (new_int inputLayer) row →
  rows img * cols img = inputLayer →
  ∃ pixels, row_pixels row = Some pixels ∧
            length pixels = inputLayer ∧
            Forall (λ v, 0 ≤ v ≤ 255)%Z pixels.
Proof.
  intros (Hsz & Hcells & _) Hfull. simpl in Hsz.
  assert (Hcols : 0 < cols img).
  { destruct (cols img); [|lia]. unfold inputLayer in Hfull. lia. }
  assert (Hcell : ∀ l, l < inputLayer →
            ∃ v, ia_cells row !! l = Some v ∧ (0 ≤ v ≤ 255)%Z).
  { intros l Hl.
    pose proof (Nat.div_mod_eq l (cols img)) as Hdm.
    pose proof (Nat.mod_upper_bound l (cols img)) as Hmod.
    assert (Hdiv : l `div` cols img < rows img).
    { apply Nat.Div0.div_lt_upper_bound; lia. }
    eexists. split.
    - replace l with (l `div` cols img * cols img + l `mod` cols img) at 1
        by lia.
      apply Hcells; [done|lia].
    - apply inverted_pixel. }
  destruct (mapM_is_Some_2 (λ l, ia_cells row !! l) (seq 0 (ia_size row)))
    as [pixels Hpixels].
  { apply Forall_forall. intros l Hl%elem_of_seq. simpl.
    destruct (Hcell l) as (v & -> & _); [lia|eauto]. }
  exists pixels. split; [done|]. split.
  - apply length_mapM in Hpixels. rewrite length_seq in Hpixels. lia.
  - apply mapM_Some_1 in Hpixels. apply Forall_forall.
    intros v (k & Hk)%list_elem_of_lookup_1.
    destruct (Forall2_lookup_r _ _ _ _ _ Hpixels Hk) as (l & Hl & Hv).
    apply lookup_seq in Hl as [-> Hl].
    destruct (Hcell k) as (v' & Hv' & Hrange); [lia|]. simpl in Hv. congruence.
Qed.

Lemma row_holds_partial (img : image) (row : int_array) :
  row_holds img (new_int inputLayer) row →
  rows img * cols img < inputLayer →
  row_pixels row = None.
Proof.
  intros (Hsz & _ & Hrest) Hless. simpl in *.
  apply mapM_None_2, Exists_exists. exists (rows img * cols img).
  split; [apply elem_of_seq; lia|]. by rewrite Hrest.
Qed.

(** X24. What [main] finds in the rows: after the first call of
    [readImgData] with images that fit, the row of an image of exactly
    [inputLayer] pixels is written completely, with one number from 0 to 255
    for each of the [numNeuronsInputLayer] input neurons; the row of a
    smaller image (the empty image of a file that cannot be decoded among
    them) has cells that were never written among the [inputLayer] cells
    that the loops of [main] read. *)
Theorem readImgData_rows (imread : string → image) (file : string)
    (dataSize : nat) :
  (∀ m, m < dataSize →
        rows (image_of imread file m) * cols (image_of imread file m)
        ≤ inputLayer) →
  ∃ t, readImgData imread file dataSize None = Ok t ∧
    ∀ m, m < dataSize →
      let img := image_of imread file m in
      ∃ row, pa_rows t !! m = Some row ∧
        (rows img * cols img = inputLayer →
         ∃ pixels, row_pixels row = Some pixels ∧
                   length pixels = numNeuronsInputLayer ∧
                   Forall (λ v, 0 ≤ v ≤ 255)%Z pixels) ∧
        (rows img * cols img < inputLayer → row_pixels row = None).
Proof.
  intros Hfit.
  pose proof (readImgData_returns imread file dataSize None) as Hret.
  destruct (readImgData imread file dataSize None) as [t|f]; simpl in Hret.
  - destruct Hret as (_ & _ & _ & Hrows & _).
    exists t. split; [done|].
    intros m Hm img. destruct (Hrows m Hm) as (row & Hrow & Hholds).
    exists row. split; [done|]. split.
    + intros Hfull. by apply (row_holds_pixels img).
    + intros Hless. by apply (row_holds_partial img).
  - destruct Hret as [_ [Hlt | (m & Hm & Hbig)]]; [lia|].
    specialize (Hfit m Hm). lia.
Qed.

Lemma readImgData_rows_witness :
  ∃ t, readImgData (λ _, plain 28 28 Byte.x10) "digit_" 2 None = Ok t ∧
    ∀ m, m < 2 →
      let img := image_of (λ _, plain 28 28 Byte.x10) "digit_" m in
      ∃ row, pa_rows t !! m = Some row ∧
        (rows img * cols img = inputLayer →
         ∃ pixels, row_pixels row = Some pixels ∧
                   length pixels = numNeuronsInputLayer ∧
                   Forall (λ v, 0 ≤ v ≤ 255)%Z pixels) ∧
        (rows img * cols img < inputLayer → row_pixels row = None).
Proof.
  apply (readImgData_rows (λ _, plain 28 28 Byte.x10) "digit_" 2).
  intros m Hm. unfold image_of, inputLayer. simpl. lia.
Defined.

End ImagesForMain.

(* ===================================================================== *)
(** * The network in the arithmetic of the code *)

(** ** Readers and writers of neurons *)

Section AccessorsFP.
Import FP.
Implicit Types (h : heap) (p q : ptr_neuron_t) (v : layer).

Lemma fmap_length_weights_fp (o o' : option CNeuron) :
  m_weights <$> o = m_weights <$> o' →
  (length ∘ m_weights) <$> o = (length ∘ m_weights) <$> o'.
Proof. destruct o, o'; simpl; intros [=]; congruence. Qed.

Lemma neuron_ok_lookup_fp h k p :
  neuron_ok h k p → ∃ n, h !! p = Some n ∧ k ≤ length (m_weights n).
Proof. unfold neuron_ok. destruct (h !! p); [eauto | done]. Qed.

Lemma neuron_ok_le_fp h k k' p : k' ≤ k → neuron_ok h k p → neuron_ok h k' p.
Proof. unfold neuron_ok. destruct (h !! p); [lia | done]. Qed.

Lemma neuron_ok_ext_fp h h' k p :
  (length ∘ m_weights) <$> (h' !! p) = (length ∘ m_weights) <$> (h !! p) →
  neuron_ok h k p → neuron_ok h' k p.
Proof.
  unfold neuron_ok. destruct (h !! p), (h' !! p); simpl; try done.
  intros [= ->]. done.
Qed.

Lemma layer_ok_lookup_fp h k v i p :
  layer_ok h k v → v !! i = Some p → neuron_ok h k p.
Proof.
  unfold layer_ok. rewrite Forall_forall. intros Hv Hi.
  apply Hv. by eapply list_elem_of_lookup_2.
Qed.

Lemma layer_ok_le_fp h k k' v : k' ≤ k → layer_ok h k v → layer_ok h k' v.
Proof.
  intros Hk Hv. unfold layer_ok. eapply Forall_impl; [exact Hv|].
  intros p. by apply neuron_ok_le_fp.
Qed.

Lemma getNodeValue_ok_fp h k p :
  neuron_ok h k p → getNodeValue h p = Ok (value h p).
Proof.
  intros (n & Hn & _)%neuron_ok_lookup_fp.
  unfold getNodeValue, deref, value. by rewrite Hn.
Qed.

Lemma getWeight_ok_fp h k p j :
  neuron_ok h k p → j < k → getWeight h p j = Ok (weight h p j).
Proof.
  intros (n & Hn & Hk)%neuron_ok_lookup_fp Hj.
  unfold getWeight, deref, weight. rewrite Hn. simpl.
  destruct (lookup_lt_is_Some_2 (m_weights n) j) as [w Hw]; [lia|].
  rewrite Hw. f_equal. symmetry.
  by apply nth_lookup_Some with (d := S754_zero false).
Qed.

Lemma value_ext_fp h h' p : h' !! p = h !! p → value h' p = value h p.
Proof. unfold value. by intros ->. Qed.

Lemma weight_ext_fp h h' p j : h' !! p = h !! p → weight h' p j = weight h p j.
Proof. unfold weight. by intros ->. Qed.

Lemma weightedInput_ext_fp h h' v j :
  (∀ a, a ∈ v → h' !! a = h !! a) → weightedInput h' v j = weightedInput h v j.
Proof.
  unfold weightedInput. generalize (IEEE.float_of_Z 0).
  induction v as [|a v IH]; intros acc Hv; simpl; [done|].
  rewrite (weight_ext_fp h h' a), (value_ext_fp h h' a)
    by (apply Hv; by left).
  apply IH. intros a' Ha'. apply Hv. by right.
Qed.

Lemma setNodeValue_ok_fp h k p x :
  neuron_ok h k p →
  ∃ n, h !! p = Some n ∧
       setNodeValue p x h = Ok (<[p := mkNeuron x (m_weights n)]> h).
Proof.
  intros (n & Hn & _)%neuron_ok_lookup_fp. exists n. split; [done|].
  unfold setNodeValue, deref. by rewrite Hn.
Qed.

Lemma same_values_refl_fp h : same_values h h.
Proof. by intros p. Qed.

Lemma same_shape_refl_fp h : same_shape h h.
Proof. by intros p. Qed.

Lemma same_weights_refl_fp h : same_weights h h.
Proof. by intros p. Qed.

Lemma same_values_trans_fp h1 h2 h3 :
  same_values h1 h2 → same_values h2 h3 → same_values h1 h3.
Proof. intros H12 H23 p. by rewrite H23. Qed.

Lemma same_shape_trans_fp h1 h2 h3 :
  same_shape h1 h2 → same_shape h2 h3 → same_shape h1 h3.
Proof. intros H12 H23 p. by rewrite H23. Qed.

Lemma same_weights_trans_fp h1 h2 h3 :
  same_weights h1 h2 → same_weights h2 h3 → same_weights h1 h3.
Proof. intros H12 H23 p. by rewrite H23. Qed.

Lemma same_weights_shape_fp h h' : same_weights h h' → same_shape h h'.
Proof. intros Hw p. apply fmap_length_weights_fp, Hw. Qed.

Lemma same_values_value_fp h h' p : same_values h h' → value h' p = value h p.
Proof.
  intros Hv. specialize (Hv p). unfold value.
  destruct (h' !! p), (h !! p); simpl in Hv; congruence.
Qed.

Lemma same_weights_weight_fp h h' p j :
  same_weights h h' → weight h' p j = weight h p j.
Proof.
  intros Hw. specialize (Hw p). unfold weight.
  destruct (h' !! p), (h !! p); simpl in Hw; congruence.
Qed.

Lemma same_shape_layer_ok_fp h h' k v :
  same_shape h h' → layer_ok h k v → layer_ok h' k v.
Proof.
  intros Hs Hv. unfold layer_ok. eapply Forall_impl; [exact Hv|].
  intros p. apply neuron_ok_ext_fp, Hs.
Qed.

(** The weighted sum accumulated by the inner loop of [dotProd]. *)
Lemma weighted_sum_ok_fp h v j acc :
  layer_ok h (S j) v →
  for_each v (fun a value =>
    let* w := getWeight h a j in
    let* x := getNodeValue h a in
    Ok (fadd value (fmul w x))) acc
  = Ok (foldl (λ acc a, fadd acc (fmul (weight h a j) (value h a))) acc v).
Proof.
  revert acc. induction v as [|a v IH]; intros acc Hv; simpl; [done|].
  apply Forall_cons in Hv as [Ha Hv].
  rewrite (getWeight_ok_fp h (S j) a j Ha) by lia. simpl.
  rewrite (getNodeValue_ok_fp h (S j) a Ha). simpl.
  by apply IH.
Qed.

End AccessorsFP.

(** ** Forward propagation *)

Section DotProdFP.
Import FP.
Variable exp : spec_float → spec_float.
Implicit Types (h : heap) (p : ptr_neuron_t).

Lemma dotProd_returns_fp h (vpLayerA vpLayerB : layer) :
  layer_ok h (length vpLayerB) vpLayerA →
  layer_ok h 0 vpLayerB →
  NoDup vpLayerB →
  (∀ p, p ∈ vpLayerA → p ∉ vpLayerB) →
  returns (dotProd exp vpLayerA vpLayerB h)
    (λ h', (∀ p, p ∉ vpLayerB → h' !! p = h !! p) ∧
           (∀ j b, vpLayerB !! j = Some b →
              value h' b
              = applySigmoidFunction exp (weightedInput h vpLayerA j)) ∧
           same_weights h h')
    no_fault.
Proof.
  intros HA HB Hnd Hdisj. unfold dotProd.
  eapply returns_mono; [| |
    apply (for_loop_returns
      (λ i hi, (∀ p, p ∉ take i vpLayerB → hi !! p = h !! p) ∧
               (∀ j b, j < i → vpLayerB !! j = Some b →
                  value hi b
                  = applySigmoidFunction exp (weightedInput h vpLayerA j)) ∧
               same_weights h hi)
      no_fault (length vpLayerB))].
  - simpl. intros h' (Hout & Hdone & Hw). split; [|split; [|done]].
    + intros p Hp. apply Hout. by apply not_elem_of_take.
    + intros j b Hb. apply (Hdone j b); [|done]. by eapply lookup_lt_Some.
  - done.
  - split; [done|]. split; [intros; lia | apply same_weights_refl_fp].
  - intros i hi Hi (Hout & Hdone & Hw).
    assert (HAi : ∀ a, a ∈ vpLayerA → hi !! a = h !! a).
    { intros a Ha. apply Hout. intros Hin%elem_of_take.
      destruct Hin as (k & Hk & _). apply (Hdisj a Ha).
      by eapply list_elem_of_lookup_2. }
    rewrite weighted_sum_ok_fp.
    2:{ apply (same_shape_layer_ok_fp h); [by apply same_weights_shape_fp|].
        apply (layer_ok_le_fp h (length vpLayerB)); [lia|done]. }
    simpl. destruct (at_index_lt vpLayerB i Hi) as (b & Hb & ->). simpl.
    assert (Hbok : neuron_ok hi 0 b).
    { apply (neuron_ok_ext_fp h).
      - apply fmap_length_weights_fp, Hw.
      - by eapply layer_ok_lookup_fp. }
    match goal with
    | |- returns (setNodeValue b ?x hi) _ _ =>
        destruct (setNodeValue_ok_fp hi 0 b x Hbok) as (n & Hn & ->)
    end.
    simpl. split; [|split].
    + intros p Hp. rewrite (take_S_r _ _ b) in Hp by done.
      apply not_elem_of_app in Hp as [Hp1 Hp2].
      rewrite lookup_insert_ne; [by apply Hout|].
      intros ->. apply Hp2. by apply list_elem_of_singleton.
    + intros j b' Hj Hb'. destruct (decide (j = i)) as [->|Hne].
      * rewrite Hb in Hb'. injection Hb' as <-.
        unfold value at 1. rewrite lookup_insert_eq. simpl.
        f_equal. by apply (weightedInput_ext_fp h hi).
      * assert (b' ≠ b).
        { intros ->. apply Hne. by eapply NoDup_lookup. }
        unfold value at 1. rewrite lookup_insert_ne by done.
        apply Hdone; [lia|done].
    + intros p. destruct (decide (p = b)) as [->|Hne].
      * rewrite lookup_insert_eq. simpl. rewrite <- Hw, Hn. done.
      * rewrite lookup_insert_ne by done. apply Hw.
Qed.

End DotProdFP.

(** The real numbers behind the [float]s of the examples. *)
Lemma SF2R_finite (s : bool) (m : positive) (e : Z) :
  FP.SF2R (S754_finite s m e)
  = ((if s then - IZR (Zpos m) else IZR (Zpos m))
     * (if (0 <=? e)%Z then IZR (2 ^ e) else / IZR (2 ^ (- e))))%R.
Proof. reflexivity. Qed.

(** Turns the real numbers denoted by explicit values into numerals. *)
Ltac real_values :=
  rewrite ?SF2R_finite; simpl;
  repeat match goal with
         | |- context [IZR (?a ^ ?b)] =>
             let v := eval vm_compute in (a ^ b)%Z in
             change (a ^ b)%Z with v
         end.

Section DotProdRounded.
Local Open Scope R_scope.

Lemma half_lt_sigmoid_1 : 1 / 2 < applySigmoidFunction 1.
Proof. rewrite <- sigmoid_at_0. apply sigmoid_increasing. lra. Qed.

(** Where ISO C fixes [exp], the sigmoid of the code is that of [IEEE]. *)
Lemma applySigmoidFunction_iso (exp : spec_float → spec_float)
    (val y : spec_float) :
  FP.iso_exp exp →
  IEEE.applySigmoidFunction val = Some y →
  FP.applySigmoidFunction exp val = y.
Proof.
  intros Hexp. unfold IEEE.applySigmoidFunction, FP.applySigmoidFunction.
  destruct (IEEE.c_exp (IEEE.to_double (SFopp val))) as [e|] eqn:E; [|done].
  intros [= <-]. by rewrite (Hexp _ _ E).
Qed.

(** C1 as stated fails on the arithmetic of the code.  With three upstream
    neurons of activation 1 and the weights 10^8, 1 and -10^8 the [float]
    accumulator goes from 10^8 to 10^8 again (the 1 is lost) and back to 0,
    so the downstream neuron receives [sigmoid(0)], exactly 0.5, whatever
    [exp] the library has; the sum of the three products is 1, and the claim
    asks for [1 / (1 + e^-1)], which is more than 1/2. *)
Lemma dotProd_counterexample :
  FP.layer_ok FP.cancel_heap 1 [0; 1; 2]%nat ∧
  FP.layer_ok FP.cancel_heap 0 [3%nat] ∧
  NoDup ([0; 1; 2] ++ [3])%nat ∧
  Rsum (map (λ a, FP.SF2R (FP.weight FP.cancel_heap a 0)
                  * FP.SF2R (FP.value FP.cancel_heap a)) [0; 1; 2]%nat) = 1 ∧
  ∀ exp, FP.iso_exp exp →
    ∃ h', FP.dotProd exp [0; 1; 2]%nat [3%nat] FP.cancel_heap = Ok h' ∧
      FP.value h' 3 = FP.half ∧
      FP.SF2R (FP.value h' 3) = 1 / 2 ∧
      FP.SF2R (FP.value h' 3)
      ≠ applySigmoidFunction
          (Rsum (map (λ a, FP.SF2R (FP.weight FP.cancel_heap a 0)
                           * FP.SF2R (FP.value FP.cancel_heap a))
                     [0; 1; 2]%nat)).
Proof.
  assert (HA : FP.layer_ok FP.cancel_heap 1 [0; 1; 2]%nat) by by_decision.
  assert (HB : FP.layer_ok FP.cancel_heap 0 [3%nat]) by by_decision.
  assert (Hnd : NoDup ([0; 1; 2] ++ [3])%nat) by by_decision.
  assert (Hsum : Rsum (map (λ a, FP.SF2R (FP.weight FP.cancel_heap a 0)
                  * FP.SF2R (FP.value FP.cancel_heap a)) [0; 1; 2]%nat) = 1).
  { replace (map _ _)
      with [FP.SF2R (S754_finite false 12500000 3)
            * FP.SF2R (S754_finite false 8388608 (-23));
            FP.SF2R (S754_finite false 8388608 (-23))
            * FP.SF2R (S754_finite false 8388608 (-23));
            FP.SF2R (S754_finite true 12500000 3)
            * FP.SF2R (S754_finite false 8388608 (-23))]
      by reflexivity.
    real_values. lra. }
  split; [done|]. split; [done|]. split; [done|]. split; [done|].
  intros exp Hexp.
  apply NoDup_app in Hnd as (_ & Hdisj & HndB).
  destruct (returns_ok _ _ (dotProd_returns_fp exp FP.cancel_heap
              [0; 1; 2]%nat [3%nat] HA HB HndB Hdisj))
    as (h' & Hrun & _ & Hdone & _).
  exists h'. split; [done|].
  assert (Hval : FP.value h' 3 = FP.half).
  { rewrite (Hdone 0%nat 3%nat eq_refl).
    apply applySigmoidFunction_iso; [done|]. vm_compute. reflexivity. }
  split; [done|]. rewrite Hval, Hsum.
  assert (Hhalf : FP.SF2R FP.half = 1 / 2).
  { replace FP.half with (S754_finite false 8388608 (-24))
      by (vm_compute; reflexivity).
    real_values. lra. }
  split; [done|]. rewrite Hhalf. pose proof half_lt_sigmoid_1. lra.
Qed.

(** C1, amended. Forward propagation in the arithmetic of the code: when the
    two layers are made of distinct, valid neurons and every upstream weight
    row reaches the downstream layer, [dotProd] ends normally and the
    downstream neuron of index [j] holds [applySigmoidFunction raw], the
    [float] that the code computes for [1 / (1 + exp(-raw))], where [raw] is
    accumulated in a [float] from 0 over the upstream neurons in their
    order, one rounded product [weight(j) * value] and one rounded sum per
    neuron, with the weights and activations the upstream neurons had at
    entry.  The upstream neurons and all weights are left as they were. *)
Theorem dotProd_rounded (exp : spec_float → spec_float) (h : FP.heap)
    (vpLayerA vpLayerB : layer) :
  FP.layer_ok h (length vpLayerB) vpLayerA →
  FP.layer_ok h 0 vpLayerB →
  NoDup (vpLayerA ++ vpLayerB) →
  ∃ h', FP.dotProd exp vpLayerA vpLayerB h = Ok h' ∧
    (∀ j b, vpLayerB !! j = Some b →
       FP.value h' b
       = FP.applySigmoidFunction exp
           (foldl (λ raw a, FP.fadd raw (FP.fmul (FP.weight h a j)
                                                 (FP.value h a)))
                  (IEEE.float_of_Z 0) vpLayerA)) ∧
    (∀ a, a ∈ vpLayerA → h' !! a = h !! a) ∧
    (∀ p, FP.m_weights <$> (h' !! p) = FP.m_weights <$> (h !! p)).
Proof.
  intros HA HB (_ & Hdisj & HndB)%NoDup_app.
  destruct (returns_ok _ _ (dotProd_returns_fp exp h vpLayerA vpLayerB
              HA HB HndB Hdisj))
    as (h' & Hrun & Hout & Hdone & Hw).
  exists h'. split; [done|]. split; [|split].
  - intros j b Hb. by rewrite (Hdone j b Hb).
  - intros a Ha. apply Hout. by apply Hdisj.
  - exact Hw.
Qed.

Lemma dotProd_rounded_witness :
  ∃ h', FP.dotProd FP.exp_example [0%nat] [1%nat] FP.small_heap = Ok h' ∧
    (∀ j b, [1%nat] !! j = Some b →
       FP.value h' b
       = FP.applySigmoidFunction FP.exp_example
           (foldl (λ raw a, FP.fadd raw (FP.fmul (FP.weight FP.small_heap a j)
                                                 (FP.value FP.small_heap a)))
                  (IEEE.float_of_Z 0) [0%nat])) ∧
    (∀ a, a ∈ [0%nat] → h' !! a = FP.small_heap !! a) ∧
    (∀ p, FP.m_weights <$> (h' !! p) = FP.m_weights <$> (FP.small_heap !! p)).
Proof.
  apply (dotProd_rounded FP.exp_example FP.small_heap [0%nat] [1%nat]);
    by_decision.
Defined.

End DotProdRounded.

(** ** The forward pass and the error vector of a training sample *)

Section ForwardPassFP.
Import FP.
Variable exp : spec_float → spec_float.
Implicit Types (h : heap) (v : layer).
Local Arguments IEEE.float_of_Z : simpl never.
Local Arguments IEEE.double_of_Z : simpl never.
Local Arguments IEEE.to_double : simpl never.
Local Arguments IEEE.to_float : simpl never.
Local Arguments fdiv : simpl never.
Local Arguments dsub : simpl never.

Lemma same_weights_layer_ok_fp h h' k v :
  same_weights h h' → layer_ok h k v → layer_ok h' k v.
Proof. intros Hw. apply same_shape_layer_ok_fp. by apply same_weights_shape_fp. Qed.

(** [setInputs] stores the scaled pixels and touches nothing else. *)
Lemma setInputs_returns_fp h v (pixels : list Z) :
  layer_ok h 0 v → NoDup v → length v ≤ length pixels →
  returns (setInputs v pixels h)
    (λ h', same_weights h h' ∧
           (∀ p, p ∉ v → h' !! p = h !! p) ∧
           ∀ i a px, v !! i = Some a → pixels !! i = Some px →
                     value h' a
                     = fdiv (IEEE.float_of_Z px) (IEEE.float_of_Z 255))
    no_fault.
Proof.
  intros Hv Hnd Hlen. unfold setInputs.
  eapply returns_mono; [| |
    apply (for_loop_returns
             (λ i h', same_weights h h' ∧
                      (∀ p, p ∉ take i v → h' !! p = h !! p) ∧
                      ∀ k a px, k < i → v !! k = Some a →
                                pixels !! k = Some px →
                                value h' a
                                = fdiv (IEEE.float_of_Z px)
                                       (IEEE.float_of_Z 255))
             no_fault (length v))].
  - simpl. intros h' (Hw & Hfr & Hval). split; [done|]. split.
    + intros p Hp. by apply Hfr, not_elem_of_take.
    + intros i a px Ha Hpx. apply (Hval i a px); [|done|done].
      by eapply lookup_lt_Some.
  - done.
  - split; [apply same_weights_refl_fp|]. split; [done|]. intros; lia.
  - intros i hi Hi (Hw & Hfr & Hval).
    destruct (lookup_lt_is_Some_2 pixels i) as [px Hpx]; [lia|].
    rewrite Hpx. simpl.
    destruct (at_index_lt v i Hi) as (a & Ha & ->). simpl.
    destruct (setNodeValue_ok_fp hi 0 a
                (fdiv (IEEE.float_of_Z px) (IEEE.float_of_Z 255)))
      as (n & Hn & ->).
    { eapply layer_ok_lookup_fp; [|exact Ha].
      by apply (same_weights_layer_ok_fp h). }
    simpl. split; [|split].
    + intros p. destruct (decide (p = a)) as [->|Hne].
      * rewrite lookup_insert_eq. simpl. by rewrite <- Hw, Hn.
      * rewrite lookup_insert_ne by done. apply Hw.
    + intros p Hp. rewrite (take_S_r _ _ a) in Hp by done.
      apply not_elem_of_app in Hp as [Hp1 Hp2].
      rewrite lookup_insert_ne; [by apply Hfr|].
      intros ->. apply Hp2. by apply list_elem_of_singleton.
    + intros k a' px' Hk Ha' Hpx'. destruct (decide (k = i)) as [->|Hne].
      * rewrite Ha in Ha'. injection Ha' as <-.
        rewrite Hpx in Hpx'. injection Hpx' as <-.
        unfold value. by rewrite lookup_insert_eq.
      * assert (a' ≠ a).
        { intros ->. apply Hne. by eapply NoDup_lookup. }
        unfold value at 1. rewrite lookup_insert_ne by done.
        apply (Hval k a' px'); [lia|done|done].
Qed.

Lemma forwardPass_returns_fp h
    (vpInputLayer vpHiddenLayer vpOutputLayer : layer) (pixels : list Z) :
  layer_ok h (length vpHiddenLayer) vpInputLayer →
  layer_ok h (length vpOutputLayer) vpHiddenLayer →
  layer_ok h 0 vpOutputLayer →
  NoDup (vpInputLayer ++ vpHiddenLayer ++ vpOutputLayer) →
  length vpInputLayer ≤ length pixels →
  returns (forwardPass exp vpInputLayer vpHiddenLayer vpOutputLayer pixels h)
    (λ h', same_weights h h' ∧
       (∀ p, p ∉ vpInputLayer → p ∉ vpHiddenLayer → p ∉ vpOutputLayer →
             h' !! p = h !! p) ∧
       (∀ i a px, vpInputLayer !! i = Some a → pixels !! i = Some px →
                  value h' a
                  = fdiv (IEEE.float_of_Z px) (IEEE.float_of_Z 255)) ∧
       (∀ j b, vpHiddenLayer !! j = Some b →
               value h' b
               = applySigmoidFunction exp (weightedInput h' vpInputLayer j)) ∧
       (∀ k c, vpOutputLayer !! k = Some c →
               value h' c
               = applySigmoidFunction exp
                   (weightedInput h' vpHiddenLayer k)))
    no_fault.
Proof.
  intros HA HB HC Hnd Hpx.
  apply NoDup_app in Hnd as (HndA & HdisjA & Hnd).
  apply NoDup_app in Hnd as (HndB & HdisjB & HndC).
  assert (HAB : ∀ p, p ∈ vpInputLayer → p ∉ vpHiddenLayer).
  { intros p Hp Hin. apply (HdisjA p Hp). apply elem_of_app. by left. }
  assert (HAC : ∀ p, p ∈ vpInputLayer → p ∉ vpOutputLayer).
  { intros p Hp Hin. apply (HdisjA p Hp). apply elem_of_app. by right. }
  assert (H0 : ∀ g k v, layer_ok g k v → layer_ok g 0 v).
  { intros g k v. apply layer_ok_le_fp. lia. }
  unfold forwardPass.
  destruct (returns_ok _ _ (setInputs_returns_fp h vpInputLayer pixels
                              (H0 _ _ _ HA) HndA Hpx))
    as (h1 & -> & Hw1 & Hfr1 & Hval1).
  simpl.
  assert (HA1 := same_weights_layer_ok_fp _ _ _ _ Hw1 HA).
  assert (HB1 := same_weights_layer_ok_fp _ _ _ _ Hw1 HB).
  destruct (returns_ok _ _ (dotProd_returns_fp exp h1 vpInputLayer
                              vpHiddenLayer HA1 (H0 _ _ _ HB1) HndB HAB))
    as (h2 & -> & Hfr2 & Hval2 & Hw2).
  simpl.
  pose proof (same_weights_trans_fp _ _ _ Hw1 Hw2) as Hw12.
  destruct (returns_ok _ _ (dotProd_returns_fp exp h2 vpHiddenLayer
              vpOutputLayer
              (same_weights_layer_ok_fp _ _ _ _ Hw12 HB)
              (same_weights_layer_ok_fp _ _ _ _ Hw12 HC)
              HndC HdisjB))
    as (h3 & -> & Hfr3 & Hval3 & Hw3).
  simpl.
  split; [by eapply same_weights_trans_fp|]. split; [|split; [|split]].
  - intros p HpA HpB HpC. rewrite Hfr3, Hfr2 by done. by apply Hfr1.
  - intros i a px Ha Hp.
    assert (a ∈ vpInputLayer) by (by eapply list_elem_of_lookup_2).
    rewrite (value_ext_fp h2 h3), (value_ext_fp h1 h2) by auto.
    by apply (Hval1 i a px).
  - intros j b Hb.
    assert (b ∈ vpHiddenLayer) by (by eapply list_elem_of_lookup_2).
    rewrite (value_ext_fp h2 h3) by auto.
    rewrite (Hval2 j b Hb).
    f_equal. symmetry. apply weightedInput_ext_fp.
    intros a Ha. rewrite Hfr3, Hfr2 by auto. done.
  - intros k c Hc.
    rewrite (Hval3 k c Hc).
    f_equal. symmetry. apply weightedInput_ext_fp.
    intros b Hb. apply Hfr3. by apply HdisjB.
Qed.

Lemma computeResultErrorRate_returns_fp h (vpOutputLayer : layer)
    (digit : nat) :
  layer_ok h 0 vpOutputLayer →
  length vpOutputLayer ≤ numNeuronsOutputLayer →
  returns (computeResultErrorRate vpOutputLayer digit h)
    (λ e, a1_size e = numNeuronsOutputLayer ∧
          ∀ k c, vpOutputLayer !! k = Some c →
            a1_cells e !! k
            = Some (dsub (IEEE.double_of_Z (if decide (digit = k) then 1 else 0))
                         (IEEE.to_double (value h c))))
    no_fault.
Proof.
  intros HC Hlen. unfold computeResultErrorRate.
  eapply returns_mono; [| |
    apply (for_loop_returns
             (λ i e, a1_size e = numNeuronsOutputLayer ∧
                     ∀ k c, k < i → vpOutputLayer !! k = Some c →
                       a1_cells e !! k
                       = Some (dsub (IEEE.double_of_Z
                                       (if decide (digit = k) then 1 else 0))
                                    (IEEE.to_double (value h c))))
             no_fault (length vpOutputLayer))].
  - simpl. intros e [Hsz Hcells]. split; [done|]. intros k c Hc.
    apply Hcells; [|done]. by eapply lookup_lt_Some.
  - done.
  - split; [done|]. intros; lia.
  - intros i e Hi [Hsz Hcells].
    unfold write1 at 1. rewrite decide_True by lia. simpl.
    destruct (at_index_lt vpOutputLayer i Hi) as (c & Hc & ->). simpl.
    rewrite (getNodeValue_ok_fp h 0 c) by (by eapply layer_ok_lookup_fp).
    simpl. unfold read1; simpl. rewrite decide_True by lia.
    rewrite lookup_insert_eq. simpl.
    unfold write1; simpl. rewrite decide_True by lia. simpl.
    split; [done|]. intros k c' Hk Hc'.
    destruct (decide (k = i)) as [->|Hne].
    + rewrite Hc in Hc'. injection Hc' as <-. by rewrite lookup_insert_eq.
    + do 2 (rewrite lookup_insert_ne by done). apply Hcells; [lia|done].
Qed.

End ForwardPassFP.

(** ** Backpropagation in the arithmetic of the code *)

Section GradientsFP.
Import FP.
Variable exp : spec_float → spec_float.
Variables (h : heap) (vpLayerB vpLayerC : layer) (resultErrorRate : array1).
Hypothesis HB : layer_ok h (length vpLayerC) vpLayerB.
Hypothesis Herr : error_ok resultErrorRate (length vpLayerC).
Hypothesis HfitB : length vpLayerB ≤ numNeuronsHiddenLayer.
Hypothesis HfitC : length vpLayerC ≤ numNeuronsOutputLayer.
Local Arguments IEEE.float_of_Z : simpl never.
Local Arguments IEEE.double_of_Z : simpl never.
Local Arguments IEEE.to_double : simpl never.
Local Arguments IEEE.to_float : simpl never.
Local Arguments dadd : simpl never.
Local Arguments dmul : simpl never.
Local Arguments fsub : simpl never.
Local Arguments learningRate : simpl never.

Lemma error_ok_read_fp e n k :
  error_ok e n → k < n → read1 BufResultErrorRate e k = Ok (errorAt e k).
Proof.
  unfold error_ok. rewrite Forall_forall. intros He Hk.
  destruct (He k) as [Hsz [x Hx]].
  { apply elem_of_seq. lia. }
  unfold read1, errorAt. rewrite decide_True by done. by rewrite Hx.
Qed.

Lemma read1_ok_fp b a i x :
  i < a1_size a → a1_cells a !! i = Some x → read1 b a i = Ok x.
Proof. intros Hi Hx. unfold read1. rewrite decide_True by done. by rewrite Hx. Qed.

Lemma read2_ok_fp b a i j x :
  i < a2_rows a → j < a2_cols a →
  a2_cells a !! (i, j) = Some x → read2 b a i j = Ok x.
Proof.
  intros Hi Hj Hx. unfold read2. rewrite decide_True by done. by rewrite Hx.
Qed.

Lemma backpropagatedError_S_fp g b n e :
  backpropagatedError g b (S n) e
  = dadd (backpropagatedError g b n e)
         (dmul (IEEE.to_double (weight g b n)) (errorAt e n)).
Proof.
  unfold backpropagatedError. rewrite seq_S, foldl_app. reflexivity.
Qed.

Lemma gradients_inner_returns_fp sc i b :
  vpLayerB !! i = Some b →
  a2_rows (DeltaWjk sc) = numNeuronsHiddenLayer →
  a2_cols (DeltaWjk sc) = numNeuronsOutputLayer →
  returns
    (for_loop (length vpLayerC) (fun j '(nodeVal, dWjk) =>
       let* w := getWeight h b j in
       let* e := read1 BufResultErrorRate resultErrorRate j in
       let nodeVal := dadd nodeVal (dmul (IEEE.to_double w) e) in
       let* x := getNodeValue h b in
       let* dWjk :=
         write2 BufDeltaWjk dWjk i j
           (IEEE.to_float
              (dmul (dmul (IEEE.to_double learningRate) e)
                    (IEEE.to_double x))) in
       Ok (nodeVal, dWjk)) (IEEE.double_of_Z 0, DeltaWjk sc))
    (λ st, a2_rows (snd st) = numNeuronsHiddenLayer ∧
           a2_cols (snd st) = numNeuronsOutputLayer ∧
           fst st = backpropagatedError h b (length vpLayerC) resultErrorRate ∧
           (∀ k, k < length vpLayerC →
              a2_cells (snd st) !! (i, k)
              = Some (hiddenIncrement h resultErrorRate b k)) ∧
           (∀ i' k, i' ≠ i →
              a2_cells (snd st) !! (i', k)
              = a2_cells (DeltaWjk sc) !! (i', k)))
    no_fault.
Proof.
  intros Hb Hrows Hcols.
  pose proof (layer_ok_lookup_fp _ _ _ _ _ HB Hb) as Hbok.
  assert (Hi : i < length vpLayerB) by (by eapply lookup_lt_Some).
  apply (for_loop_returns
    (λ j (st : spec_float * array2),
       a2_rows (snd st) = numNeuronsHiddenLayer ∧
       a2_cols (snd st) = numNeuronsOutputLayer ∧
       fst st = backpropagatedError h b j resultErrorRate ∧
       (∀ k, k < j →
          a2_cells (snd st) !! (i, k)
          = Some (hiddenIncrement h resultErrorRate b k)) ∧
       (∀ i' k, i' ≠ i →
          a2_cells (snd st) !! (i', k) = a2_cells (DeltaWjk sc) !! (i', k)))).
  - simpl. split; [done|]. split; [done|]. split; [done|].
    split; [intros; lia | done].
  - intros j [nodeVal dW] Hj (Hr & Hc & Hnv & Hrow & Hother).
    simpl in *.
    rewrite (getWeight_ok_fp h _ b j Hbok Hj). simpl.
    rewrite (error_ok_read_fp _ _ j Herr Hj). simpl.
    rewrite (getNodeValue_ok_fp h _ b Hbok). simpl.
    unfold write2. rewrite decide_True by lia. simpl.
    split; [done|]. split; [done|]. split.
    { rewrite backpropagatedError_S_fp. by rewrite Hnv. }
    split.
    + intros k Hk. destruct (decide (k = j)) as [->|Hne].
      * by rewrite lookup_insert_eq.
      * rewrite lookup_insert_ne by congruence. apply Hrow. lia.
    + intros i' k Hi'. rewrite lookup_insert_ne by congruence. by apply Hother.
Qed.

Lemma bp_gradients_returns_fp sc0 :
  scratch_dims sc0 →
  returns (bp_gradients exp h vpLayerB vpLayerC resultErrorRate sc0)
    (gradients_post exp h vpLayerB vpLayerC resultErrorRate sc0
       (length vpLayerB))
    no_fault.
Proof.
  intros Hdims. unfold bp_gradients.
  apply for_loop_returns.
  - split; [done|]. split; [done|]. split; intros; lia.
  - intros i sc Hi (Hd & Hik & HJ & HW).
    destruct (at_index_lt vpLayerB i Hi) as (b & Hb & ->). simpl.
    pose proof (layer_ok_lookup_fp _ _ _ _ _ HB Hb) as Hbok.
    destruct Hd as (Hd1 & Hd2 & Hd3 & Hd4 & Hd5).
    apply returns_bind.
    eapply returns_mono;
      [| |apply (gradients_inner_returns_fp sc i b Hb Hd1 Hd2)].
    2:{ by intros f. }
    intros [nodeVal dW] (Hr & Hc & Hnv & Hrow & Hother).
    simpl in Hr, Hc, Hnv, Hrow, Hother. simpl.
    rewrite (getNodeValue_ok_fp h _ b Hbok). simpl.
    unfold write1. rewrite decide_True by lia. simpl.
    split; [done|]. split; [done|]. split.
    + intros i' b' Hi' Hb'. simpl. destruct (decide (i' = i)) as [->|Hne].
      * rewrite Hb in Hb'. injection Hb' as <-.
        rewrite lookup_insert_eq. unfold hiddenDelta. by rewrite Hnv.
      * rewrite lookup_insert_ne by done. apply HJ; [lia|done].
    + intros i' b' k Hi' Hb' Hk. simpl.
      destruct (decide (i' = i)) as [->|Hne].
      * rewrite Hb in Hb'. injection Hb' as <-. by apply Hrow.
      * rewrite Hother by done. apply HW; [lia|done|done].
Qed.

End GradientsFP.

Section RowUpdateFP.
Import FP.
Implicit Types (h : heap) (p q : ptr_neuron_t).
Local Arguments fadd : simpl never.

Lemma nth_insert_fp (l : list spec_float) (j k : nat) (w d : spec_float) :
  j < length l →
  nth k (<[j := w]> l) d = if decide (k = j) then w else nth k l d.
Proof.
  intros Hj. rewrite !nth_lookup. case_decide as Hk.
  - subst. by rewrite list_lookup_insert_eq.
  - by rewrite list_lookup_insert_ne.
Qed.

(** One [setWeight] on a valid index, in terms of the readers. *)
Lemma setWeight_ok_fp h k p j w :
  neuron_ok h k p → j < k →
  ∃ h', setWeight p j w h = Ok h' ∧
    same_values h h' ∧ same_shape h h' ∧
    (∀ q, q ≠ p → h' !! q = h !! q) ∧
    (∀ i, weight h' p i = if decide (i = j) then w else weight h p i).
Proof.
  intros (n & Hn & Hk)%neuron_ok_lookup_fp Hj.
  unfold setWeight, deref. rewrite Hn. simpl.
  rewrite decide_True by lia.
  eexists. split; [done|]. split; [|split; [|split]].
  - intros q. destruct (decide (q = p)) as [->|Hne].
    + by rewrite lookup_insert_eq, Hn.
    + by rewrite lookup_insert_ne.
  - intros q. destruct (decide (q = p)) as [->|Hne].
    + rewrite lookup_insert_eq, Hn. simpl. by rewrite length_insert.
    + by rewrite lookup_insert_ne.
  - intros q Hq. by rewrite lookup_insert_ne.
  - intros i. unfold weight. rewrite lookup_insert_eq, Hn. simpl.
    apply nth_insert_fp. lia.
Qed.

Lemma row_updated_0_fp h p d : row_updated h p d 0 h.
Proof.
  split; [apply same_values_refl_fp|]. split; [apply same_shape_refl_fp|].
  split; [done|]. intros k. by rewrite decide_False by lia.
Qed.

(** The step shared by the two update loops:
    [setWeight(j, getWeight(j) + d j)]. *)
Lemma row_updated_step_fp h0 h p d j k x :
  neuron_ok h0 k p → j < k →
  row_updated h0 p d j h →
  x = d j →
  getWeight h p j = Ok (weight h0 p j) ∧
  ∃ h', setWeight p j (fadd (weight h0 p j) x) h = Ok h' ∧
        row_updated h0 p d (S j) h'.
Proof.
  intros Hok Hj (Hv & Hs & Hfr & Hw) ->.
  assert (Hok' : neuron_ok h k p) by (eapply neuron_ok_ext_fp; [apply Hs|done]).
  split.
  - rewrite (getWeight_ok_fp h k p j Hok' Hj). f_equal.
    rewrite Hw. by rewrite decide_False by lia.
  - destruct (setWeight_ok_fp h k p j (fadd (weight h0 p j) (d j)) Hok' Hj)
      as (h' & -> & Hv' & Hs' & Hfr' & Hw').
    exists h'. split; [done|].
    split; [by eapply same_values_trans_fp|].
    split; [by eapply same_shape_trans_fp|].
    split.
    + intros q Hq. rewrite Hfr' by done. by apply Hfr.
    + intros i. rewrite Hw'. case_decide as Hi.
      * subst. by rewrite decide_True by lia.
      * rewrite Hw. repeat case_decide; try lia; done.
Qed.

Lemma rows_updated_0_fp h (v : layer) m d : rows_updated h v m d 0 h.
Proof.
  split; [apply same_values_refl_fp|]. split; [apply same_shape_refl_fp|].
  split; [done|]. intros; lia.
Qed.

(** A finished row extends the updated part of the layer by one neuron. *)
Lemma rows_updated_step_fp h0 (v : layer) m d d' i p hi h' :
  NoDup v → v !! i = Some p →
  rows_updated h0 v m d i hi →
  row_updated hi p d' m h' →
  (∀ k, k < m → d' k = d p k) →
  rows_updated h0 v m d (S i) h'.
Proof.
  intros Hnd Hp (Hv & Hs & Hfr & Hw) (Hv' & Hs' & Hfr' & Hw') Hd.
  assert (Hpi : p ∉ take i v).
  { intros (k & Hk & Hlt)%elem_of_take.
    assert (k = i) by (by eapply NoDup_lookup). lia. }
  split; [by eapply same_values_trans_fp|].
  split; [by eapply same_shape_trans_fp|].
  split.
  - intros q Hq. rewrite (take_S_r _ _ p) in Hq by done.
    apply not_elem_of_app in Hq as [Hq1 Hq2].
    rewrite Hfr'; [by apply Hfr|].
    intros ->. apply Hq2. by apply list_elem_of_singleton.
  - intros i' q k Hi' Hq. destruct (decide (i' = i)) as [->|Hne].
    + rewrite Hp in Hq. injection Hq as <-.
      rewrite Hw'. rewrite (weight_ext_fp h0 hi p k (Hfr p Hpi)).
      case_decide; [|done]. by rewrite Hd.
    + assert (q ≠ p).
      { intros ->. apply Hne. by eapply NoDup_lookup. }
      rewrite (weight_ext_fp hi h' q k) by auto.
      apply (Hw i'); [lia|done].
Qed.

End RowUpdateFP.

Section UpdateInputFP.
Import FP.
Variables (vpLayerA vpLayerB : layer) (st0 : heap * scratch).
Variable dJ : nat → spec_float.
Hypothesis HA : layer_ok (fst st0) (length vpLayerB) vpLayerA.
Hypothesis HndA : NoDup vpLayerA.
Hypothesis Hdims : scratch_dims (snd st0).
Hypothesis HfitA : length vpLayerA ≤ numNeuronsInputLayer.
Hypothesis HfitB : length vpLayerB ≤ numNeuronsHiddenLayer.
Hypothesis HJ :
  ∀ j, j < length vpLayerB → a1_cells (DeltaJ (snd st0)) !! j = Some (dJ j).
Local Arguments fadd : simpl never.
Local Arguments fmul : simpl never.
Local Arguments learningRate : simpl never.

Lemma updateInput_inner_returns_fp i a st :
  vpLayerA !! i = Some a →
  neuron_ok (fst st) (length vpLayerB) a →
  DeltaJ (snd st) = DeltaJ (snd st0) →
  a2_rows (DeltaWik (snd st)) = numNeuronsInputLayer →
  a2_cols (DeltaWik (snd st)) = numNeuronsHiddenLayer →
  returns
    (for_loop (length vpLayerB) (fun j '(h, sc) =>
       let* a := at_index vpLayerA i in
       let* dj := read1 BufDeltaJ (DeltaJ sc) j in
       let* x := getNodeValue h a in
       let* dWik := write2 BufDeltaWik (DeltaWik sc) i j
                      (fmul (fmul learningRate dj) x) in
       let* oldWeight := getWeight h a j in
       let* d := read2 BufDeltaWik dWik i j in
       let* h := setWeight a j (fadd oldWeight d) h in
       Ok (h, mkScratch (DeltaWjk sc) dWik (DeltaJ sc))) st)
    (λ st', DeltaJ (snd st') = DeltaJ (snd st) ∧
            DeltaWjk (snd st') = DeltaWjk (snd st) ∧
            a2_rows (DeltaWik (snd st')) = numNeuronsInputLayer ∧
            a2_cols (DeltaWik (snd st')) = numNeuronsHiddenLayer ∧
            row_updated (fst st) a
              (λ k, fmul (fmul learningRate (dJ k)) (value (fst st) a))
              (length vpLayerB) (fst st'))
    no_fault.
Proof.
  intros Ha Hok HJst Hrows Hcols.
  destruct Hdims as (_ & _ & _ & _ & HszJ).
  assert (Hi : i < length vpLayerA) by (by eapply lookup_lt_Some).
  apply (for_loop_returns
    (λ j (st' : heap * scratch),
       DeltaJ (snd st') = DeltaJ (snd st) ∧
       DeltaWjk (snd st') = DeltaWjk (snd st) ∧
       a2_rows (DeltaWik (snd st')) = numNeuronsInputLayer ∧
       a2_cols (DeltaWik (snd st')) = numNeuronsHiddenLayer ∧
       row_updated (fst st) a
         (λ k, fmul (fmul learningRate (dJ k)) (value (fst st) a))
         j (fst st'))).
  - split; [done|]. split; [done|]. split; [done|]. split; [done|].
    apply row_updated_0_fp.
  - intros j [h sc] Hj (HJeq & HWeq & Hr & Hc & Hrow). simpl in *.
    rewrite (at_index_ok _ _ _ Ha). simpl.
    rewrite (read1_ok_fp _ _ j (dJ j)).
    2:{ rewrite HJeq, HJst, HszJ. lia. }
    2:{ rewrite HJeq, HJst. by apply HJ. }
    simpl.
    pose proof Hrow as (Hv & Hs & _ & _).
    rewrite (getNodeValue_ok_fp h (length vpLayerB) a)
      by (eapply neuron_ok_ext_fp; [apply Hs|done]).
    simpl. rewrite (same_values_value_fp _ _ a Hv).
    unfold write2. rewrite decide_True by lia. simpl.
    destruct (row_updated_step_fp (fst st) h a
                (λ k, fmul (fmul learningRate (dJ k)) (value (fst st) a)) j
                (length vpLayerB)
                (fmul (fmul learningRate (dJ j)) (value (fst st) a))
                Hok Hj Hrow eq_refl)
      as (-> & h' & Hset & Hrow').
    simpl. unfold read2; simpl. rewrite decide_True by lia.
    rewrite lookup_insert_eq. simpl. rewrite Hset. simpl.
    split; [done|]. split; [done|]. split; [done|]. split; [done|]. done.
Qed.

Lemma bp_updateInput_returns_fp :
  returns (bp_updateInput vpLayerA vpLayerB st0)
    (λ st, DeltaJ (snd st) = DeltaJ (snd st0) ∧
           DeltaWjk (snd st) = DeltaWjk (snd st0) ∧
           a2_rows (DeltaWik (snd st)) = numNeuronsInputLayer ∧
           a2_cols (DeltaWik (snd st)) = numNeuronsHiddenLayer ∧
           rows_updated (fst st0) vpLayerA (length vpLayerB)
             (λ a k, fmul (fmul learningRate (dJ k)) (value (fst st0) a))
             (length vpLayerA) (fst st))
    no_fault.
Proof.
  unfold bp_updateInput.
  apply (for_loop_returns
    (λ i (st : heap * scratch),
       DeltaJ (snd st) = DeltaJ (snd st0) ∧
       DeltaWjk (snd st) = DeltaWjk (snd st0) ∧
       a2_rows (DeltaWik (snd st)) = numNeuronsInputLayer ∧
       a2_cols (DeltaWik (snd st)) = numNeuronsHiddenLayer ∧
       rows_updated (fst st0) vpLayerA (length vpLayerB)
         (λ a k, fmul (fmul learningRate (dJ k)) (value (fst st0) a))
         i (fst st))).
  - destruct Hdims as (_ & _ & Hr & Hc & _).
    split; [done|]. split; [done|]. split; [done|]. split; [done|].
    apply rows_updated_0_fp.
  - intros i st Hi (HJeq & HWeq & Hr & Hc & Hrows).
    destruct (lookup_lt_is_Some_2 vpLayerA i Hi) as [a Ha].
    pose proof Hrows as (Hv & Hs & _ & _).
    assert (Hok : neuron_ok (fst st) (length vpLayerB) a).
    { eapply neuron_ok_ext_fp; [apply Hs|]. by eapply layer_ok_lookup_fp. }
    eapply returns_mono;
      [| |apply (updateInput_inner_returns_fp i a st Ha Hok HJeq Hr Hc)].
    2:{ by intros f. }
    intros st' (HJeq' & HWeq' & Hr' & Hc' & Hrow).
    split; [by rewrite HJeq'|]. split; [by rewrite HWeq'|].
    split; [done|]. split; [done|].
    eapply rows_updated_step_fp; [done|done|done|exact Hrow|].
    intros k _. simpl. by rewrite (same_values_value_fp _ _ a Hv).
Qed.

End UpdateInputFP.

Section UpdateHiddenFP.
Import FP.
Variables (vpLayerB vpLayerC : layer) (sc : scratch) (h0 : heap).
Variable g : ptr_neuron_t → nat → spec_float.
Hypothesis HB : layer_ok h0 (length vpLayerC) vpLayerB.
Hypothesis HndB : NoDup vpLayerB.
Hypothesis Hdims : scratch_dims sc.
Hypothesis HfitB : length vpLayerB ≤ numNeuronsHiddenLayer.
Hypothesis HfitC : length vpLayerC ≤ numNeuronsOutputLayer.
Hypothesis HW :
  ∀ i b k, i < length vpLayerB → vpLayerB !! i = Some b →
    k < length vpLayerC →
    a2_cells (DeltaWjk sc) !! (i, k) = Some (g b k).
Local Arguments fadd : simpl never.

Lemma updateHidden_inner_returns_fp i b h :
  vpLayerB !! i = Some b →
  neuron_ok h (length vpLayerC) b →
  returns
    (for_loop (length vpLayerC) (fun j h =>
       let* b := at_index vpLayerB i in
       let* oldWeight := getWeight h b j in
       let* d := read2 BufDeltaWjk (DeltaWjk sc) i j in
       setWeight b j (fadd oldWeight d) h) h)
    (row_updated h b (g b) (length vpLayerC))
    no_fault.
Proof.
  intros Hb Hok.
  assert (Hi : i < length vpLayerB) by (by eapply lookup_lt_Some).
  destruct Hdims as (Hr & Hc & _).
  apply for_loop_returns; [apply row_updated_0_fp|].
  intros j hj Hj Hrow.
  rewrite (at_index_ok _ _ _ Hb). simpl.
  destruct (row_updated_step_fp h hj b (g b) j (length vpLayerC) (g b j)
              Hok Hj Hrow eq_refl) as (-> & h' & Hset & Hrow').
  simpl. rewrite (read2_ok_fp _ _ i j (g b j)).
  - simpl. by rewrite Hset.
  - rewrite Hr. lia.
  - rewrite Hc. lia.
  - by apply HW.
Qed.

Lemma bp_updateHidden_returns_fp :
  returns (bp_updateHidden vpLayerB vpLayerC sc h0)
    (rows_updated h0 vpLayerB (length vpLayerC) g (length vpLayerB))
    no_fault.
Proof.
  unfold bp_updateHidden. apply for_loop_returns; [apply rows_updated_0_fp|].
  intros i h Hi Hrows.
  destruct (lookup_lt_is_Some_2 vpLayerB i Hi) as [b Hb].
  pose proof Hrows as (_ & Hs & _ & _).
  assert (Hok : neuron_ok h (length vpLayerC) b).
  { eapply neuron_ok_ext_fp; [apply Hs|]. by eapply layer_ok_lookup_fp. }
  eapply returns_mono; [| |apply (updateHidden_inner_returns_fp i b h Hb Hok)].
  2:{ by intros f. }
  intros h' Hrow. simpl.
  eapply rows_updated_step_fp; [done|done|done|exact Hrow|done].
Qed.

End UpdateHiddenFP.

Section BackPropagateFP.
Import FP.
Variable exp : spec_float → spec_float.
Variables (h : heap) (vpLayerA vpLayerB vpLayerC : layer).
Variable resultErrorRate : array1.

Lemma new_scratch_dims_fp : scratch_dims new_scratch.
Proof. by repeat split. Qed.

(** On a well-formed network that fits the scratch buffers
    [backPropagate] ends normally. *)
Lemma backPropagate_returns_fp :
  network_ok h vpLayerA vpLayerB vpLayerC resultErrorRate →
  fits vpLayerA vpLayerB vpLayerC →
  returns (backPropagate exp vpLayerA vpLayerB vpLayerC resultErrorRate h)
    (backPropagate_post exp h vpLayerA vpLayerB vpLayerC resultErrorRate)
    no_fault.
Proof.
  intros (HA & HB & Hnd & Herr) (HfA & HfB & HfC).
  apply NoDup_app in Hnd as (HndA & Hdisj & HndB).
  unfold backPropagate.
  destruct (returns_ok _ _ (bp_gradients_returns_fp exp h vpLayerB vpLayerC
              resultErrorRate HB Herr HfB HfC new_scratch
              new_scratch_dims_fp))
    as (sc & -> & Hpost).
  pose proof Hpost as (Hd & Hik & HJ & HW). simpl.
  destruct (returns_ok _ _ (bp_updateInput_returns_fp vpLayerA vpLayerB
              (h, sc) (deltaAt exp h vpLayerB vpLayerC resultErrorRate)
              HA HndA Hd HfA HfB
              (λ j Hj, ltac:(destruct (lookup_lt_is_Some_2 vpLayerB j Hj)
                               as [b Hb];
                             unfold deltaAt; rewrite Hb;
                             exact (HJ j b Hj Hb)))))
    as ([h2 sc2] & -> & HJeq & HWeq & Hr & Hc & Hrows).
  simpl in *.
  pose proof Hrows as (Hv2 & Hs2 & Hfr2 & Hw2).
  assert (Hd2 : scratch_dims sc2).
  { destruct Hd as (? & ? & ? & ? & ?). unfold scratch_dims.
    by rewrite HWeq, HJeq. }
  destruct (returns_ok _ _ (bp_updateHidden_returns_fp vpLayerB vpLayerC
              sc2 h2 (hiddenIncrement h resultErrorRate)
              (same_shape_layer_ok_fp _ _ _ _ Hs2 HB) HndB Hd2 HfB HfC
              (λ i b k Hi Hb Hk,
                 ltac:(rewrite HWeq; exact (HW i b k Hi Hb Hk)))))
    as (h3 & -> & Hv3 & Hs3 & Hfr3 & Hw3).
  simpl.
  split; [by eapply same_values_trans_fp|].
  split; [by eapply same_shape_trans_fp|].
  split; [|split].
  - intros p [HpA HpB]%not_elem_of_app.
    rewrite Hfr3 by (by rewrite firstn_all).
    apply Hfr2. by rewrite firstn_all.
  - intros i a j Ha.
    assert (HaB : a ∉ vpLayerB).
    { apply Hdisj. by eapply list_elem_of_lookup_2. }
    rewrite (weight_ext_fp h2 h3 a j)
      by (apply Hfr3; by rewrite firstn_all).
    apply (Hw2 i a j); [by eapply lookup_lt_Some | done].
  - intros i b k Hb.
    assert (HbA : b ∉ vpLayerA).
    { intros Hin. apply (Hdisj b Hin). by eapply list_elem_of_lookup_2. }
    rewrite (Hw3 i b k) by (by eapply lookup_lt_Some || done).
    by rewrite (weight_ext_fp h h2 b k)
      by (apply Hfr2; by rewrite firstn_all).
Qed.

End BackPropagateFP.

Section BackPropagateRounded.
Local Open Scope R_scope.

(** C2 as stated fails on the arithmetic of the code.  A hidden neuron with
    the activation 0 and the weights 2^60, 1 and -2^60, and the errors 1, 1
    and 1: the [double] accumulator goes from 2^60 to 2^60 again (the 1 is
    lost) and back to 0, so [DeltaJ[0]] is exactly 0, whatever [exp] the
    library has; the claim asks for [(2^60 + 1 - 2^60) * s * (1 - s)] with
    [s = sigmoid(0) = 1/2], which is 1/4. *)
Lemma hidden_delta_counterexample :
  FP.layer_ok FP.delta_heap 3 [0%nat] ∧
  FP.error_ok (FP.error_vector [IEEE.double_of_Z 1; IEEE.double_of_Z 1;
                                IEEE.double_of_Z 1]) 3 ∧
  (let e := FP.error_vector [IEEE.double_of_Z 1; IEEE.double_of_Z 1;
                             IEEE.double_of_Z 1] in
   let s := applySigmoidFunction (FP.SF2R (FP.value FP.delta_heap 0)) in
   Rsum (map (λ k, FP.SF2R (FP.weight FP.delta_heap 0 k)
                   * FP.SF2R (FP.errorAt e k)) (seq 0 3))
   * s * (1 - s) = 1 / 4) ∧
  ∀ exp, FP.iso_exp exp →
    ∃ sc, FP.bp_gradients exp FP.delta_heap [0%nat] [1; 2; 3]%nat
            (FP.error_vector [IEEE.double_of_Z 1; IEEE.double_of_Z 1;
                              IEEE.double_of_Z 1]) FP.new_scratch = Ok sc ∧
      FP.a1_cells (FP.DeltaJ sc) !! 0%nat = Some (S754_zero false) ∧
      FP.SF2R (S754_zero false) ≠ 1 / 4.
Proof.
  set (e := FP.error_vector [IEEE.double_of_Z 1; IEEE.double_of_Z 1;
                             IEEE.double_of_Z 1]).
  assert (HB : FP.layer_ok FP.delta_heap 3 [0%nat]) by by_decision.
  assert (He : FP.error_ok e 3) by by_decision.
  split; [done|]. split; [done|]. split.
  { cbv zeta.
    replace (FP.SF2R (FP.value FP.delta_heap 0)) with 0 by reflexivity.
    rewrite sigmoid_at_0.
    replace (map _ _)
      with [FP.SF2R (S754_finite false 8388608 37)
            * FP.SF2R (S754_finite false 4503599627370496 (-52));
            FP.SF2R (S754_finite false 8388608 (-23))
            * FP.SF2R (S754_finite false 4503599627370496 (-52));
            FP.SF2R (S754_finite true 8388608 37)
            * FP.SF2R (S754_finite false 4503599627370496 (-52))]
      by reflexivity.
    real_values. lra. }
  intros exp Hexp.
  destruct (returns_ok _ _ (bp_gradients_returns_fp exp FP.delta_heap
              [0%nat] [1; 2; 3]%nat e HB He
              ltac:(unfold numNeuronsHiddenLayer; simpl; lia)
              ltac:(unfold numNeuronsOutputLayer; simpl; lia)
              FP.new_scratch new_scratch_dims_fp))
    as (sc & Hrun & _ & _ & HJ & _).
  exists sc. split; [done|]. split; [|simpl; lra].
  rewrite (HJ 0%nat 0%nat) by (simpl; lia || done).
  f_equal. unfold FP.hiddenDelta.
  rewrite (applySigmoidFunction_iso exp _ FP.half Hexp)
    by (vm_compute; reflexivity).
  vm_compute. reflexivity.
Qed.

(** C2, amended. The hidden deltas in the arithmetic of the code: on a
    well-formed hidden layer that fits the buffers, the first loop of
    [backPropagate] ends normally, [backPropagate] continues with the
    buffers it filled, and [DeltaJ[i]] holds the [float] nearest to
    [nodeVal * s * (1 - s)] computed with two rounded [double] products,
    where [nodeVal] is accumulated in a [double] from 0 over the output
    indices in increasing order, one rounded product
    [hidden[i].weight(k) * outputError[k]] and one rounded sum per index,
    with the weights of the heap at entry, [s] is [applySigmoidFunction] of
    the stored activation of the hidden neuron (itself the result of a
    sigmoid in the forward pass), and [1 - s] is a rounded [float]
    difference. *)
Theorem hidden_delta_rounded (exp : spec_float → spec_float) (h : FP.heap)
    (vpLayerA vpLayerB vpLayerC : layer) (resultErrorRate : FP.array1) :
  FP.layer_ok h (length vpLayerC) vpLayerB →
  FP.error_ok resultErrorRate (length vpLayerC) →
  (length vpLayerB ≤ numNeuronsHiddenLayer)%nat →
  (length vpLayerC ≤ numNeuronsOutputLayer)%nat →
  ∃ sc,
    FP.bp_gradients exp h vpLayerB vpLayerC resultErrorRate FP.new_scratch
    = Ok sc ∧
    FP.backPropagate exp vpLayerA vpLayerB vpLayerC resultErrorRate h
    = (let* st := FP.bp_updateInput vpLayerA vpLayerB (h, sc) in
       FP.bp_updateHidden vpLayerB vpLayerC (snd st) (fst st)) ∧
    ∀ i b, vpLayerB !! i = Some b →
      let s := FP.applySigmoidFunction exp (FP.value h b) in
      let nodeVal :=
        foldl (λ acc k,
                 FP.dadd acc (FP.dmul (IEEE.to_double (FP.weight h b k))
                                      (FP.errorAt resultErrorRate k)))
              (IEEE.double_of_Z 0) (seq 0 (length vpLayerC)) in
      FP.a1_cells (FP.DeltaJ sc) !! i
      = Some (IEEE.to_float
                (FP.dmul (FP.dmul nodeVal (IEEE.to_double s))
                         (IEEE.to_double (FP.fsub (IEEE.float_of_Z 1) s)))).
Proof.
  intros HB Herr HfB HfC.
  destruct (returns_ok _ _ (bp_gradients_returns_fp exp h vpLayerB vpLayerC
              resultErrorRate HB Herr HfB HfC FP.new_scratch
              new_scratch_dims_fp))
    as (sc & Hrun & _ & _ & HJ & _).
  exists sc. split; [done|]. split.
  - unfold FP.backPropagate. by rewrite Hrun.
  - intros i b Hb s nodeVal.
    apply (HJ i b); [|done]. by eapply lookup_lt_Some.
Qed.

Lemma hidden_delta_rounded_witness :
  ∃ sc,
    FP.bp_gradients FP.exp_example FP.small_heap [1%nat] [2%nat]
      FP.small_error FP.new_scratch = Ok sc ∧
    FP.backPropagate FP.exp_example [0%nat] [1%nat] [2%nat] FP.small_error
      FP.small_heap
    = (let* st := FP.bp_updateInput [0%nat] [1%nat] (FP.small_heap, sc) in
       FP.bp_updateHidden [1%nat] [2%nat] (snd st) (fst st)) ∧
    ∀ i b, [1%nat] !! i = Some b →
      let s := FP.applySigmoidFunction FP.exp_example
                 (FP.value FP.small_heap b) in
      let nodeVal :=
        foldl (λ acc k,
                 FP.dadd acc
                   (FP.dmul (IEEE.to_double (FP.weight FP.small_heap b k))
                            (FP.errorAt FP.small_error k)))
              (IEEE.double_of_Z 0) (seq 0 (length [2%nat])) in
      FP.a1_cells (FP.DeltaJ sc) !! i
      = Some (IEEE.to_float
                (FP.dmul (FP.dmul nodeVal (IEEE.to_double s))
                         (IEEE.to_double (FP.fsub (IEEE.float_of_Z 1) s)))).
Proof.
  apply (hidden_delta_rounded FP.exp_example FP.small_heap
           [0%nat] [1%nat] [2%nat] FP.small_error); by_decision.
Defined.

(** A normal run on a well-formed network that fits the buffers. *)
Lemma backPropagate_ok_fp (exp : spec_float → spec_float) (h : FP.heap)
    (vpLayerA vpLayerB vpLayerC : layer) (resultErrorRate : FP.array1) :
  FP.network_ok h vpLayerA vpLayerB vpLayerC resultErrorRate →
  fits vpLayerA vpLayerB vpLayerC →
  ∃ h', FP.backPropagate exp vpLayerA vpLayerB vpLayerC resultErrorRate h
        = Ok h' ∧
        FP.backPropagate_post exp h vpLayerA vpLayerB vpLayerC
          resultErrorRate h'.
Proof.
  intros Hok Hfit.
  apply returns_ok. by apply backPropagate_returns_fp.
Qed.

Lemma heavy_network_ok :
  FP.network_ok FP.heavy_heap [0%nat] [1%nat] [2%nat] FP.small_error.
Proof. by_decision. Qed.

Lemma tiny_fits : fits [0%nat] [1%nat] [2%nat].
Proof. by_decision. Qed.

(** The increment of the heavy weight is positive, and the [float] sum
    returns the weight. *)
Lemma heavy_increment :
  FP.SF2R (FP.hiddenIncrement FP.heavy_heap FP.small_error 1 0)
  = FP.SF2R FP.learningRate * FP.SF2R (FP.errorAt FP.small_error 0)
    * FP.SF2R (FP.value FP.heavy_heap 1) ∧
  0 < FP.SF2R (FP.hiddenIncrement FP.heavy_heap FP.small_error 1 0) ∧
  FP.fadd (FP.weight FP.heavy_heap 1 0)
          (FP.hiddenIncrement FP.heavy_heap FP.small_error 1 0)
  = FP.weight FP.heavy_heap 1 0.
Proof.
  replace (FP.hiddenIncrement FP.heavy_heap FP.small_error 1 0)
    with (S754_finite false 13421773 (-28)) by (vm_compute; reflexivity).
  replace FP.learningRate with (S754_finite false 13421773 (-27))
    by (vm_compute; reflexivity).
  replace (FP.errorAt FP.small_error 0)
    with (S754_finite false 4503599627370496 (-52))
    by (vm_compute; reflexivity).
  replace (FP.value FP.heavy_heap 1) with (S754_finite false 8388608 (-24))
    by (vm_compute; reflexivity).
  split; [real_values; lra|]. split; [real_values; lra|].
  vm_compute. reflexivity.
Qed.

(** C3 as stated fails on the arithmetic of the code.  With the
    hidden-to-output weight 2^24 = 16777216, the hidden activation 1/2 and
    the error 1, the increment is the [float] nearest to 0.05, less than
    half the distance from 2^24 to the next [float], and the [float] sum
    is 2^24 again: the weight is not its old value plus
    [learningRate * outputError[k] * hidden[i].value()]. *)
Lemma backPropagate_weights_counterexample :
  FP.network_ok FP.heavy_heap [0%nat] [1%nat] [2%nat] FP.small_error ∧
  fits [0%nat] [1%nat] [2%nat] ∧
  ∀ exp,
    ∃ h', FP.backPropagate exp [0%nat] [1%nat] [2%nat] FP.small_error
            FP.heavy_heap = Ok h' ∧
      FP.weight h' 1 0 = FP.weight FP.heavy_heap 1 0 ∧
      FP.SF2R (FP.weight h' 1 0)
      ≠ FP.SF2R (FP.weight FP.heavy_heap 1 0)
        + FP.SF2R FP.learningRate * FP.SF2R (FP.errorAt FP.small_error 0)
          * FP.SF2R (FP.value FP.heavy_heap 1).
Proof.
  split; [apply heavy_network_ok|]. split; [apply tiny_fits|].
  intros exp.
  destruct (backPropagate_ok_fp exp FP.heavy_heap [0%nat] [1%nat] [2%nat]
              FP.small_error heavy_network_ok tiny_fits)
    as (h' & Hrun & _ & _ & _ & _ & HwB).
  exists h'. split; [done|].
  destruct heavy_increment as (Hinc & Hpos & Hsum).
  assert (Hw : FP.weight h' 1 0 = FP.weight FP.heavy_heap 1 0).
  { rewrite (HwB 0%nat 1%nat 0%nat eq_refl).
    rewrite decide_True by (simpl; lia). exact Hsum. }
  split; [done|]. rewrite Hw, <- Hinc. lra.
Qed.

(** C3, amended. The weight updates in the arithmetic of the code: on a
    well-formed network that fits the buffers, [backPropagate] ends
    normally; every input-to-hidden weight is the [float] sum of its old
    value and the increment [learningRate * delta[j] * input[i].value()]
    computed with two rounded [float] products, and every hidden-to-output
    weight is the [float] sum of its old value and the increment
    [learningRate * outputError[k] * hidden[i].value()] computed with two
    rounded [double] products and rounded to [float]; the deltas (the
    contents of [DeltaJ]), weights and activations on the right are those
    of the heap at entry, and [learningRate] is the [float] nearest to
    0.1. *)
Theorem backPropagate_weights_rounded (exp : spec_float → spec_float)
    (h : FP.heap) (vpLayerA vpLayerB vpLayerC : layer)
    (resultErrorRate : FP.array1) :
  FP.network_ok h vpLayerA vpLayerB vpLayerC resultErrorRate →
  fits vpLayerA vpLayerB vpLayerC →
  ∃ h', FP.backPropagate exp vpLayerA vpLayerB vpLayerC resultErrorRate h
        = Ok h' ∧
    (∀ i a j b, vpLayerA !! i = Some a → vpLayerB !! j = Some b →
       FP.weight h' a j
       = FP.fadd (FP.weight h a j)
           (FP.fmul
              (FP.fmul FP.learningRate
                 (FP.hiddenDelta exp h b (length vpLayerC) resultErrorRate))
              (FP.value h a))) ∧
    (∀ i b k, vpLayerB !! i = Some b → (k < length vpLayerC)%nat →
       FP.weight h' b k
       = FP.fadd (FP.weight h b k)
           (IEEE.to_float
              (FP.dmul
                 (FP.dmul (IEEE.to_double FP.learningRate)
                          (FP.errorAt resultErrorRate k))
                 (IEEE.to_double (FP.value h b))))).
Proof.
  intros Hok Hfit.
  destruct (backPropagate_ok_fp exp h vpLayerA vpLayerB vpLayerC
              resultErrorRate Hok Hfit) as (h' & Hrun & _ & _ & _ & HwA & HwB).
  exists h'. split; [done|]. split.
  - intros i a j b Ha Hb. rewrite (HwA i a j Ha).
    rewrite decide_True by (by eapply lookup_lt_Some).
    unfold FP.inputIncrement, FP.deltaAt. by rewrite Hb.
  - intros i b k Hb Hk. rewrite (HwB i b k Hb).
    by rewrite decide_True by done.
Qed.

Lemma backPropagate_weights_rounded_witness :
  ∃ h', FP.backPropagate FP.exp_example [0%nat] [1%nat] [2%nat]
          FP.small_error FP.small_heap = Ok h' ∧
    (∀ i a j b, [0%nat] !! i = Some a → [1%nat] !! j = Some b →
       FP.weight h' a j
       = FP.fadd (FP.weight FP.small_heap a j)
           (FP.fmul
              (FP.fmul FP.learningRate
                 (FP.hiddenDelta FP.exp_example FP.small_heap b
                    (length [2%nat]) FP.small_error))
              (FP.value FP.small_heap a))) ∧
    (∀ i b k, [1%nat] !! i = Some b → (k < length [2%nat])%nat →
       FP.weight h' b k
       = FP.fadd (FP.weight FP.small_heap b k)
           (IEEE.to_float
              (FP.dmul
                 (FP.dmul (IEEE.to_double FP.learningRate)
                          (FP.errorAt FP.small_error k))
                 (IEEE.to_double (FP.value FP.small_heap b))))).
Proof.
  apply (backPropagate_weights_rounded FP.exp_example FP.small_heap
           [0%nat] [1%nat] [2%nat] FP.small_error); by_decision.
Defined.

End BackPropagateRounded.

(** ** The error vector in the arithmetic of the code *)

Section ErrorVectorRounded.
Local Open Scope R_scope.

Lemma faint_layers :
  FP.layer_ok FP.faint_heap (length [1%nat]) [0%nat] ∧
  FP.layer_ok FP.faint_heap (length [2%nat]) [1%nat] ∧
  FP.layer_ok FP.faint_heap 0 [2%nat] ∧
  NoDup ([0] ++ [1] ++ [2])%nat.
Proof. repeat split; by_decision. Qed.

(** The forward pass on the faint network: the output activation is the
    [float] 11121193 * 2^-84, about 5.75e-19. *)
Lemma faint_forwardPass (exp : spec_float → spec_float) :
  FP.iso_exp exp → exp (IEEE.double_of_Z 42) = FP.exp_42 →
  ∃ h1, FP.forwardPass exp [0%nat] [1%nat] [2%nat] [255%Z] FP.faint_heap
        = Ok h1 ∧
        FP.layer_ok h1 0 [2%nat] ∧
        FP.value h1 2 = S754_finite false 11121193 (-84).
Proof.
  intros Hexp H42.
  destruct faint_layers as (HA & HB & HC & Hnd).
  destruct (returns_ok _ _ (forwardPass_returns_fp exp FP.faint_heap
              [0%nat] [1%nat] [2%nat] [255%Z] HA HB HC Hnd
              ltac:(simpl; lia)))
    as (h1 & Hfw & Hw & _ & HvA & HvB & HvC).
  exists h1. split; [done|].
  split; [by apply (same_weights_layer_ok_fp FP.faint_heap)|].
  assert (Hv1 : FP.value h1 1 = FP.half).
  { rewrite (HvB 0%nat 1%nat eq_refl). unfold FP.weightedInput. cbn [foldl].
    rewrite (same_weights_weight_fp _ _ _ _ Hw).
    rewrite (HvA 0%nat 0%nat 255%Z eq_refl eq_refl).
    apply applySigmoidFunction_iso; [done|]. vm_compute. reflexivity. }
  rewrite (HvC 0%nat 2%nat eq_refl). unfold FP.weightedInput. cbn [foldl].
  rewrite (same_weights_weight_fp _ _ _ _ Hw), Hv1.
  unfold FP.applySigmoidFunction.
  replace (IEEE.to_double (SFopp _)) with (IEEE.double_of_Z 42)
    by (vm_compute; reflexivity).
  rewrite H42. vm_compute. reflexivity.
Qed.

(** C4 as stated fails on the arithmetic of the code.  On the network with
    the input-to-hidden weight 0 and the hidden-to-output weight -84 the
    forward pass gives the hidden activation [sigmoid(0)] = 1/2 and the
    output activation [sigmoid(-42)], the [float] 11121193 * 2^-84 (about
    5.75e-19), when [exp(42.0)] is the [double] nearest to e^42.  For the
    target class 0 the caller computes [1 - output[0].value()] in [double],
    whose numbers next to 1 are 2^-53 away: the entry handed to
    [backPropagate] is exactly 1, not 1 minus the activation. *)
Lemma training_error_vector_counterexample :
  FP.layer_ok FP.faint_heap (length [1%nat]) [0%nat] ∧
  FP.layer_ok FP.faint_heap (length [2%nat]) [1%nat] ∧
  FP.layer_ok FP.faint_heap 0 [2%nat] ∧
  NoDup ([0] ++ [1] ++ [2])%nat ∧
  ∀ exp, FP.iso_exp exp → exp (IEEE.double_of_Z 42) = FP.exp_42 →
    ∃ h1 resultErrorRate,
      FP.forwardPass exp [0%nat] [1%nat] [2%nat] [255%Z] FP.faint_heap
      = Ok h1 ∧
      FP.computeResultErrorRate [2%nat] 0 h1 = Ok resultErrorRate ∧
      FP.trainSample exp [0%nat] [1%nat] [2%nat] [255%Z] 0 FP.faint_heap
      = FP.backPropagate exp [0%nat] [1%nat] [2%nat] resultErrorRate h1 ∧
      FP.value h1 2 = S754_finite false 11121193 (-84) ∧
      FP.a1_cells resultErrorRate !! 0%nat = Some (IEEE.double_of_Z 1) ∧
      FP.SF2R (IEEE.double_of_Z 1) ≠ 1 - FP.SF2R (FP.value h1 2).
Proof.
  destruct faint_layers as (HA & HB & HC & Hnd).
  split; [done|]. split; [done|]. split; [done|]. split; [done|].
  intros exp Hexp H42.
  destruct (faint_forwardPass exp Hexp H42) as (h1 & Hfw & HC1 & Hv2).
  destruct (returns_ok _ _ (computeResultErrorRate_returns_fp h1 [2%nat]
              0%nat HC1 ltac:(unfold numNeuronsOutputLayer; simpl; lia)))
    as (e & He & _ & Hcells).
  exists h1, e. split; [done|]. split; [done|]. split.
  { unfold FP.trainSample. rewrite Hfw. simpl. by rewrite He. }
  split; [done|]. split.
  - rewrite (Hcells 0%nat 2%nat eq_refl), Hv2. vm_compute. reflexivity.
  - rewrite Hv2.
    replace (IEEE.double_of_Z 1)
      with (S754_finite false 4503599627370496 (-52))
      by (vm_compute; reflexivity).
    real_values. lra.
Qed.

(** C4, amended. The error vector of a training sample in the arithmetic
    of the code: on a well-formed network of distinct neurons with at most
    [numNeuronsOutputLayer] outputs, the forward pass ends normally, and
    the vector that [main] then computes and hands to [backPropagate]
    holds, for every output index [k], the [double] difference, rounded to
    the nearest [double], of the one-hot target [(digit == k ? 1 : 0)] and
    the [float] activation of output neuron [k] after the forward pass. *)
Theorem training_error_vector_rounded (exp : spec_float → spec_float)
    (h : FP.heap) (vpInputLayer vpHiddenLayer vpOutputLayer : layer)
    (pixels : list Z) (digit : nat) :
  FP.layer_ok h (length vpHiddenLayer) vpInputLayer →
  FP.layer_ok h (length vpOutputLayer) vpHiddenLayer →
  FP.layer_ok h 0 vpOutputLayer →
  NoDup (vpInputLayer ++ vpHiddenLayer ++ vpOutputLayer) →
  (length vpInputLayer ≤ length pixels)%nat →
  (length vpOutputLayer ≤ numNeuronsOutputLayer)%nat →
  ∃ h1 resultErrorRate,
    FP.forwardPass exp vpInputLayer vpHiddenLayer vpOutputLayer pixels h
    = Ok h1 ∧
    FP.computeResultErrorRate vpOutputLayer digit h1 = Ok resultErrorRate ∧
    FP.trainSample exp vpInputLayer vpHiddenLayer vpOutputLayer pixels digit h
    = FP.backPropagate exp vpInputLayer vpHiddenLayer vpOutputLayer
        resultErrorRate h1 ∧
    ∀ k c, vpOutputLayer !! k = Some c →
      FP.a1_cells resultErrorRate !! k
      = Some (FP.dsub (IEEE.double_of_Z (if decide (digit = k) then 1 else 0))
                      (IEEE.to_double (FP.value h1 c))).
Proof.
  intros HA HB HC Hnd Hpx Hlen.
  destruct (returns_ok _ _ (forwardPass_returns_fp exp h vpInputLayer
              vpHiddenLayer vpOutputLayer pixels HA HB HC Hnd Hpx))
    as (h1 & Hfw & Hw & _).
  destruct (returns_ok _ _ (computeResultErrorRate_returns_fp h1 vpOutputLayer
              digit (same_weights_layer_ok_fp _ _ _ _ Hw HC) Hlen))
    as (e & He & _ & Hcells).
  exists h1, e. split; [done|]. split; [done|]. split; [|done].
  unfold FP.trainSample. rewrite Hfw. simpl. by rewrite He.
Qed.

Lemma training_error_vector_rounded_witness :
  ∃ h1 resultErrorRate,
    FP.forwardPass FP.exp_example [0%nat] [1%nat] [2%nat] [255%Z]
      FP.small_heap = Ok h1 ∧
    FP.computeResultErrorRate [2%nat] 0 h1 = Ok resultErrorRate ∧
    FP.trainSample FP.exp_example [0%nat] [1%nat] [2%nat] [255%Z] 0
      FP.small_heap
    = FP.backPropagate FP.exp_example [0%nat] [1%nat] [2%nat]
        resultErrorRate h1 ∧
    ∀ k c, [2%nat] !! k = Some c →
      FP.a1_cells resultErrorRate !! k
      = Some (FP.dsub (IEEE.double_of_Z (if decide (0%nat = k) then 1 else 0))
                      (IEEE.to_double (FP.value h1 c))).
Proof.
  apply (training_error_vector_rounded FP.exp_example FP.small_heap
           [0%nat] [1%nat] [2%nat] [255%Z] 0%nat);
    by_decision.
Defined.

End ErrorVectorRounded.

(** ** Rounding to nearest in [SpecFloat] *)

Section RoundingSpec.
Local Open Scope Z_scope.
Variables prec emax : Z.
Hypothesis Hprec : 0 < prec.

Lemma digits2_pos_bounds (m : positive) :
  2 ^ (Zpos (digits2_pos m) - 1) ≤ Zpos m < 2 ^ Zpos (digits2_pos m).
Proof.
  induction m as [m IH|m IH|]; simpl digits2_pos.
  - rewrite Pos2Z.inj_succ, Z.pow_succ_r by lia.
    replace (Z.succ (Zpos (digits2_pos m)) - 1)
      with (Z.succ (Zpos (digits2_pos m) - 1)) by lia.
    rewrite Z.pow_succ_r by lia. lia.
  - rewrite Pos2Z.inj_succ, Z.pow_succ_r by lia.
    replace (Z.succ (Zpos (digits2_pos m)) - 1)
      with (Z.succ (Zpos (digits2_pos m) - 1)) by lia.
    rewrite Z.pow_succ_r by lia. lia.
  - simpl. lia.
Qed.

Lemma digits2_le (m : positive) (k : Z) :
  Zpos m < 2 ^ k → Zpos (digits2_pos m) ≤ k.
Proof.
  intros Hm. destruct (digits2_pos_bounds m) as [Hlo _].
  destruct (Z_lt_le_dec k (Zpos (digits2_pos m))) as [Hk|]; [|done].
  destruct (Z_lt_le_dec k 0) as [Hneg|Hpos].
  - rewrite Z.pow_neg_r in Hm by done. lia.
  - assert (2 ^ k ≤ 2 ^ (Zpos (digits2_pos m) - 1))
      by (apply Z.pow_le_mono_r; lia).
    lia.
Qed.

Lemma digits2_gt (m : positive) (k : Z) :
  2 ^ k ≤ Zpos m → 0 ≤ k → k < Zpos (digits2_pos m).
Proof.
  intros Hm Hk. destruct (digits2_pos_bounds m) as [_ Hhi].
  destruct (Z_lt_le_dec k (Zpos (digits2_pos m))) as [|Hle]; [done|].
  assert (2 ^ Zpos (digits2_pos m) ≤ 2 ^ k) by (apply Z.pow_le_mono_r; lia).
  lia.
Qed.

(** Shifting to the right is division by a power of 2. *)
Lemma shr_1_m (mrs : shr_record) :
  0 ≤ shr_m mrs → shr_m (shr_1 mrs) = shr_m mrs / 2.
Proof.
  destruct mrs as [m r s]. simpl. intros Hm.
  destruct m as [|[p|p|]|p]; cbn [shr_1 shr_m orb]; try lia.
  - reflexivity.
  - apply (Z.div_unique _ _ _ 1); lia.
  - apply (Z.div_unique _ _ _ 0); lia.
  - reflexivity.
Qed.

Lemma iter_shr_1_m (p : positive) (mrs : shr_record) :
  0 ≤ shr_m mrs →
  shr_m (SpecFloat.iter_pos shr_1 p mrs) = shr_m mrs / 2 ^ Zpos p.
Proof.
  revert mrs. induction p as [p IH|p IH|]; intros mrs Hm; simpl SpecFloat.iter_pos.
  - assert (H1 : 0 ≤ shr_m (shr_1 mrs)).
    { rewrite shr_1_m by done. apply Z.div_pos; lia. }
    assert (H2 : 0 ≤ shr_m (SpecFloat.iter_pos shr_1 p (shr_1 mrs))).
    { rewrite IH by done. apply Z.div_pos; [done|]. apply Z.pow_pos_nonneg; lia. }
    rewrite IH, IH, shr_1_m by done.
    rewrite !Z.div_div by (try apply Z.pow_pos_nonneg; lia).
    f_equal. change (Zpos p~1) with (2 * Zpos p + 1).
    replace (2 * Zpos p + 1) with (1 + Zpos p + Zpos p) by lia.
    rewrite !Z.pow_add_r by lia. change (2 ^ 1) with 2. lia.
  - assert (H2 : 0 ≤ shr_m (SpecFloat.iter_pos shr_1 p mrs)).
    { rewrite IH by done. apply Z.div_pos; [done|]. apply Z.pow_pos_nonneg; lia. }
    rewrite IH, IH by done.
    rewrite !Z.div_div by (try apply Z.pow_pos_nonneg; lia).
    f_equal. change (Zpos p~0) with (2 * Zpos p).
    replace (2 * Zpos p) with (Zpos p + Zpos p) by lia.
    rewrite Z.pow_add_r by lia. reflexivity.
  - rewrite shr_1_m by done. done.
Qed.

Lemma shr_spec (mrs : shr_record) (e n : Z) :
  0 ≤ shr_m mrs →
  shr_m (fst (shr mrs e n)) = shr_m mrs / 2 ^ Z.max n 0 ∧
  snd (shr mrs e n) = e + Z.max n 0.
Proof.
  intros Hm. destruct n as [|p|p]; simpl.
  - rewrite Z.div_1_r. lia.
  - rewrite iter_shr_1_m by done. split; [done|]. lia.
  - rewrite Z.div_1_r. lia.
Qed.

Lemma shr_m_of_loc (m : Z) (l : location) : shr_m (shr_record_of_loc m l) = m.
Proof. by destruct l as [|[]]. Qed.

Lemma shr_fexp_spec (m e : Z) (l : location) :
  0 ≤ m →
  shr_m (fst (shr_fexp prec emax m e l))
  = m / 2 ^ Z.max (fexp prec emax (Zdigits2 m + e) - e) 0 ∧
  snd (shr_fexp prec emax m e l)
  = e + Z.max (fexp prec emax (Zdigits2 m + e) - e) 0.
Proof.
  intros Hm. unfold shr_fexp.
  destruct (shr_spec (shr_record_of_loc m l) e
              (fexp prec emax (Zdigits2 m + e) - e)) as [H1 H2].
  { by rewrite shr_m_of_loc. }
  rewrite shr_m_of_loc in H1. done.
Qed.

Lemma round_nearest_even_bounds (m : Z) (l : location) :
  m ≤ round_nearest_even m l ≤ m + 1.
Proof.
  destruct l as [|[]]; simpl; try lia. destruct (Z.even m); lia.
Qed.


Lemma fexp_ge_emin e : emin prec emax ≤ fexp prec emax e.
Proof. unfold fexp. lia. Qed.

Lemma Zdigits2_le (m k : Z) :
  0 ≤ m → m < 2 ^ k → 0 ≤ k → Zdigits2 m ≤ k.
Proof.
  intros Hm Hk Hk0. destruct m as [|p|p]; [done| |lia].
  simpl. by apply digits2_le.
Qed.

Lemma Zdigits2_pow2 (k : Z) : 0 ≤ k → Zdigits2 (2 ^ k) = k + 1.
Proof.
  intros Hk. assert (Hpos : 0 < 2 ^ k) by (apply Z.pow_pos_nonneg; lia).
  destruct (2 ^ k) as [|p|p] eqn:E; [lia| |lia].
  simpl. apply Z.le_antisymm.
  - apply digits2_le. rewrite <- E, Z.pow_add_r by lia. change (2 ^ 1) with 2. lia.
  - assert (k < Zpos (digits2_pos p)); [|lia].
    apply digits2_gt; [|done]. lia.
Qed.

Lemma binary_round_aux_spec (sx : bool) (mx ex : Z) (lx : location) :
  0 ≤ mx →
  ∃ m3 e3,
    binary_round_aux prec emax sx mx ex lx
    = IEEE.round_result prec emax sx m3 e3 ∧
    0 ≤ m3 ∧
    let e1 := Z.max (fexp prec emax (Zdigits2 mx + ex)) ex in
    let m1 := mx / 2 ^ (e1 - ex) in
    (e3 = e1 ∧ m1 ≤ m3 ≤ m1 + 1 ∧ m3 < 2 ^ prec) ∨
    (e3 = e1 + 1 ∧ m3 = 2 ^ (prec - 1) ∧ 2 ^ prec ≤ m1 + 1).
Proof.
  intros Hmx. unfold binary_round_aux.
  destruct (shr_fexp_spec mx ex lx Hmx) as [Hm1 He1].
  destruct (shr_fexp prec emax mx ex lx) as [mrs' e']. simpl in Hm1, He1.
  set (e1 := Z.max (fexp prec emax (Zdigits2 mx + ex)) ex).
  set (m1 := mx / 2 ^ (e1 - ex)).
  assert (Hee : e' = e1) by (unfold e1; lia).
  assert (Hmm : shr_m mrs' = m1).
  { rewrite Hm1. unfold m1, e1. do 2 f_equal. lia. }
  assert (Hpow : ∀ k, 0 < 2 ^ (Z.max k 0)).
  { intros k. apply Z.pow_pos_nonneg; lia. }
  assert (Hm1pos : 0 ≤ m1).
  { unfold m1. apply Z.div_pos; [done|]. apply Z.pow_pos_nonneg; unfold e1; lia. }
  assert (Hm1lt : m1 < 2 ^ prec).
  { unfold m1. apply Z.div_lt_upper_bound.
    { apply Z.pow_pos_nonneg; unfold e1; lia. }
    rewrite <- Z.pow_add_r by (unfold e1; lia).
    destruct mx as [|p|p]; [apply Z.pow_pos_nonneg; unfold e1; lia| |lia].
    destruct (digits2_pos_bounds p) as [_ Hhi].
    eapply Z.lt_le_trans; [exact Hhi|].
    apply Z.pow_le_mono_r; [lia|].
    unfold e1, fexp. simpl Zdigits2. lia. }
  assert (Hemin : emin prec emax ≤ e1).
  { unfold e1. pose proof (fexp_ge_emin (Zdigits2 mx + ex)). lia. }
  set (m2 := round_nearest_even (shr_m mrs') (loc_of_shr_record mrs')).
  assert (Hm2 : m1 ≤ m2 ≤ m1 + 1).
  { unfold m2. rewrite <- Hmm. apply round_nearest_even_bounds. }
  destruct (shr_fexp_spec m2 e' loc_Exact ltac:(lia)) as [Hm3 He3].
  revert Hm3 He3.
  destruct (shr_fexp prec emax m2 e' loc_Exact) as [mrs'' e'']. intros Hm3 He3.
  simpl in Hm3, He3. clear He1 Hm1. rewrite Hee in Hm3, He3.
  destruct (Z_lt_le_dec m2 (2 ^ prec)) as [Hlt|Hge].
  - assert (Hd : Zdigits2 m2 ≤ prec) by (apply Zdigits2_le; lia).
    assert (Hn : Z.max (fexp prec emax (Zdigits2 m2 + e1) - e1) 0 = 0).
    { unfold fexp. lia. }
    rewrite Hn in Hm3, He3. rewrite Z.div_1_r in Hm3.
    exists m2, e1. split.
    + rewrite Hm3. replace e'' with e1 by lia. reflexivity.
    + split; [lia|]. left. lia.
  - assert (E2 : m2 = 2 ^ prec) by lia.
    assert (Hd : Zdigits2 m2 = prec + 1).
    { rewrite E2. apply Zdigits2_pow2. lia. }
    assert (Hn : Z.max (fexp prec emax (Zdigits2 m2 + e1) - e1) 0 = 1).
    { unfold fexp. lia. }
    rewrite Hn in Hm3, He3.
    exists (2 ^ (prec - 1)), (e1 + 1). split.
    + rewrite Hm3, He3, E2.
      replace prec with (prec - 1 + 1) at 1 by lia.
      rewrite Z.pow_add_r by lia. rewrite Z.div_mul by done. reflexivity.
    + split; [apply Z.pow_nonneg; lia|]. right. lia.
Qed.

Lemma iter_xO (m d : positive) :
  Zpos (Pos.iter xO m d) = Zpos m * 2 ^ Zpos d.
Proof.
  induction d as [|d IH] using Pos.peano_ind.
  - simpl. lia.
  - rewrite Pos.iter_succ, Pos2Z.inj_succ, Z.pow_succ_r by lia.
    change (Zpos (Pos.iter xO m d)~0) with (2 * Zpos (Pos.iter xO m d)).
    rewrite IH. lia.
Qed.

Lemma shl_align_spec (mx : positive) (ex ex' : Z) :
  snd (shl_align mx ex ex') = Z.min ex ex' ∧
  Zpos (fst (shl_align mx ex ex')) = Zpos mx * 2 ^ (ex - Z.min ex ex').
Proof.
  unfold shl_align. destruct (ex' - ex) as [|d|d] eqn:E; simpl.
  - replace (ex - Z.min ex ex') with 0 by lia. lia.
  - replace (ex - Z.min ex ex') with 0 by lia. lia.
  - rewrite iter_xO. replace (ex - Z.min ex ex') with (Zpos d) by lia. lia.
Qed.

Lemma digits2_shift (mz m : positive) (k : Z) :
  0 ≤ k → Zpos mz = Zpos m * 2 ^ k →
  Zpos (digits2_pos mz) = Zpos (digits2_pos m) + k.
Proof.
  intros Hk E. destruct (digits2_pos_bounds m) as [Hlo Hhi].
  assert (H2 : 0 < 2 ^ k) by (apply Z.pow_pos_nonneg; lia).
  apply Z.le_antisymm.
  - apply digits2_le. rewrite E, Z.pow_add_r by lia. nia.
  - assert (Zpos (digits2_pos m) - 1 + k < Zpos (digits2_pos mz)); [|lia].
    apply digits2_gt; [|lia]. rewrite E, Z.pow_add_r by lia. nia.
Qed.

Lemma binary_round_spec (sx : bool) (m : positive) (e : Z) :
  ∃ m3 e3,
    binary_round prec emax sx m e = IEEE.round_result prec emax sx m3 e3 ∧
    0 ≤ m3 ∧
    let ec := fexp prec emax (Zpos (digits2_pos m) + e) in
    let m1 := Zpos m * 2 ^ (e - Z.min e ec) / 2 ^ (ec - Z.min e ec) in
    (e3 = ec ∧ m1 ≤ m3 ≤ m1 + 1 ∧ m3 < 2 ^ prec) ∨
    (e3 = ec + 1 ∧ m3 = 2 ^ (prec - 1) ∧ 2 ^ prec ≤ m1 + 1).
Proof.
  unfold binary_round.
  set (ec := fexp prec emax (Zpos (digits2_pos m) + e)).
  destruct (shl_align_spec m e ec) as [Hez Hmz].
  destruct (shl_align m e ec) as [mz ez]. simpl in Hez, Hmz.
  assert (Hd : Zpos (digits2_pos mz) = Zpos (digits2_pos m) + (e - ez)).
  { apply digits2_shift; [lia|]. by rewrite Hez. }
  destruct (binary_round_aux_spec sx (Zpos mz) ez loc_Exact ltac:(lia))
    as (m3 & e3 & Hr & Hm3 & Hcases).
  exists m3, e3. split; [done|]. split; [done|].
  simpl Zdigits2 in Hcases. rewrite Hd in Hcases.
  replace (Zpos (digits2_pos m) + (e - ez) + ez)
    with (Zpos (digits2_pos m) + e) in Hcases by lia.
  fold ec in Hcases.
  replace (Z.max ec ez) with ec in Hcases by lia.
  rewrite Hmz, Hez in Hcases. exact Hcases.
Qed.


Lemma bounded_spec (m : positive) (e : Z) :
  bounded prec emax m e = true →
  fexp prec emax (Zpos (digits2_pos m) + e) = e ∧ e ≤ emax - prec.
Proof.
  unfold bounded, canonical_mantissa.
  intros [H1 H2]%andb_prop. by apply Z.eqb_eq in H1; apply Z.leb_le in H2.
Qed.

Lemma SFleb_pos_round (mx : positive) (ex m3 e3 : Z) :
  0 < m3 → ex < e3 ∨ (ex = e3 ∧ Zpos mx ≤ m3) →
  SFleb (S754_finite false mx ex) (IEEE.round_result prec emax false m3 e3)
  = true.
Proof.
  intros Hm H. destruct m3 as [|q|q]; [lia| |lia]. unfold IEEE.round_result.
  destruct (e3 <=? emax - prec); [|reflexivity].
  unfold SFleb, SFcompare. destruct H as [Hlt|[-> Hle]].
  - by rewrite (proj2 (Z.compare_lt_iff ex e3)).
  - rewrite Z.compare_refl.
    change (Pos.compare_cont Eq mx q) with (mx ?= q)%positive.
    destruct (mx ?= q)%positive eqn:E; [done|done|].
    apply Pos.compare_gt_iff in E. lia.
Qed.

Lemma SFleb_neg_round (mx : positive) (ex m3 e3 : Z) :
  0 ≤ m3 → e3 < ex ∨ (e3 = ex ∧ m3 ≤ Zpos mx) →
  e3 ≤ emax - prec →
  SFleb (S754_finite true mx ex) (IEEE.round_result prec emax true m3 e3)
  = true.
Proof.
  intros Hm H He. destruct m3 as [|q|q]; [reflexivity| |lia].
  unfold IEEE.round_result. rewrite (proj2 (Z.leb_le _ _)) by done.
  unfold SFleb, SFcompare. destruct H as [Hlt|[-> Hle]].
  - by rewrite (proj2 (Z.compare_gt_iff ex e3)).
  - rewrite Z.compare_refl.
    change (Pos.compare_cont Eq mx q) with (mx ?= q)%positive.
    destruct (mx ?= q)%positive eqn:E; [done| |done].
    change (mx < q)%positive in E. lia.
Qed.

Lemma SFleb_neg_round_pos (mx : positive) (ex m3 e3 : Z) :
  0 ≤ m3 →
  SFleb (S754_finite true mx ex) (IEEE.round_result prec emax false m3 e3)
  = true.
Proof.
  intros Hm. destruct m3 as [|q|q]; [reflexivity| |lia].
  unfold IEEE.round_result. by destruct (e3 <=? emax - prec).
Qed.

Lemma fexp_mono (a b : Z) : a ≤ b → fexp prec emax a ≤ fexp prec emax b.
Proof. unfold fexp. lia. Qed.

(** What a canonical mantissa tells about its length. *)
Lemma canonical_digits (d e : Z) :
  fexp prec emax (d + e) = e →
  d ≤ prec ∧ emin prec emax ≤ e ∧ (emin prec emax < e → d = prec).
Proof. unfold fexp. lia. Qed.

Lemma fexp_above_emin (d e : Z) :
  emin prec emax < fexp prec emax (d + e) →
  fexp prec emax (d + e) = d + e - prec.
Proof. unfold fexp. lia. Qed.

(** The sum of a positive number of the format and a positive number. *)
Lemma binary_round_sum_le (mx : positive) (ex : Z) (q : positive) (ez : Z) :
  fexp prec emax (Zpos (digits2_pos mx) + ex) = ex →
  ez ≤ ex → Zpos mx * 2 ^ (ex - ez) ≤ Zpos q →
  SFleb (S754_finite false mx ex) (binary_round prec emax false q ez) = true.
Proof.
  intros Hcan Hez Hq.
  destruct (canonical_digits _ _ Hcan) as (Hdx & Hemin & _).
  destruct (digits2_pos_bounds mx) as [Hlo _].
  destruct (digits2_pos_bounds q) as [Hqlo _].
  assert (Hp : 0 < 2 ^ (ex - ez)) by (apply Z.pow_pos_nonneg; lia).
  assert (Hdq : Zpos (digits2_pos mx) - 1 + (ex - ez) < Zpos (digits2_pos q)).
  { apply digits2_gt; [|lia]. rewrite Z.pow_add_r by lia.
    eapply Z.le_trans; [|exact Hq]. by apply Z.mul_le_mono_nonneg_r; [lia|]. }
  destruct (binary_round_spec false q ez) as (m3 & e3 & -> & _ & Hc).
  cbv zeta in Hc.
  set (ecq := fexp prec emax (Zpos (digits2_pos q) + ez)) in *.
  assert (Hecq : ex ≤ ecq).
  { rewrite <- Hcan. apply fexp_mono. lia. }
  replace (Z.min ez ecq) with ez in Hc by lia.
  rewrite Z.sub_diag, Z.mul_1_r in Hc.
  assert (Hpq : 0 < 2 ^ (ecq - ez)) by (apply Z.pow_pos_nonneg; lia).
  clear Hlo Hp Hdq.
  destruct Hc as [(-> & Hm & _)|(-> & -> & _)].
  - destruct (Z_lt_le_dec ex ecq) as [Hlt|Hge].
    + apply SFleb_pos_round; [|by left].
      assert (1 ≤ Zpos q / 2 ^ (ecq - ez)); [|lia].
      apply Z.div_le_lower_bound; [done|].
      rewrite Z.mul_1_r. eapply Z.le_trans; [|exact Hqlo].
      apply Z.pow_le_mono_r; [lia|].
      pose proof (fexp_above_emin (Zpos (digits2_pos q)) ez) as Habove.
      fold ecq in Habove. lia.
    + assert (E : ecq = ex) by lia.
      assert (Zpos mx ≤ Zpos q / 2 ^ (ecq - ez)).
      { apply Z.div_le_lower_bound; [done|]. rewrite E, Z.mul_comm. done. }
      apply SFleb_pos_round; [lia|]. right. split; [done|lia].
  - apply SFleb_pos_round; [apply Z.pow_pos_nonneg; lia|]. left. lia.
Qed.

(** The sum of a negative number of the format and a smaller positive
    number. *)
Lemma binary_round_difference_le (mx : positive) (ex : Z) (q : positive)
    (ez : Z) :
  fexp prec emax (Zpos (digits2_pos mx) + ex) = ex → ex ≤ emax - prec →
  ez ≤ ex → Zpos q < Zpos mx * 2 ^ (ex - ez) →
  SFleb (S754_finite true mx ex) (binary_round prec emax true q ez) = true.
Proof.
  intros Hcan Hb Hez Hq.
  destruct (canonical_digits _ _ Hcan) as (Hdx & Hemin & Hnormal).
  destruct (digits2_pos_bounds mx) as [Hlo Hhi].
  assert (Hp : 0 < 2 ^ (ex - ez)) by (apply Z.pow_pos_nonneg; lia).
  assert (Hdq : Zpos (digits2_pos q) ≤ Zpos (digits2_pos mx) + (ex - ez)).
  { apply digits2_le. rewrite Z.pow_add_r by lia.
    eapply Z.lt_trans; [exact Hq|]. by apply Z.mul_lt_mono_pos_r. }
  assert (Hmx : Zpos mx < 2 ^ prec).
  { eapply Z.lt_le_trans; [exact Hhi|]. apply Z.pow_le_mono_r; lia. }
  assert (Hnorm : emin prec emax < ex → 2 ^ (prec - 1) ≤ Zpos mx).
  { intros Hgt. rewrite <- (Hnormal Hgt). done. }
  destruct (binary_round_spec true q ez) as (m3 & e3 & -> & Hm3 & Hc).
  cbv zeta in Hc.
  set (ecq := fexp prec emax (Zpos (digits2_pos q) + ez)) in *.
  assert (Hecq : ecq ≤ ex).
  { rewrite <- Hcan. apply fexp_mono. lia. }
  assert (Hecq' : emin prec emax ≤ ecq) by apply fexp_ge_emin.
  assert (Hm1 : ecq = ex →
            Zpos q * 2 ^ (ez - Z.min ez ecq) / 2 ^ (ecq - Z.min ez ecq)
            < Zpos mx).
  { intros Hex. replace (Z.min ez ecq) with ez by lia.
    rewrite Z.sub_diag, Z.mul_1_r, Hex.
    apply Z.div_lt_upper_bound; [done|]. by rewrite Z.mul_comm. }
  clear Hlo Hhi Hdq Hq Hp Hcan Hnormal.
  destruct Hc as [(-> & Hm & _)|(-> & -> & Hcarry)].
  - apply SFleb_neg_round; [done| |lia].
    destruct (Z_lt_le_dec ecq ex) as [|Hge]; [by left|right].
    split; [lia|]. specialize (Hm1 ltac:(lia)). lia.
  - assert (ecq < ex).
    { destruct (Z_lt_le_dec ecq ex) as [|Hge]; [done|].
      specialize (Hm1 ltac:(lia)). lia. }
    apply SFleb_neg_round; [done| |lia].
    destruct (Z_lt_le_dec (ecq + 1) ex) as [|Hge]; [by left|right].
    split; [lia|]. apply Hnorm. lia.
Qed.

(** Adding a positive number to a number of the format does not give a
    smaller number. *)
Lemma SFadd_pos_le (sx : bool) (mx : positive) (ex : Z) (my : positive)
    (ey : Z) :
  bounded prec emax mx ex = true →
  SFleb (S754_finite sx mx ex)
        (SFadd prec emax (S754_finite sx mx ex) (S754_finite false my ey))
  = true.
Proof.
  intros [Hcan Hb]%bounded_spec. unfold SFadd.
  set (ez := Z.min ex ey).
  assert (Hez : ez ≤ ex) by (unfold ez; lia).
  destruct (shl_align_spec mx ex ez) as [_ HX].
  destruct (shl_align_spec my ey ez) as [_ HY].
  replace (Z.min ex ez) with ez in HX by lia.
  clear HY. revert HX.
  generalize (fst (shl_align mx ex ez)), (fst (shl_align my ey ez)).
  intros px py HX.
  destruct sx; unfold cond_Zopp.
  - destruct (- Zpos px + Zpos py) as [|q|q] eqn:E; unfold binary_normalize.
    + reflexivity.
    + destruct (binary_round_spec false q ez) as (m3 & e3 & -> & Hm3 & _).
      by apply SFleb_neg_round_pos.
    + apply binary_round_difference_le; [done|done|done|]. rewrite <- HX. lia.
  - change (Zpos px + Zpos py) with (Zpos (px + py)). unfold binary_normalize.
    apply binary_round_sum_le; [done|done|]. rewrite <- HX. lia.
Qed.

Lemma round_result_not_negative (m e : Z) :
  0 ≤ m → IEEE.not_negative (IEEE.round_result prec emax false m e) = true.
Proof.
  intros Hm. destruct m as [|q|q]; [done| |lia].
  unfold IEEE.round_result. by destruct (e <=? emax - prec).
Qed.

Lemma round_result_finite (sx : bool) (m e : Z) :
  0 ≤ m → e ≤ emax - prec →
  IEEE.is_finite (IEEE.round_result prec emax sx m e) = true.
Proof.
  intros Hm He. destruct m as [|q|q]; [done| |lia].
  unfold IEEE.round_result. by rewrite (proj2 (Z.leb_le _ _)).
Qed.

Lemma binary_round_aux_not_negative (mx ex : Z) (lx : location) :
  0 ≤ mx →
  IEEE.not_negative (binary_round_aux prec emax false mx ex lx) = true.
Proof.
  intros Hmx.
  destruct (binary_round_aux_spec false mx ex lx Hmx) as (m3 & e3 & -> & Hm3 & _).
  by apply round_result_not_negative.
Qed.

Lemma binary_round_not_negative (m : positive) (e : Z) :
  IEEE.not_negative (binary_round prec emax false m e) = true.
Proof.
  destruct (binary_round_spec false m e) as (m3 & e3 & -> & Hm3 & _).
  by apply round_result_not_negative.
Qed.

(** The product of two numbers that are not negative is not negative, and
    a number when the factors are finite. *)
Lemma SFmul_not_negative (x y : spec_float) :
  IEEE.not_negative x = true → IEEE.is_finite x = true →
  IEEE.not_negative y = true → IEEE.is_finite y = true →
  IEEE.not_negative (SFmul prec emax x y) = true.
Proof.
  destruct x as [sx|sx| |sx mx ex], y as [sy|sy| |sy my ey];
    try done; simpl.
  intros ->%negb_true_iff _ ->%negb_true_iff _. simpl.
  by apply binary_round_aux_not_negative.
Qed.

Lemma SFleb_refl (x : spec_float) : IEEE.is_finite x = true → SFleb x x = true.
Proof.
  destruct x as [sx|sx| |sx mx ex]; try done. intros _.
  unfold SFleb, SFcompare. rewrite Z.compare_refl, Pcompare_refl.
  by destruct sx.
Qed.

(** Adding a number that is not negative to a finite number of the format
    does not give a smaller number (nor NaN). *)
Lemma SFadd_not_negative_le (w d : spec_float) :
  valid_binary prec emax w = true → IEEE.is_finite w = true →
  IEEE.not_negative d = true →
  SFleb w (SFadd prec emax w d) = true.
Proof.
  intros Hvalid Hfin Hd.
  destruct w as [sw|sw| |sw mw ew]; try done.
  - destruct d as [sd|sd| |sd md ed]; try done.
    + by destruct sw, sd.
    + simpl in Hd. apply negb_true_iff in Hd as ->. done.
    + simpl in Hd. apply negb_true_iff in Hd as ->. done.
  - destruct d as [sd|sd| |sd md ed]; try done.
    + change (SFadd prec emax (S754_finite sw mw ew) (S754_zero sd))
        with (S754_finite sw mw ew).
      by apply SFleb_refl.
    + simpl in Hd. apply negb_true_iff in Hd as ->. by destruct sw.
    + simpl in Hd. apply negb_true_iff in Hd as ->. by apply SFadd_pos_le.
Qed.

End RoundingSpec.

(** ** The direction of the weight update in the arithmetic of the code *)

Section WeightDirection.
Local Open Scope Z_scope.

Lemma SFleb_zero_not_negative (x : spec_float) :
  SFleb (S754_zero false) x = true → IEEE.not_negative x = true.
Proof. by destruct x as [s|[]| |[] m e]. Qed.

Lemma SFltb_zero_not_negative (x : spec_float) :
  SFltb (S754_zero false) x = true → IEEE.not_negative x = true.
Proof. by destruct x as [s|[]| |[] m e]. Qed.

(** The conversion of a [float] that is not negative to [double]. *)
Lemma to_double_not_negative (x : spec_float) :
  IEEE.binary32 x = true → IEEE.not_negative x = true →
  IEEE.not_negative (IEEE.to_double x) = true ∧
  IEEE.is_finite (IEEE.to_double x) = true.
Proof.
  unfold IEEE.binary32. intros [Hvalid Hfin]%andb_prop Hx.
  destruct x as [sx|sx| |sx mx ex]; try done.
  simpl in Hx. apply negb_true_iff in Hx as ->.
  change (IEEE.to_double (S754_finite false mx ex))
    with (binary_round 53 1024 false mx ex).
  destruct (binary_round_spec 53 1024 ltac:(lia) false mx ex)
    as (m3 & e3 & -> & Hm3 & Hc).
  split; [by apply round_result_not_negative|].
  apply round_result_finite; [done|].
  apply bounded_spec in Hvalid as [Hcan Hb].
  cbv zeta in Hc. unfold fexp, emin in *. lia.
Qed.

Lemma to_float_not_negative (x : spec_float) :
  IEEE.not_negative x = true → IEEE.not_negative (IEEE.to_float x) = true.
Proof.
  destruct x as [sx|sx| |sx mx ex]; try done.
  simpl. intros ->%negb_true_iff. apply binary_round_not_negative. lia.
Qed.

(** The product of a positive [double] below 1/2 and a finite [double] is
    finite. *)
Lemma scaled_finite (mL : positive) (eL : Z) (e : spec_float) :
  Zpos mL < 2 ^ 53 → eL ≤ -54 → IEEE.binary64 e = true →
  IEEE.is_finite (FP.dmul (S754_finite false mL eL) e) = true.
Proof.
  unfold IEEE.binary64. intros HmL HeL [Hvalid Hfin]%andb_prop.
  destruct e as [se|se| |se me ee]; try done.
  change (FP.dmul (S754_finite false mL eL) (S754_finite se me ee))
    with (binary_round_aux 53 1024 (xorb false se) (Zpos (mL * me))
            (eL + ee) loc_Exact).
  destruct (binary_round_aux_spec 53 1024 ltac:(lia) (xorb false se)
              (Zpos (mL * me)) (eL + ee) loc_Exact ltac:(lia))
    as (m3 & e3 & -> & Hm3 & Hc).
  apply round_result_finite; [done|].
  apply bounded_spec in Hvalid as [Hcan Hb].
  destruct (digits2_pos_bounds me) as [_ Hhi].
  assert (Hd : Zpos (digits2_pos (mL * me)) ≤ 53 + Zpos (digits2_pos me)).
  { apply digits2_le. rewrite Z.pow_add_r, Pos2Z.inj_mul by lia.
    apply Z.mul_lt_mono_nonneg; lia. }
  clear Hhi HmL.
  cbv zeta in Hc. simpl Zdigits2 in Hc. unfold fexp, emin in *. lia.
Qed.

(** The increment of line 209 is not negative when the error is positive
    and the activation not negative. *)
Lemma hiddenIncrement_not_negative (e x : spec_float) :
  IEEE.binary64 e = true → SFltb (S754_zero false) e = true →
  IEEE.binary32 x = true → SFleb (S754_zero false) x = true →
  IEEE.not_negative
    (IEEE.to_float
       (FP.dmul (FP.dmul (IEEE.to_double FP.learningRate) e)
                (IEEE.to_double x))) = true.
Proof.
  intros He Hpos Hx Hnn.
  apply SFltb_zero_not_negative in Hpos.
  apply SFleb_zero_not_negative in Hnn.
  replace (IEEE.to_double FP.learningRate)
    with (S754_finite false 7205759511166976 (-56))
    by (vm_compute; reflexivity).
  pose proof (scaled_finite 7205759511166976 (-56) e
                ltac:(reflexivity) ltac:(lia) He) as H2.
  assert (H1 : IEEE.not_negative
                 (FP.dmul (S754_finite false 7205759511166976 (-56)) e)
               = true).
  { unfold IEEE.binary64 in He. apply andb_prop in He as [_ Hfin].
    by apply (SFmul_not_negative 53 1024 ltac:(lia)). }
  destruct (to_double_not_negative x Hx Hnn) as [H3 H4].
  apply to_float_not_negative.
  by apply (SFmul_not_negative 53 1024 ltac:(lia)).
Qed.

(** The increment of line 209 is a zero when the activation is a zero. *)
Lemma hiddenIncrement_zero (e : spec_float) (sx : bool) :
  IEEE.binary64 e = true →
  ∃ s, IEEE.to_float
         (FP.dmul (FP.dmul (IEEE.to_double FP.learningRate) e)
                  (IEEE.to_double (S754_zero sx))) = S754_zero s.
Proof.
  intros He.
  replace (IEEE.to_double FP.learningRate)
    with (S754_finite false 7205759511166976 (-56))
    by (vm_compute; reflexivity).
  pose proof (scaled_finite 7205759511166976 (-56) e
                ltac:(reflexivity) ltac:(lia) He) as Hfin.
  destruct (FP.dmul (S754_finite false 7205759511166976 (-56)) e)
    as [s|s| |s m e']; try done; by eexists.
Qed.

Lemma SFeqb_zero (x : spec_float) :
  SFeqb x (S754_zero false) = true → ∃ s, x = S754_zero s.
Proof. destruct x as [s|[]| |[] m e]; try done. by eexists. Qed.

Lemma SFeqb_refl (x : spec_float) : IEEE.is_finite x = true → SFeqb x x = true.
Proof.
  destruct x as [sx|sx| |sx mx ex]; try done. intros _.
  unfold SFeqb, SFcompare. rewrite Z.compare_refl, Pcompare_refl.
  by destruct sx.
Qed.

(** Adding a zero to a finite number gives the same number. *)
Lemma fadd_zero (w : spec_float) (s : bool) :
  IEEE.is_finite w = true → SFeqb w (FP.fadd w (S754_zero s)) = true.
Proof.
  destruct w as [sw|sw| |sw mw ew]; try done; intros _.
  - by destruct sw, s.
  - change (FP.fadd (S754_finite sw mw ew) (S754_zero s))
      with (S754_finite sw mw ew).
    by apply SFeqb_refl.
Qed.

(** The quotient [(float)pixel / 255] of a pixel between 0 and 255. *)
Lemma pixel_quotient_unit (px : Z) :
  0 ≤ px ≤ 255 →
  IEEE.unit_float (FP.fdiv (IEEE.float_of_Z px) (IEEE.float_of_Z 255)) = true.
Proof.
  intros Hpx.
  assert (Hall : forallb (λ n, IEEE.unit_float
                                 (FP.fdiv (IEEE.float_of_Z (Z.of_nat n))
                                          (IEEE.float_of_Z 255)))
                         (seq 0 256) = true) by (vm_compute; reflexivity).
  rewrite forallb_forall in Hall.
  replace px with (Z.of_nat (Z.to_nat px)) by lia.
  apply Hall, in_seq. lia.
Qed.

(** C7 as stated fails on the arithmetic of the code.  With the
    hidden-to-output weight 2^24 = 16777216, the hidden activation 1/2 and
    the error 1 (both positive), the increment is the [float] nearest to
    0.05; the [float]s next to 2^24 are 1 below and 2 above it, so the
    rounded sum is 2^24 again: the weight is not strictly increased. *)
Lemma weight_unchanged_counterexample :
  FP.network_ok FP.heavy_heap [0%nat] [1%nat] [2%nat] FP.small_error ∧
  fits [0%nat] [1%nat] [2%nat] ∧
  SFltb (S754_zero false) (FP.errorAt FP.small_error 0) = true ∧
  (∀ b, b ∈ [1%nat] →
        SFltb (S754_zero false) (FP.value FP.heavy_heap b) = true) ∧
  ∀ exp,
    ∃ h', FP.backPropagate exp [0%nat] [1%nat] [2%nat] FP.small_error
            FP.heavy_heap = Ok h' ∧
      FP.weight h' 1 0 = FP.weight FP.heavy_heap 1 0 ∧
      SFltb (FP.weight FP.heavy_heap 1 0) (FP.weight h' 1 0) = false.
Proof.
  split; [apply heavy_network_ok|]. split; [apply tiny_fits|].
  split; [vm_compute; reflexivity|]. split.
  { intros b ->%list_elem_of_singleton. vm_compute. reflexivity. }
  intros exp.
  destruct (backPropagate_ok_fp exp FP.heavy_heap [0%nat] [1%nat] [2%nat]
              FP.small_error heavy_network_ok tiny_fits)
    as (h' & Hrun & _ & _ & _ & _ & HwB).
  exists h'. split; [done|].
  destruct heavy_increment as (_ & _ & Hsum).
  assert (Hw : FP.weight h' 1 0 = FP.weight FP.heavy_heap 1 0).
  { rewrite (HwB 0%nat 1%nat 0%nat eq_refl).
    rewrite decide_True by (simpl; lia). exact Hsum. }
  split; [done|]. rewrite Hw. vm_compute. reflexivity.
Qed.

(** C7, amended. The direction of the weight update in the arithmetic of
    the code: on a well-formed network that fits the buffers,
    [backPropagate] ends normally, and for an output index [k] whose error
    [resultErrorRate[k]] is a positive [double] and a hidden neuron whose
    activation is a [float] that is not negative and whose weight to the
    output [k] is a finite [float], that weight is not decreased: the old
    weight is less than or equal to the new one (which is not NaN).  It
    need not be greater: the rounded sum can be the old weight. *)
Theorem weight_not_decreased (exp : spec_float → spec_float) (h : FP.heap)
    (vpLayerA vpLayerB vpLayerC : layer) (resultErrorRate : FP.array1)
    (i : nat) (b : ptr_neuron_t) (k : nat) :
  FP.network_ok h vpLayerA vpLayerB vpLayerC resultErrorRate →
  fits vpLayerA vpLayerB vpLayerC →
  vpLayerB !! i = Some b → (k < length vpLayerC)%nat →
  IEEE.binary64 (FP.errorAt resultErrorRate k) = true →
  SFltb (S754_zero false) (FP.errorAt resultErrorRate k) = true →
  IEEE.binary32 (FP.value h b) = true →
  SFleb (S754_zero false) (FP.value h b) = true →
  IEEE.binary32 (FP.weight h b k) = true →
  ∃ h', FP.backPropagate exp vpLayerA vpLayerB vpLayerC resultErrorRate h
        = Ok h' ∧
    SFleb (FP.weight h b k) (FP.weight h' b k) = true.
Proof.
  intros Hok Hfit Hb Hk He Hpos Hx Hnn Hw.
  destruct (backPropagate_ok_fp exp h vpLayerA vpLayerB vpLayerC
              resultErrorRate Hok Hfit) as (h' & Hrun & _ & _ & _ & _ & HwB).
  exists h'. split; [done|].
  rewrite (HwB i b k Hb), decide_True by done.
  unfold IEEE.binary32 in Hw. apply andb_prop in Hw as [Hvalid Hfin].
  apply (SFadd_not_negative_le 24 128 ltac:(lia)); [done|done|].
  by apply hiddenIncrement_not_negative.
Qed.

Lemma weight_not_decreased_witness :
  ∃ h', FP.backPropagate FP.exp_example [0%nat] [1%nat] [2%nat]
          FP.small_error FP.small_heap = Ok h' ∧
    SFleb (FP.weight FP.small_heap 1 0) (FP.weight h' 1 0) = true.
Proof.
  apply (weight_not_decreased FP.exp_example FP.small_heap
           [0%nat] [1%nat] [2%nat] FP.small_error 0%nat 1%nat 0%nat);
    by_decision.
Defined.

(** X25. A hidden neuron whose activation is a zero keeps its weights: on
    a well-formed network that fits the buffers [backPropagate] ends
    normally, and for an output index [k] whose error is a finite [double]
    and a hidden neuron whose activation is 0 (of either sign) and whose
    weight to the output [k] is finite, the new weight is equal to the old
    one. *)
Theorem weight_kept_at_zero (exp : spec_float → spec_float) (h : FP.heap)
    (vpLayerA vpLayerB vpLayerC : layer) (resultErrorRate : FP.array1)
    (i : nat) (b : ptr_neuron_t) (k : nat) :
  FP.network_ok h vpLayerA vpLayerB vpLayerC resultErrorRate →
  fits vpLayerA vpLayerB vpLayerC →
  vpLayerB !! i = Some b → (k < length vpLayerC)%nat →
  IEEE.binary64 (FP.errorAt resultErrorRate k) = true →
  SFeqb (FP.value h b) (S754_zero false) = true →
  IEEE.is_finite (FP.weight h b k) = true →
  ∃ h', FP.backPropagate exp vpLayerA vpLayerB vpLayerC resultErrorRate h
        = Ok h' ∧
    SFeqb (FP.weight h b k) (FP.weight h' b k) = true.
Proof.
  intros Hok Hfit Hb Hk He Hx Hw.
  destruct (backPropagate_ok_fp exp h vpLayerA vpLayerB vpLayerC
              resultErrorRate Hok Hfit) as (h' & Hrun & _ & _ & _ & _ & HwB).
  exists h'. split; [done|].
  rewrite (HwB i b k Hb), decide_True by done.
  apply SFeqb_zero in Hx as [sx Hx]. unfold FP.hiddenIncrement. rewrite Hx.
  destruct (hiddenIncrement_zero (FP.errorAt resultErrorRate k) sx He)
    as [s ->].
  by apply fadd_zero.
Qed.

Lemma weight_kept_at_zero_witness :
  ∃ h', FP.backPropagate FP.exp_example [0%nat] [1%nat] [2%nat]
          FP.small_error FP.still_heap = Ok h' ∧
    SFeqb (FP.weight FP.still_heap 1 0) (FP.weight h' 1 0) = true.
Proof.
  apply (weight_kept_at_zero FP.exp_example FP.still_heap
           [0%nat] [1%nat] [2%nat] FP.small_error 0%nat 1%nat 0%nat);
    by_decision.
Defined.

End WeightDirection.

(** ** The forward pass in the arithmetic of the code *)

Section ForwardPassRounded.

(** X1. The forward pass computes the two-layer network function in the
    arithmetic of the code: on a well-formed network of distinct neurons it
    ends normally, keeps every weight, stores the [float] quotient
    [(float)pixel / 255] in the input neurons, and every hidden and output
    activation is [applySigmoidFunction] of the weighted input accumulated
    in a [float] over the layer before it, in the order of that layer, all
    read in the final state. *)
Theorem forwardPass_rounded (exp : spec_float → spec_float) (h : FP.heap)
    (vpInputLayer vpHiddenLayer vpOutputLayer : layer) (pixels : list Z) :
  FP.layer_ok h (length vpHiddenLayer) vpInputLayer →
  FP.layer_ok h (length vpOutputLayer) vpHiddenLayer →
  FP.layer_ok h 0 vpOutputLayer →
  NoDup (vpInputLayer ++ vpHiddenLayer ++ vpOutputLayer) →
  length vpInputLayer ≤ length pixels →
  ∃ h', FP.forwardPass exp vpInputLayer vpHiddenLayer vpOutputLayer pixels h
        = Ok h' ∧
    (∀ p, FP.m_weights <$> (h' !! p) = FP.m_weights <$> (h !! p)) ∧
    (∀ i a px, vpInputLayer !! i = Some a → pixels !! i = Some px →
       FP.value h' a = FP.fdiv (IEEE.float_of_Z px) (IEEE.float_of_Z 255)) ∧
    (∀ j b, vpHiddenLayer !! j = Some b →
       FP.value h' b
       = FP.applySigmoidFunction exp
           (foldl (λ raw a, FP.fadd raw (FP.fmul (FP.weight h' a j)
                                                 (FP.value h' a)))
                  (IEEE.float_of_Z 0) vpInputLayer)) ∧
    (∀ k c, vpOutputLayer !! k = Some c →
       FP.value h' c
       = FP.applySigmoidFunction exp
           (foldl (λ raw b, FP.fadd raw (FP.fmul (FP.weight h' b k)
                                                 (FP.value h' b)))
                  (IEEE.float_of_Z 0) vpHiddenLayer)).
Proof.
  intros HA HB HC Hnd Hpx.
  destruct (returns_ok _ _ (forwardPass_returns_fp exp h vpInputLayer
              vpHiddenLayer vpOutputLayer pixels HA HB HC Hnd Hpx))
    as (h' & Hrun & Hw & _ & Hin & Hhid & Hout).
  exists h'. split; [done|]. split; [exact Hw|]. split; [exact Hin|].
  split; [exact Hhid | exact Hout].
Qed.

Lemma forwardPass_rounded_witness :
  ∃ h', FP.forwardPass FP.exp_example [0%nat] [1%nat] [2%nat] [255%Z]
          FP.small_heap = Ok h' ∧
    (∀ p, FP.m_weights <$> (h' !! p) = FP.m_weights <$> (FP.small_heap !! p)) ∧
    (∀ i a px, [0%nat] !! i = Some a → [255%Z] !! i = Some px →
       FP.value h' a = FP.fdiv (IEEE.float_of_Z px) (IEEE.float_of_Z 255)) ∧
    (∀ j b, [1%nat] !! j = Some b →
       FP.value h' b
       = FP.applySigmoidFunction FP.exp_example
           (foldl (λ raw a, FP.fadd raw (FP.fmul (FP.weight h' a j)
                                                 (FP.value h' a)))
                  (IEEE.float_of_Z 0) [0%nat])) ∧
    (∀ k c, [2%nat] !! k = Some c →
       FP.value h' c
       = FP.applySigmoidFunction FP.exp_example
           (foldl (λ raw b, FP.fadd raw (FP.fmul (FP.weight h' b k)
                                                 (FP.value h' b)))
                  (IEEE.float_of_Z 0) [1%nat])).
Proof.
  apply (forwardPass_rounded FP.exp_example FP.small_heap
           [0%nat] [1%nat] [2%nat] [255%Z]); by_decision.
Defined.

(** X2. Ranges after a forward pass: when every pixel lies between 0 and
    255, every input activation is a finite [float] between 0 and 1, both
    included. *)
Theorem forwardPass_input_range (exp : spec_float → spec_float)
    (h : FP.heap) (vpInputLayer vpHiddenLayer vpOutputLayer : layer)
    (pixels : list Z) :
  FP.layer_ok h (length vpHiddenLayer) vpInputLayer →
  FP.layer_ok h (length vpOutputLayer) vpHiddenLayer →
  FP.layer_ok h 0 vpOutputLayer →
  NoDup (vpInputLayer ++ vpHiddenLayer ++ vpOutputLayer) →
  length vpInputLayer ≤ length pixels →
  Forall (λ px, 0 ≤ px ≤ 255)%Z pixels →
  ∃ h', FP.forwardPass exp vpInputLayer vpHiddenLayer vpOutputLayer pixels h
        = Ok h' ∧
    ∀ a, a ∈ vpInputLayer →
      IEEE.binary32 (FP.value h' a) = true ∧
      SFleb (IEEE.float_of_Z 0) (FP.value h' a) = true ∧
      SFleb (FP.value h' a) (IEEE.float_of_Z 1) = true.
Proof.
  intros HA HB HC Hnd Hpx Hrange.
  destruct (returns_ok _ _ (forwardPass_returns_fp exp h vpInputLayer
              vpHiddenLayer vpOutputLayer pixels HA HB HC Hnd Hpx))
    as (h' & Hrun & _ & _ & Hin & _).
  exists h'. split; [done|].
  intros a (i & Ha)%list_elem_of_lookup_1.
  destruct (lookup_lt_is_Some_2 pixels i) as [px Hp].
  { apply lookup_lt_Some in Ha. lia. }
  rewrite (Hin i a px Ha Hp).
  pose proof (pixel_quotient_unit px
                (proj1 (Forall_lookup _ _) Hrange i px Hp)) as Hunit.
  unfold IEEE.unit_float in Hunit.
  apply andb_prop in Hunit as [[H1 H2]%andb_prop H3]. done.
Qed.

Lemma forwardPass_input_range_witness :
  ∃ h', FP.forwardPass FP.exp_example [0%nat] [1%nat] [2%nat] [255%Z]
          FP.small_heap = Ok h' ∧
    ∀ a, a ∈ [0%nat] →
      IEEE.binary32 (FP.value h' a) = true ∧
      SFleb (IEEE.float_of_Z 0) (FP.value h' a) = true ∧
      SFleb (FP.value h' a) (IEEE.float_of_Z 1) = true.
Proof.
  apply (forwardPass_input_range FP.exp_example FP.small_heap
           [0%nat] [1%nat] [2%nat] [255%Z]); by_decision.
Defined.

End ForwardPassRounded.
